(** * Bush.cpp: the origin-rooted bush of the equilibrium solver

    A shallow embedding of [src/Bush.cpp].  A bush owns, per network node, the
    vector of its incoming bush edges, a topological ordering of the reachable
    nodes, and the list of pending direction changes; the min/max distance
    labels live on the shared node array.

    Conventions of the embedding.
    - [double] is kept abstract: a type [D] with the operations the source
      applies to it ([DoubleOps]).  No theorem relies on a property of the
      arithmetic unless it says so in a hypothesis.
    - A pointer to a node is its index in [sharedNodes]; a pointer to a network
      arc is its index in the arc vector of the graph (the forward and the
      backward half of an arc share that index); a pointer to a bush edge is a
      slot: the node whose in-edge vector holds it, and the position there.
    - [v.at(i)] throws [std::out_of_range]: outcome [OutOfRange].  [v[i]]
      outside the vector, and a dereference of a null or dangling pointer, are
      undefined behaviour: outcome [Undefined].
    - The unbounded loops ([while (true)], [do ... while], the predecessor
      walks) take a bound on their number of iterations and end in
      [OutOfFuel] when it is exhausted.
    - Node ids, positions in a vector and vector lengths are [nat]; the
      [unsigned] values the source compares or converts ([distanceMap],
      the counter of [giveCount]) are [Z] with their 32-bit wrap-around.
    - [Bush.hpp] and the classes [BushNode], [BushEdge], [EdgeVector],
      [Origin] and [ABGraph] are not among the sources.  Their members that
      [Bush.cpp] calls are either parameters ([Collaborators]) or modelled
      from the specification; each such definition says so.

    The file has three parts: the embedding of the code, the vocabulary of the
    properties with the concrete networks they are tried on, and the
    properties. *)

From Stdlib Require Import ZArith Lia.
From stdpp Require Import base tactics option list numbers sorting.

Set Default Proof Using "Type".
Open Scope Z_scope.
Open Scope nat_scope.

(** ** Outcomes of a call *)

Inductive outcome (A : Type) : Type :=
| Ret (a : A)
| OutOfRange
| Undefined
| OutOfFuel.
Arguments Ret {A} a.
Arguments OutOfRange {A}.
Arguments Undefined {A}.
Arguments OutOfFuel {A}.

#[global] Instance outcome_ret : MRet outcome := fun A a => Ret a.
#[global] Instance outcome_bind : MBind outcome := fun A B f m =>
  match m with
  | Ret a => f a
  | OutOfRange => OutOfRange
  | Undefined => Undefined
  | OutOfFuel => OutOfFuel
  end.

#[global] Instance outcome_fmap : FMap outcome := fun A B f m =>
  match m with
  | Ret a => Ret (f a)
  | OutOfRange => OutOfRange
  | Undefined => Undefined
  | OutOfFuel => OutOfFuel
  end.

(** [v.at(i)] *)
Definition at_ {A} (v : list A) (i : nat) : outcome A :=
  match v !! i with Some x => Ret x | None => OutOfRange end.

(** [v[i]] *)
Definition idx {A} (v : list A) (i : nat) : outcome A :=
  match v !! i with Some x => Ret x | None => Undefined end.

(** [v.at(i)] and [v[i]] for a signed [int] index: a negative [int] converts
    to a [size_t] beyond every vector. *)
Definition at_Z {A} (v : list A) (i : Z) : outcome A :=
  if (i <? 0)%Z then OutOfRange else at_ v (Z.to_nat i).

Definition idx_Z {A} (v : list A) (i : Z) : outcome A :=
  if (i <? 0)%Z then Undefined else idx v (Z.to_nat i).

(** A loop over a vector whose body can fail. *)
Fixpoint foldM {A B} (f : A -> B -> outcome A) (a : A) (l : list B) : outcome A :=
  match l with
  | [] => Ret a
  | b :: l' => a' ← f a b; foldM f a' l'
  end.

(** ** The operations on [double] the source uses *)

Class DoubleOps (D : Type) := {
  d0 : D;                      (* 0.0 *)
  dadd : D -> D -> D;          (* + *)
  dsub : D -> D -> D;          (* - *)
  dmul : D -> D -> D;          (* * *)
  dlt : D -> D -> bool;        (* < *)
  deq : D -> D -> bool;        (* == *)
}.

(** [a > b] *)
Definition dgt {D} {ops : DoubleOps D} (a b : D) : bool := dlt b a.
(** [std::max(a, b)] *)
Definition dmax {D} {ops : DoubleOps D} (a b : D) : D := if dlt a b then b else a.

(** ** Data model *)

Section Data.
Context {D : Type}.

(** A directed arc of the network: [ForwardGraphEdge] holds the head, the flow
    and the cost function, its [BackwardGraphEdge] the tail and the cached
    length ([distance]). *)
Record GraphEdge := {
  arcFrom : nat;
  arcTo : nat;
  arcFlow : D;
  distance : D;
  costFunction : D -> D;
}.

Record ABGraph := {
  numVertices : nat;
  arcs : list GraphEdge;
}.

Record BushEdge := {
  fromNode : nat;
  toNode : nat;
  underlyingEdge : nat;
  flow : D;
}.

(** [EdgeVector]: the in-edges of one node, held by value. *)
Local Abbreviation EdgeVector := (list BushEdge).

Record BushNode := {
  minDist : D;
  maxDist : D;
  minPredecessor : option (nat * nat);
}.

Record Origin := {
  getOrigin : nat;
  dests : list (Z * D);
}.

Record Bush := {
  origin : Origin;
  bush : list EdgeVector;
  sharedNodes : list BushNode;
  tempStore : list (D * nat);
  topologicalOrdering : list nat;
  changes : list (nat * nat);
  graph : ABGraph;
}.

Definition setSharedNodes (s : Bush) (n : list BushNode) : Bush :=
  {| origin := origin s; bush := bush s; sharedNodes := n;
     tempStore := tempStore s; topologicalOrdering := topologicalOrdering s;
     changes := changes s; graph := graph s |}.

Definition setChanges (s : Bush) (c : list (nat * nat)) : Bush :=
  {| origin := origin s; bush := bush s; sharedNodes := sharedNodes s;
     tempStore := tempStore s; topologicalOrdering := topologicalOrdering s;
     changes := c; graph := graph s |}.

Definition setBush (s : Bush) (b : list EdgeVector) : Bush :=
  {| origin := origin s; bush := b; sharedNodes := sharedNodes s;
     tempStore := tempStore s; topologicalOrdering := topologicalOrdering s;
     changes := changes s; graph := graph s |}.

Definition setGraph (s : Bush) (g : ABGraph) : Bush :=
  {| origin := origin s; bush := bush s; sharedNodes := sharedNodes s;
     tempStore := tempStore s; topologicalOrdering := topologicalOrdering s;
     changes := changes s; graph := g |}.

Definition setTempStore (s : Bush) (t : list (D * nat)) : Bush :=
  {| origin := origin s; bush := bush s; sharedNodes := sharedNodes s;
     tempStore := t; topologicalOrdering := topologicalOrdering s;
     changes := changes s; graph := graph s |}.

Definition setTopologicalOrdering (s : Bush) (o : list nat) : Bush :=
  {| origin := origin s; bush := bush s; sharedNodes := sharedNodes s;
     tempStore := tempStore s; topologicalOrdering := o;
     changes := changes s; graph := graph s |}.

End Data.
Arguments GraphEdge : clear implicits.
Arguments ABGraph : clear implicits.
Arguments BushEdge : clear implicits.
Arguments BushNode : clear implicits.
Arguments Origin : clear implicits.
Arguments Bush : clear implicits.
Abbreviation EdgeVector D := (list (BushEdge D)).

(** ** Collaborators whose code is not in [Bush.cpp]

    They are parameters of the development: every theorem holds for whatever
    they compute.
    - [dijkstra]: [ABGraph::dijkstra(origin, distanceMap, topologicalOrdering)]
      receives both vectors by reference; it returns them as it leaves them.
    - [equilibriate]: [BushNode::equilibriate(graph)] on the node with the
      given id.  Through the graph and the node's predecessor pointers it can
      reach the arcs, the bush edges and the nodes, which it returns as it
      leaves them; the topological ordering, the pending changes and the
      scratch buffer are out of its reach.
    - [invalidMin], [invalidMax]: the labels [BushNode::updateInDistances]
      gives a node before it examines the in-edges. *)
Class Collaborators (D : Type) := {
  dijkstra : ABGraph D -> nat -> list Z -> list nat -> list Z * list nat;
  equilibriate : nat -> ABGraph D -> list (EdgeVector D) -> list (BushNode D) ->
                 ABGraph D * list (EdgeVector D) * list (BushNode D);
  invalidMin : D;
  invalidMax : D;
}.

(** [unsigned]: 32 bits. *)
Definition unsigned_ (z : Z) : Z := (z mod 2 ^ 32)%Z.
(** The conversion of an [unsigned] to [int]. *)
Definition toInt (z : Z) : Z := if (z <? 2 ^ 31)%Z then z else (z - 2 ^ 32)%Z.
(** [-1] compared with, or stored in, an [unsigned]. *)
Definition NOPOS : Z := unsigned_ (-1).

(** [std::stable_sort(first, last, comp)]: the range is sorted by [comp] and
    elements that [comp] does not separate keep their order.  Every element is
    inserted in front of the sorted elements that came after it, behind those
    that are smaller. *)
Fixpoint insertStable {A} (comp : A -> A -> bool) (x : A) (l : list A) : list A :=
  match l with
  | [] => [x]
  | y :: l' => if comp y x then y :: insertStable comp x l' else x :: l
  end.

Definition stable_sort {A} (comp : A -> A -> bool) (l : list A) : list A :=
  foldr (insertStable comp) [] l.

(** ** The bush *)

Section Model.
Context {D : Type} {ops : DoubleOps D} {ext : Collaborators D}.

Local Abbreviation GraphEdge := (GraphEdge D).
Local Abbreviation ABGraph := (ABGraph D).
Local Abbreviation BushEdge := (BushEdge D).
Local Abbreviation EdgeVector := (list BushEdge).
Local Abbreviation BushNode := (BushNode D).
Local Abbreviation Origin := (Origin D).
Local Abbreviation Bush := (Bush D).

(** *** Members of [BushNode], [BushEdge] and [Bush] declared in the headers *)

(** Modelled from the spec: [BushNode::setDistance] is missing from the
    sources; the origin is given "distance 0", as both labels. *)
Definition setDistance (d : D) (v : BushNode) : BushNode :=
  {| minDist := d; maxDist := d; minPredecessor := minPredecessor v |}.

(** Modelled from the spec: [BushNode::getDifference] is missing from the
    sources; it is the gap "(maxDist - minDist)". *)
Definition getDifference (v : BushNode) : D := dsub (maxDist v) (minDist v).

(** Modelled from the spec: [BushEdge::length] is missing from the sources;
    the cached length of a bush edge is the one [sendInitialFlows] stores on
    the underlying arc with [setDistance]. *)
Definition length_ (g : ABGraph) (e : BushEdge) : outcome D :=
  a ← idx (arcs g) (underlyingEdge e); mret (distance a).

(** Modelled from the spec: the constructor of [BushEdge] from a
    [BackwardGraphEdge] is missing from the sources; a bush edge is "a
    directed arc between two nodes, carrying a reference to the corresponding
    directed arc in the full network, a current flow value", none at first. *)
Definition newBushEdge (k : nat) (a : GraphEdge) : BushEdge :=
  {| fromNode := arcFrom a; toNode := arcTo a; underlyingEdge := k; flow := d0 |}.

(** Modelled from the spec: [BushEdge::addFlow] is missing from the sources. *)
Definition addFlow (d : D) (e : BushEdge) : BushEdge :=
  {| fromNode := fromNode e; toNode := toNode e;
     underlyingEdge := underlyingEdge e; flow := dadd (flow e) d |}.

(** Modelled from the spec: [BushEdge::swapDirection] is missing from the
    sources; "from/to swapped on both the bush edge and its underlying
    network edge".  [reversed] is the bush edge, [reversedArc] the arc, and
    [swapDirection] returns the edge and the graph as the call leaves them. *)
Definition reversed (e : BushEdge) : BushEdge :=
  {| fromNode := toNode e; toNode := fromNode e;
     underlyingEdge := underlyingEdge e; flow := flow e |}.

Definition reversedArc (a : GraphEdge) : GraphEdge :=
  {| arcFrom := arcTo a; arcTo := arcFrom a; arcFlow := arcFlow a;
     distance := distance a; costFunction := costFunction a |}.

(** The graph with other arcs. *)
Definition setArcs (g : ABGraph) (l : list GraphEdge) : ABGraph :=
  {| numVertices := numVertices g; arcs := l |}.

Definition swapDirection (g : ABGraph) (e : BushEdge) : outcome (BushEdge * ABGraph) :=
  a ← idx (arcs g) (underlyingEdge e);
  mret (reversed e, setArcs g (<[underlyingEdge e := reversedArc a]> (arcs g))).

(** The bush edge a [BushEdge*] points to; [None] is the null pointer. *)
Definition deref (b : list EdgeVector) (p : option (nat * nat)) : outcome BushEdge :=
  match p with
  | None => Undefined
  | Some (node, k) => es ← idx b node; idx es k
  end.

(** Modelled from the spec: [BushNode::updateInDistances] is missing from the
    sources.  "The minimum distance is the smallest (predecessor distance +
    edge length) over in-edges, recording which edge achieves it; the maximum
    distance is the largest such sum."  [id] is the node being updated and [k]
    the position of [e] in its in-edge vector, so that [(id, k)] is the slot
    the recorded pointer designates. *)
Definition examineInEdge (nodes : list BushNode) (g : ABGraph) (id : nat)
    (v : BushNode) (ke : nat * BushEdge) : outcome BushNode :=
  let '(k, e) := ke in
  u ← idx nodes (fromNode e);
  len ← length_ g e;
  let lo := dadd (minDist u) len in
  let hi := dadd (maxDist u) len in
  mret {| minDist := if dlt lo (minDist v) then lo else minDist v;
          maxDist := if dlt (maxDist v) hi then hi else maxDist v;
          minPredecessor :=
            if dlt lo (minDist v) then Some (id, k) else minPredecessor v |}.

Definition updateInDistances (nodes : list BushNode) (g : ABGraph) (id : nat)
    (inEdges : EdgeVector) : outcome BushNode :=
  foldM (examineInEdge nodes g id)
        {| minDist := invalidMin; maxDist := invalidMax; minPredecessor := None |}
        (imap pair inEdges).

(** Modelled from the spec: the three-argument [Bush::updateEdges] is missing
    from the sources.  "Any edge whose source's maximum distance is not
    strictly less than this node's resulting maximum distance is flagged as
    inconsistent and appended to the pending-changes list (keyed by the
    node)." *)
Definition flagInEdge (nodes : list BushNode) (maxDist_ : D) (id : nat)
    (chg : list (nat * nat)) (ke : nat * BushEdge) : outcome (list (nat * nat)) :=
  let '(k, e) := ke in
  u ← idx nodes (fromNode e);
  mret (if dlt (maxDist u) maxDist_ then chg else chg ++ [(id, k)]).

Definition updateEdges3 (nodes : list BushNode) (inEdges : EdgeVector)
    (maxDist_ : D) (id : nat) (chg : list (nat * nat)) : outcome (list (nat * nat)) :=
  foldM (flagInEdge nodes maxDist_ id) chg (imap pair inEdges).

(** Modelled from the spec: [Bush::pairComparator] is missing from the
    sources; the scratch pairs are sorted "by distance". *)
Definition pairComparator (a b : D * nat) : bool := dlt a.1 b.1.

(** *** [Bush::buildTrees] *)

(** The body of the loop over the topological ordering. *)
Definition buildNode (s : Bush) (id : nat) : outcome Bush :=
  _ ← idx (sharedNodes s) id;
  inEdges ← idx (bush s) id;
  v ← updateInDistances (sharedNodes s) (graph s) id inEdges;
  let nodes := <[id := v]> (sharedNodes s) in
  chg ← updateEdges3 nodes inEdges (maxDist v) id (changes s);
  mret (setChanges (setSharedNodes s nodes) chg).

Definition buildTrees (s : Bush) : outcome Bush :=
  let o := getOrigin (origin s) in
  root ← idx (sharedNodes s) o;
  let s0 := setChanges (setSharedNodes s (<[o := setDistance d0 root]> (sharedNodes s))) [] in
  foldM buildNode s0 (tail (topologicalOrdering s)).

(** *** [Bush::applyBushEdgeChanges], [Bush::topologicalSort], [Bush::updateEdges] *)

(** The pending changes cut into the runs the outer loop of
    [applyBushEdgeChanges] delimits with [i] and [j]: consecutive entries with
    the same node, each run with the positions of its flagged in-edges. *)
Fixpoint groupChanges (l : list (nat * nat)) : list (nat * list nat) :=
  match l with
  | [] => []
  | (node, k) :: l' =>
      match groupChanges l' with
      | (node', ks) :: gs =>
          if decide (node' = node) then (node, k :: ks) :: gs
          else (node, [k]) :: (node', ks) :: gs
      | [] => [(node, [k])]
      end
  end.

(** "Move edges to be inverted to the end": [hi] is [k + 1], [rks] the flagged
    positions from [m = j - 1] down to [i]. *)
Fixpoint swapToTail (inEdges : EdgeVector) (hi : nat) (rks : list nat) {struct rks}
    : outcome EdgeVector :=
  match rks with
  | [] => Ret inEdges
  | m :: rks' =>
      match hi with
      | 0 => Undefined
      | S k =>
          a ← idx inEdges k;
          b ← idx inEdges m;
          swapToTail (<[k := b]> (<[m := a]> inEdges)) k rks'
      end
  end.

(** The body of the loop that reverses the last entries.  The reversed edge
    is also written back to its slot, which [resize] cuts off afterwards; an
    edge from [node] to itself would be pushed onto the vector the loop runs
    over, whose [length()] then stays ahead of [k] for ever. *)
Definition reverseEdge (node : nat) (st : list EdgeVector * ABGraph) (edge : BushEdge)
    : outcome (list EdgeVector * ABGraph) :=
  let '(b, g) := st in
  let fromID := fromNode edge in
  '(edge', g') ← swapDirection g edge;
  target ← idx b fromID;
  if decide (fromID = node) then OutOfFuel
  else mret (<[fromID := target ++ [edge']]> b, g').

(** One run of changes.  Modelled from the spec: [EdgeVector::resize] is
    missing from the sources; called with the number of flagged edges, it
    truncates the vector by them ("Delete the last edges from the set"). *)
Definition applyGroup (s : Bush) (grp : nat * list nat) : outcome Bush :=
  let '(node, ks) := grp in
  inEdges ← idx (bush s) node;
  let l := length inEdges - length ks in
  moved ← swapToTail inEdges (length inEdges) (reverse ks);
  '(b, g) ← foldM (reverseEdge node) (<[node := moved]> (bush s), graph s) (drop l moved);
  mret (setGraph (setBush s (<[node := take l moved]> b)) g).

Definition applyBushEdgeChanges (s : Bush) : outcome Bush :=
  foldM applyGroup s (groupChanges (changes s)).

(** The first loop of [topologicalSort] fills the scratch pairs. *)
Fixpoint fillStore (nodes : list BushNode) (order : list nat) : outcome (list (D * nat)) :=
  match order with
  | [] => Ret []
  | i :: order' =>
      v ← idx nodes i;
      rest ← fillStore nodes order';
      mret ((maxDist v, i) :: rest)
  end.

Definition topologicalSort (s : Bush) : outcome Bush :=
  let n := length (topologicalOrdering s) in
  if decide (n ≤ length (tempStore s)) then
    filled ← fillStore (sharedNodes s) (topologicalOrdering s);
    let sorted := stable_sort pairComparator filled in
    mret (setTopologicalOrdering
            (setTempStore s (sorted ++ drop n (tempStore s)))
            (sorted.*2))
  else Undefined.

Definition updateEdges (s : Bush) : outcome (bool * Bush) :=
  match changes s with
  | _ :: _ =>
      s1 ← applyBushEdgeChanges s;
      s2 ← topologicalSort s1;
      mret (true, setChanges s2 [])
  | [] => mret (false, s)
  end.

(** *** [Bush::equilibriateFlows] and [Bush::fix] *)

(** [sharedNodes[id].equilibriate(graph)] *)
Definition equilibriateAt (id : Z) (s : Bush) : Bush :=
  let '(g, b, n) := equilibriate (Z.to_nat id) (graph s) (bush s) (sharedNodes s) in
  setGraph (setBush (setSharedNodes s n) b) g.

(** The body of the scan over the destinations. *)
Definition equilibriateDest (accuracy : D) (st : bool * Bush) (i : Z * D)
    : outcome (bool * Bush) :=
  let '(thisTime, s) := st in
  v ← idx_Z (sharedNodes s) i.1;
  if dgt (getDifference v) accuracy then mret (true, equilibriateAt i.1 s)
  else mret (thisTime, s).

Definition scanDests (accuracy : D) (s : Bush) : outcome (bool * Bush) :=
  foldM (equilibriateDest accuracy) (false, s) (dests (origin s)).

(** The [while (true)] loop, at most [fuel] scans. *)
Fixpoint equilibriateLoop (fuel : nat) (accuracy : D) (flowsChanged : bool) (s : Bush)
    : outcome (bool * Bush) :=
  match fuel with
  | 0 => OutOfFuel
  | S fuel' =>
      '(thisTime, s1) ← scanDests accuracy s;
      let flowsChanged := flowsChanged || thisTime in
      if negb thisTime then mret (flowsChanged, s1)
      else s2 ← buildTrees s1; equilibriateLoop fuel' accuracy flowsChanged s2
  end.

Definition equilibriateFlows (fuel : nat) (accuracy : D) (s : Bush) : outcome (bool * Bush) :=
  s1 ← buildTrees s;
  equilibriateLoop fuel accuracy false s1.

(** The [do ... while (updateEdges())] loop, at most [fuel] rounds, each
    equilibration with at most [fuel] scans. *)
Fixpoint fixLoop (fuel : nat) (accuracy : D) (localFlowChanged : bool) (s : Bush)
    : outcome (bool * Bush) :=
  match fuel with
  | 0 => OutOfFuel
  | S fuel' =>
      '(changed, s1) ← equilibriateFlows fuel' accuracy s;
      let localFlowChanged := changed || localFlowChanged in
      '(again, s2) ← updateEdges s1;
      if (again : bool) then fixLoop fuel' accuracy localFlowChanged s2
      else mret (localFlowChanged, s2)
  end.

Definition fix_ (fuel : nat) (accuracy : D) (s : Bush) : outcome (bool * Bush) :=
  fixLoop fuel accuracy false s.

(** *** The queries *)

(** The loops of [giveCount] in one pass: [dist1] is the max distance of the
    node [i] points to, every following node with that distance adds one to
    [count], the first one with another distance becomes the new [i]. *)
Fixpoint countRun (nodes : list BushNode) (dist1 : D) (count : Z) (order : list nat)
    : outcome Z :=
  match order with
  | [] => Ret count
  | j :: order' =>
      v ← at_ nodes j;
      if deq dist1 (maxDist v) then countRun nodes dist1 (unsigned_ (count + 1)) order'
      else countRun nodes (maxDist v) count order'
  end.

Definition giveCount (s : Bush) : outcome (Z * Bush) :=
  s1 ← buildTrees s;
  match topologicalOrdering s1 with
  | [] => mret (toInt 0, s1)
  | i :: order' =>
      v ← at_ (sharedNodes s1) i;
      count ← countRun (sharedNodes s1) (maxDist v) 0 order';
      mret (toInt count, s1)
  end.

(** The walk from a destination back to the root along the min predecessors,
    at most [fuel] edges. *)
Fixpoint walkCost (fuel : nat) (s : Bush) (root : nat) (demand : D) (node : nat) (cost : D)
    : outcome D :=
  if decide (node = root) then Ret cost
  else match fuel with
  | 0 => OutOfFuel
  | S fuel' =>
      v ← idx (sharedNodes s) node;
      be ← deref (bush s) (minPredecessor v);
      len ← length_ (graph s) be;
      walkCost fuel' s root demand (fromNode be) (dadd cost (dmul demand len))
  end.

Definition costOfDest (fuel : nat) (s : Bush) (root : nat) (cost : D) (i : Z * D) : outcome D :=
  _ ← at_Z (sharedNodes s) i.1;
  walkCost fuel s root i.2 (Z.to_nat i.1) cost.

Definition allOrNothingCost (fuel : nat) (s : Bush) : outcome (D * Bush) :=
  s1 ← buildTrees s;
  let root := getOrigin (origin s1) in
  _ ← at_ (sharedNodes s1) root;
  cost ← foldM (costOfDest fuel s1 root) d0 (dests (origin s1));
  mret (cost, s1).

Definition maxDifference (s : Bush) : outcome (D * Bush) :=
  s1 ← buildTrees s;
  ret ← foldM (fun ret (i : Z * D) =>
                 v ← idx_Z (sharedNodes s1) i.1;
                 mret (dmax ret (getDifference v)))
              d0 (dests (origin s1));
  mret (ret, s1).

(** *** Construction: [Bush::setUpGraph], [Bush::sendInitialFlows], [Bush::Bush] *)

(** The test of one destination; [out] is what has been written to
    [std::cout]: the origin and the destination of every diagnostic. *)
Definition reportUnreachable (o : nat) (distanceMap : list Z) (out : list (nat * Z))
    (i : Z * D) : outcome (list (nat * Z)) :=
  position ← at_Z distanceMap i.1;
  mret (if (position =? NOPOS)%Z then out ++ [(o, i.1)] else out).

(** The body of the loop over the arcs; [k] is the index of the arc. *)
Definition addArc (distanceMap : list Z) (b : list EdgeVector) (ka : nat * GraphEdge)
    : outcome (list EdgeVector) :=
  let '(k, a) := ka in
  let toId := arcTo a in
  toPosition ← at_ distanceMap toId;
  let fromId := arcFrom a in
  fromPosition ← at_ distanceMap fromId;
  if (toPosition =? NOPOS)%Z || (fromPosition =? NOPOS)%Z then mret b
  else if (fromPosition <? toPosition)%Z then
    inEdges ← at_ b toId;
    mret (<[toId := inEdges ++ [newBushEdge k a]]> b)
  else mret b.

Definition setUpGraph (s : Bush) : outcome (Bush * list (nat * Z)) :=
  let g := graph s in
  let o := getOrigin (origin s) in
  let '(distanceMap, order) :=
    dijkstra g o (replicate (numVertices g) NOPOS) (topologicalOrdering s) in
  out ← foldM (reportUnreachable o distanceMap) [] (dests (origin s));
  b ← foldM (addArc distanceMap) (bush s) (imap pair (arcs g));
  mret (setBush (setTopologicalOrdering s order) b, out).

(** Modelled from the spec: [ForwardGraphEdge::addFlow] and
    [BackwardGraphEdge::setDistance] are missing from the sources: "per-arc
    flow accumulation", "per-arc cached-length mutation". *)
Definition loadArc (demand : D) (fge : GraphEdge) : GraphEdge :=
  let f := dadd (arcFlow fge) demand in
  {| arcFrom := arcFrom fge; arcTo := arcTo fge; arcFlow := f;
     distance := costFunction fge f; costFunction := costFunction fge |}.

(** "Flow back to the bush's root", at most [fuel] edges. *)
Fixpoint walkFlow (fuel : nat) (s : Bush) (root : nat) (demand : D) (node : nat)
    : outcome Bush :=
  if decide (node = root) then Ret s
  else match fuel with
  | 0 => OutOfFuel
  | S fuel' =>
      v ← idx (sharedNodes s) node;
      match minPredecessor v with
      | None => Undefined
      | Some (n, k) =>
          inEdges ← idx (bush s) n;
          be ← idx inEdges k;
          fge ← idx (arcs (graph s)) (underlyingEdge be);
          let b := <[n := <[k := addFlow demand be]> inEdges]> (bush s) in
          let g := setArcs (graph s)
                     (<[underlyingEdge be := loadArc demand fge]> (arcs (graph s))) in
          walkFlow fuel' (setGraph (setBush s b) g) root demand (fromNode be)
      end
  end.

Definition sendToDest (fuel : nat) (root : nat) (s : Bush) (i : Z * D) : outcome Bush :=
  _ ← at_Z (sharedNodes s) i.1;
  walkFlow fuel s root i.2 (Z.to_nat i.1).

Definition sendInitialFlows (fuel : nat) (s : Bush) : outcome Bush :=
  let root := getOrigin (origin s) in
  _ ← at_ (sharedNodes s) root;
  foldM (sendToDest fuel root) s (dests (origin s)).

(** The constructor: its member initialisers, then its body.  [nodes] is
    [g.nodes()], the node array shared with the graph.  It returns the bush
    and what it wrote to [std::cout]. *)
Definition initialBush (o : Origin) (g : ABGraph) (nodes : list BushNode)
    (store : list (D * nat)) : Bush :=
  {| origin := o; bush := replicate (numVertices g) [];
     sharedNodes := nodes; tempStore := store;
     topologicalOrdering := []; changes := []; graph := g |}.

Definition newBush (fuel : nat) (o : Origin) (g : ABGraph) (nodes : list BushNode)
    (store : list (D * nat)) : outcome (Bush * list (nat * Z)) :=
  '(s1, out) ← setUpGraph (initialBush o g nodes store);
  s2 ← buildTrees s1;
  s3 ← sendInitialFlows fuel s2;
  mret (setChanges s3 [], out).

End Model.

(** ** The vocabulary of the properties *)

Section Notions.
Context {D : Type} {ops : DoubleOps D} {ext : Collaborators D}.
Implicit Types (s : Bush D) (accuracy : D) (b : list (EdgeVector D)).

(** [s'] differs from [s] in the node labels and the pending changes only. *)
Definition sameButTrees (s s' : Bush D) : Prop :=
  s' = setChanges (setSharedNodes s (sharedNodes s')) (changes s').

(** One scan of the destination list, in the words of the specification: the
    per-node step is invoked on a destination exactly when its gap exceeds
    the accuracy.  [shifted] lists the destinations it was invoked on. *)
Inductive scan accuracy : list (Z * D) -> Bush D -> list Z -> Bush D -> Prop :=
| scan_end s : scan accuracy [] s [] s
| scan_shift i l s v shifted s' :
    (0 <= i.1)%Z ->
    sharedNodes s !! Z.to_nat i.1 = Some v ->
    dgt (getDifference v) accuracy = true ->
    scan accuracy l (equilibriateAt i.1 s) shifted s' ->
    scan accuracy (i :: l) s (i.1 :: shifted) s'
| scan_skip i l s v shifted s' :
    (0 <= i.1)%Z ->
    sharedNodes s !! Z.to_nat i.1 = Some v ->
    dgt (getDifference v) accuracy = false ->
    scan accuracy l s shifted s' ->
    scan accuracy (i :: l) s shifted s'.

(** The scans of one equilibration: every scan that shifts is followed by a
    tree build and another scan; the scan that shifts nothing is the last.
    [shifts] holds the destinations shifted by each scan but the last. *)
Inductive scans accuracy : Bush D -> list (list Z) -> Bush D -> Prop :=
| scans_last s s' :
    scan accuracy (dests (origin s)) s [] s' ->
    scans accuracy s [] s'
| scans_next s shifted s1 s2 shifts s' :
    scan accuracy (dests (origin s)) s shifted s1 ->
    shifted <> [] ->
    buildTrees s1 = Ret s2 ->
    scans accuracy s2 shifts s' ->
    scans accuracy s (shifted :: shifts) s'.

(** An equilibration pass that returns. *)
Definition equilibrates accuracy s (changed : bool) s' : Prop :=
  exists fuel, equilibriateFlows fuel accuracy s = Ret (changed, s').

(** The rounds of [fix]: one equilibration pass, then one restructuring pass;
    a restructuring pass that changed a direction is followed by another
    round, the one that changed none is the last.  [passes] holds what each
    equilibration pass returned. *)
Inductive rounds accuracy : Bush D -> list bool -> Bush D -> Prop :=
| rounds_last s changed s1 s2 :
    equilibrates accuracy s changed s1 ->
    updateEdges s1 = Ret (false, s2) ->
    rounds accuracy s [changed] s2
| rounds_next s changed s1 s2 passes s' :
    equilibrates accuracy s changed s1 ->
    updateEdges s1 = Ret (true, s2) ->
    rounds accuracy s2 passes s' ->
    rounds accuracy s (changed :: passes) s'.

(** The arc with index [k] is an in-edge of node [v] in the bush. *)
Definition arcInBush b (k v : nat) : Prop :=
  exists inEdges e, b !! v = Some inEdges /\ e ∈ inEdges /\ underlyingEdge e = k.

(** [addArc] pushes the arc. *)
Definition accepted (distanceMap : list Z) (ka : nat * GraphEdge D) : bool :=
  match distanceMap !! arcFrom ka.2, distanceMap !! arcTo ka.2 with
  | Some fromPosition, Some toPosition =>
      negb ((toPosition =? NOPOS)%Z || (fromPosition =? NOPOS)%Z)
      && (fromPosition <? toPosition)%Z
  | _, _ => false
  end.

(** [addArc] pushes the arc onto the in-edges of node [v]. *)
Definition pushedOnto (distanceMap : list Z) (v : nat) (ka : nat * GraphEdge D) : bool :=
  accepted distanceMap ka && bool_decide (arcTo ka.2 = v).

(** The max distance of node [i], for [i] within the node array. *)
Definition maxDistOf s (i : nat) : D :=
  default d0 (maxDist <$> sharedNodes s !! i).

(** Neither distance is less than the other. *)
Definition tied (a b : D) : bool := negb (dlt a b) && negb (dlt b a).

(** The number of nodes of [order] whose max distance equals that of the
    node just before them, [prev] being the max distance before the first. *)
Fixpoint tiesAfter (md : nat -> D) (prev : D) (order : list nat) : nat :=
  match order with
  | [] => 0
  | j :: order' =>
      (if deq prev (md j) then 1 else 0) + tiesAfter md (md j) order'
  end.

(** The number of nodes of [order] whose max distance equals that of the
    node just before them. *)
Definition adjacentTies (md : nat -> D) (order : list nat) : nat :=
  match order with
  | [] => 0
  | i :: order' => tiesAfter md (md i) order'
  end.

(** The number of pairs of positions of [order] whose nodes have the same max
    distance. *)
Fixpoint pairsSharing (md : nat -> D) (order : list nat) : nat :=
  match order with
  | [] => 0
  | i :: order' =>
      length (filter (fun j => deq (md i) (md j) = true) order')
      + pairsSharing md order'
  end.

(** The node id [i] is within a vector of [n] entries. *)
Definition inRange (i : Z) (n : nat) : Prop := (0 <= i < Z.of_nat n)%Z.

(** [u] stands before [v] in the ordering. *)
Definition precedes (order : list nat) (u v : nat) : Prop :=
  exists i j, i < j /\ order !! i = Some u /\ order !! j = Some v.

(** The invariant of the data model: the ordering has no duplicates and
    starts with the origin, and the source of every in-edge of a node of the
    ordering stands before the node. *)
Definition topologicallyOrdered s : Prop :=
  NoDup (topologicalOrdering s) /\
  head (topologicalOrdering s) = Some (getOrigin (origin s)) /\
  forall v inEdges e,
    v ∈ topologicalOrdering s -> bush s !! v = Some inEdges -> e ∈ inEdges ->
    precedes (topologicalOrdering s) (fromNode e) v.

(** The same, along the loop of [buildTrees]: [seen] are the nodes already
    labelled, [rest] those still to come. *)
Fixpoint consistentFrom b (seen rest : list nat) : Prop :=
  match rest with
  | [] => True
  | v :: rest' =>
      (v ∉ seen) /\
      (forall inEdges e, b !! v = Some inEdges -> e ∈ inEdges -> fromNode e ∈ seen) /\
      consistentFrom b (v :: seen) rest'
  end.

(** The reversal of the arcs under the edges [F], in their order. *)
Definition arcsReversed (F : list (BushEdge D)) (l : list (GraphEdge D))
    : list (GraphEdge D) :=
  foldl (fun l e => alter reversedArc (underlyingEdge e) l) l F.

(** The pending changes of the runs [G], one entry per flagged position. *)
Definition ungroup (G : list (nat * list nat)) : list (nat * nat) :=
  G ≫= fun '(node, ks) => pair node <$> ks.

(** The edges the pending changes [C] designate in the bush [b], each with
    the node whose in-edge it is. *)
Definition flaggedEdges b (C : list (nat * nat)) : list (nat * BushEdge D) :=
  omap (fun '(node, k) => es ← b !! node; e ← es !! k; Some (node, e)) C.

(** The flagged in-edges of [v], and the reversals of the flagged edges whose
    source is [v]. *)
Definition leaving b (C : list (nat * nat)) (v : nat) : list (BushEdge D) :=
  (filter (fun ue => ue.1 = v) (flaggedEdges b C)).*2.

Definition arriving b (C : list (nat * nat)) (v : nat) : list (BushEdge D) :=
  reversed <$> (filter (fun ue => fromNode ue.2 = v) (flaggedEdges b C)).*2.

(** The pending changes as a tree build leaves them: the runs [G] have
    different nodes; the positions of a run increase and lie within the
    in-edge vector of its node; a flagged edge does not start from its own
    target, its source is a node of the bush and its arc an arc of the
    graph, which has [n] arcs. *)
Definition wellFormedRuns b (n : nat) (G : list (nat * list nat)) : Prop :=
  NoDup G.*1 /\
  Forall (fun '(node, ks) =>
            exists es, b !! node = Some es /\
              StronglySorted lt ks /\ Forall (fun k => k < length es) ks /\
              forall k e, k ∈ ks -> es !! k = Some e ->
                fromNode e <> node /\ fromNode e < length b /\ underlyingEdge e < n) G.

(** The pending changes of [s] are as a tree build leaves them. *)
Definition pendingWellFormed s : Prop :=
  wellFormedRuns (bush s) (length (arcs (graph s))) (groupChanges (changes s)).

(** The topological ordering of [s] is valid: the source of every in-edge
    stands before its target. *)
Definition validOrdering s : Prop :=
  forall v inEdges e,
    bush s !! v = Some inEdges -> e ∈ inEdges ->
    precedes (topologicalOrdering s) (fromNode e) v.

(** What the loop of [buildTrees] appends for a node [p.1]: the positions
    [p.2], increasing, of in-edges whose sources and arcs exist. *)
Definition runOf s (p : nat * list nat) : Prop :=
  exists es, bush s !! p.1 = Some es /\
    StronglySorted lt p.2 /\ Forall (fun k => k < length es) p.2 /\
    Forall (fun e => fromNode e < length (sharedNodes s) /\
                     underlyingEdge e < length (arcs (graph s))) es.

(** The in-edges [es] start from a node of [N] and lie over an arc of [g]. *)
Definition edgesWithin (N : list (BushNode D)) (g : ABGraph D) (es : EdgeVector D) : Prop :=
  Forall (fun e => fromNode e < length N /\ underlyingEdge e < length (arcs g)) es.

(** The lookups of a tree build stay within the vectors: the origin is a
    node, and every entry of the ordering but the first is a node with an
    in-edge vector whose edges start from a node and lie over an arc. *)
Definition buildable s : Prop :=
  getOrigin (origin s) < length (sharedNodes s) /\
  Forall (fun id => id < length (sharedNodes s) /\
                    exists inEdges, bush s !! id = Some inEdges /\
                                    edgesWithin (sharedNodes s) (graph s) inEdges)
         (tail (topologicalOrdering s)).

(** The gap of the destination [i] is within the accuracy. *)
Definition withinAccuracy accuracy s (i : Z * D) : Prop :=
  exists v, (0 <= i.1)%Z /\ sharedNodes s !! Z.to_nat i.1 = Some v /\
            dgt (getDifference v) accuracy = false.

(** What a reversal keeps of a bush edge: its arc and its flow. *)
Definition arcAndFlow (e : BushEdge D) : nat * D := (underlyingEdge e, flow e).

(** The arc and the flow of every edge of the bush. *)
Definition arcsAndFlows (b : list (EdgeVector D)) : list (nat * D) :=
  arcAndFlow <$> concat b.

(** The flow and the cached length of every arc. *)
Definition flowsAndLengths (g : ABGraph D) : list (D * D) :=
  (fun a => (arcFlow a, distance a)) <$> arcs g.

(** The ends and the arc of a bush edge; the shape of a bush is what its
    in-edge vectors hold apart from the flows. *)
Definition ends (e : BushEdge D) : nat * nat * nat :=
  (fromNode e, toNode e, underlyingEdge e).

Definition shape (b : list (EdgeVector D)) : list (list (nat * nat * nat)) :=
  (fun es : EdgeVector D => ends <$> es) <$> b.

(** The ends and the cost function of an arc; the layout of a network is
    what it holds apart from the flows and the cached lengths. *)
Definition layout (g : ABGraph D) : nat * list (nat * nat * (D -> D)) :=
  (numVertices g, (fun a => (arcFrom a, arcTo a, costFunction a)) <$> arcs g).

(** [s'] differs from [s] in the flows of its bush edges and in the flows and
    the cached lengths of its arcs only, and the cached length of every arc
    that is not as it was is the cost of the arc at its flow. *)
Definition sameButFlows (s s' : Bush D) : Prop :=
  s' = setGraph (setBush s (bush s')) (graph s') /\
  shape (bush s') = shape (bush s) /\
  layout (graph s') = layout (graph s) /\
  forall k a', arcs (graph s') !! k = Some a' ->
    arcs (graph s) !! k = Some a' \/ distance a' = costFunction a' (arcFlow a').

(** The destinations whose position in the distance map is [-1]. *)
Definition unreached (distanceMap : list Z) (l : list (Z * D)) : list (Z * D) :=
  filter (fun i => distanceMap !! Z.to_nat i.1 = Some NOPOS) l.

(** The distance map gives every node it has reached its position in the
    ordering. *)
Definition positionsOf (distanceMap : list Z) (order : list nat) : Prop :=
  forall v p, distanceMap !! v = Some p -> p <> NOPOS ->
              (0 <= p)%Z /\ order !! Z.to_nat p = Some v.

(** The in-edges [setUpGraph] gives node [v]: the ends and the index of the
    arcs into [v] that it accepts, in the order of the arc vector. *)
Definition forwardArcs (distanceMap : list Z) (g : ABGraph D) (v : nat)
    : list (nat * nat * nat) :=
  (fun ka : nat * GraphEdge D => (arcFrom ka.2, arcTo ka.2, ka.1))
  <$> filter (fun ka => pushedOnto distanceMap v ka = true) (imap pair (arcs g)).

(** The min distance of node [i], for [i] within the node array. *)
Definition minDistOf s (i : nat) : D :=
  default d0 (minDist <$> sharedNodes s !! i).

(** Every destination is a node of the ordering. *)
Definition destsOrdered s : Prop :=
  Forall (fun i : Z * D => Z.to_nat i.1 ∈ topologicalOrdering s) (dests (origin s)).

(** No two edges of the bush lie over the same arc. *)
Definition arcsOnce (b : list (EdgeVector D)) : Prop :=
  NoDup (underlyingEdge <$> concat b).

(** Every edge of the bush carries the flow of its arc. *)
Definition inSync s : Prop :=
  forall v inEdges e,
    bush s !! v = Some inEdges -> e ∈ inEdges ->
    exists a, arcs (graph s) !! underlyingEdge e = Some a /\ arcFlow a = flow e.

(** The in-edges of node [v] whose source has a max distance that is not
    below that of [v], each as [v] with its position, in the order of the
    in-edge vector. *)
Definition flaggedIn s (v : nat) : list (nat * nat) :=
  match bush s !! v with
  | Some inEdges =>
      (fun ke : nat * BushEdge D => (v, ke.1))
      <$> filter (fun ke : nat * BushEdge D =>
                    dlt (maxDistOf s (fromNode ke.2)) (maxDistOf s v) = false)
                 (imap pair inEdges)
  | None => []
  end.

(** Those of all nodes of the ordering but the first, in its order. *)
Definition inconsistentEdges s : list (nat * nat) :=
  tail (topologicalOrdering s) ≫= flaggedIn s.

(** The length cached on the arc under the bush edge [e]. *)
Definition lengthOf s (e : BushEdge D) : D :=
  default d0 (distance <$> arcs (graph s) !! underlyingEdge e).

(** [path] leads from [node] back to [root] along the min predecessors:
    every edge of it is the one the min predecessor of the node reached so
    far points to, its length added to the min distance of its source gives
    the min distance of that node, and the walk goes on from its source. *)
Fixpoint minPath s (root node : nat) (path : list (BushEdge D)) : Prop :=
  match path with
  | [] => node = root
  | e :: path' =>
      node <> root /\
      (exists v, sharedNodes s !! node = Some v /\
                 deref (bush s) (minPredecessor v) = Ret e) /\
      minDistOf s node = dadd (minDistOf s (fromNode e)) (lengthOf s e) /\
      minPath s root (fromNode e) path'
  end.

(** The demand of every destination times the length of every edge of its
    path, added up from [0.0] destination by destination, edge by edge. *)
Definition costOfPaths s (dests : list (Z * D)) (paths : list (list (BushEdge D))) : D :=
  foldl dadd d0
        (concat (zip_with (fun (i : Z * D) path =>
                             (fun e => dmul i.2 (lengthOf s e)) <$> path)
                          dests paths)).

(** The demands that the walks along [paths] load on the arc [a]: that of
    every destination, once for every edge of its path that lies over [a],
    destination by destination. *)
Definition demandsOver (a : nat) (dests : list (Z * D))
    (paths : list (list (BushEdge D))) : list D :=
  concat (zip_with (fun (i : Z * D) path =>
                      (fun _ => i.2) <$> filter (fun e => underlyingEdge e = a) path)
                   dests paths).

(** The arcs after a walk over [path] with [demand]. *)
Definition loadArcs (demand : D) (path : list (BushEdge D)) (l : list (GraphEdge D))
    : list (GraphEdge D) :=
  foldl (fun l e => alter (loadArc demand) (underlyingEdge e) l) l path.

End Notions.

(** ** Concrete networks

    Lengths, flows and demands are integers here. *)

#[global] Instance Z_ops : DoubleOps Z :=
  {| d0 := 0%Z; dadd := Z.add; dsub := Z.sub; dmul := Z.mul;
     dlt := Z.ltb; deq := Z.eqb |}.

(** An arc whose cost does not depend on the flow. *)
Definition arc (from to : nat) (len : Z) : GraphEdge Z :=
  {| arcFrom := from; arcTo := to; arcFlow := 0%Z; distance := len;
     costFunction := fun _ => len |}.

Definition freshNode : BushNode Z :=
  {| minDist := 0%Z; maxDist := 0%Z; minPredecessor := None |}.

(** A per-node step that gives every arc of the network the length 1. *)
Definition levelArcs (id : nat) (g : ABGraph Z) (b : list (EdgeVector Z))
    (n : list (BushNode Z)) : ABGraph Z * list (EdgeVector Z) * list (BushNode Z) :=
  ({| numVertices := numVertices g;
      arcs := (fun a => {| arcFrom := arcFrom a; arcTo := arcTo a;
                           arcFlow := arcFlow a; distance := 1%Z;
                           costFunction := costFunction a |}) <$> arcs g |}, b, n).

(** The collaborators of a network whose shortest-path search answers
    [positions] and [order]. *)
Definition oracle (positions : list Z) (order : list nat) : Collaborators Z :=
  {| dijkstra := fun _ _ _ _ => (positions, order);
     equilibriate := levelArcs;
     invalidMin := (10 ^ 9)%Z;
     invalidMax := 0%Z |}.

(** The diamond 0→1→3, 0→2→3, the second path the longer one. *)
Definition diamondGraph : ABGraph Z :=
  {| numVertices := 4; arcs := [arc 0 1 1; arc 1 3 1; arc 0 2 5; arc 2 3 5] |}.
Definition diamondOrigin : Origin Z := {| getOrigin := 0; dests := [(3%Z, 10%Z)] |}.
Definition diamondExt : Collaborators Z := oracle [0; 1; 2; 3]%Z [0; 1; 2; 3].

Definition diamondBush : outcome (Bush Z * list (nat * Z)) :=
  @newBush Z Z_ops diamondExt 4 diamondOrigin diamondGraph
           (replicate 4 freshNode) (replicate 4 (0%Z, 0)).

(** The diamond bush after construction, evaluated. *)
Definition diamondState : Bush Z :=
  Eval vm_compute in
    match diamondBush with
    | Ret (s, _) => s
    | _ => {| origin := diamondOrigin; bush := []; sharedNodes := [];
              tempStore := []; topologicalOrdering := []; changes := [];
              graph := diamondGraph |}
    end.

(** A star: the arcs 0→1, 0→2, 0→3, all of length 5. *)
Definition starGraph : ABGraph Z :=
  {| numVertices := 4; arcs := [arc 0 1 5; arc 0 2 5; arc 0 3 5] |}.
Definition starOrigin : Origin Z := {| getOrigin := 0; dests := [(1%Z, 1%Z)] |}.
Definition starExt : Collaborators Z := oracle [0; 1; 2; 3]%Z [0; 1; 2; 3].
Definition starState : Bush Z :=
  Eval vm_compute in
    match @newBush Z Z_ops starExt 4 starOrigin starGraph
                   (replicate 4 freshNode) (replicate 4 (0%Z, 0)) with
    | Ret (s, _) => s
    | _ => initialBush starOrigin starGraph [] []
    end.

(** The scenario of the specification: origin 0, the destination 5 with
    demand 4, node 5 out of reach of the origin; the nodes 0 and 1 and the
    arc 0→1 are all the origin reaches. *)
Definition strandedGraph : ABGraph Z :=
  {| numVertices := 6; arcs := [arc 0 1 1; arc 5 4 1] |}.
Definition strandedOrigin : Origin Z := {| getOrigin := 0; dests := [(5%Z, 4%Z)] |}.
Definition strandedExt : Collaborators Z :=
  oracle [0; 1; NOPOS; NOPOS; NOPOS; NOPOS]%Z [0; 1].

(** The diamond bush with a destination list that names node 7. *)
Definition strayDestState : Bush Z :=
  {| origin := {| getOrigin := 0; dests := [(7%Z, 10%Z)] |};
     bush := bush diamondState; sharedNodes := sharedNodes diamondState;
     tempStore := tempStore diamondState;
     topologicalOrdering := topologicalOrdering diamondState;
     changes := []; graph := diamondGraph |}.

(** The diamond bush with its ordering shuffled. *)
Definition shuffledState : Bush Z := setTopologicalOrdering diamondState [0; 3; 2; 1].

(** Two nodes joined by the arc 0→1 of length zero. *)
Definition zeroArcGraph : ABGraph Z := {| numVertices := 2; arcs := [arc 0 1 0] |}.
Definition zeroArcOrigin : Origin Z := {| getOrigin := 0; dests := [(1%Z, 1%Z)] |}.
Definition zeroArcExt : Collaborators Z := oracle [0; 1]%Z [0; 1].
Definition zeroArcState : Bush Z :=
  Eval vm_compute in
    match @newBush Z Z_ops zeroArcExt 2 zeroArcOrigin zeroArcGraph
                   (replicate 2 freshNode) (replicate 2 (0%Z, 0)) with
    | Ret (s, _) => s
    | _ => initialBush zeroArcOrigin zeroArcGraph [] []
    end.

(** The zero-length arc after a tree build. *)
Definition zeroArcPending : Bush Z :=
  Eval vm_compute in
    match @buildTrees Z Z_ops zeroArcExt zeroArcState with
    | Ret s => s
    | _ => zeroArcState
    end.

(** A detour: the arcs 0→1 of length 5, 0→2 of length 3 and 1→2 of length -2,
    after construction and after a tree build, which leaves the max distances
    0, 5 and 3 and flags the in-edge 1→2 of node 2. *)
Definition detourGraph : ABGraph Z :=
  {| numVertices := 3; arcs := [arc 0 1 5; arc 0 2 3; arc 1 2 (-2)] |}.
Definition detourOrigin : Origin Z := {| getOrigin := 0; dests := [(2%Z, 1%Z)] |}.
Definition detourExt : Collaborators Z := oracle [0; 1; 2]%Z [0; 1; 2].
Definition detourPending : Bush Z :=
  Eval vm_compute in
    match @newBush Z Z_ops detourExt 3 detourOrigin detourGraph
                   (replicate 3 freshNode) (replicate 3 (0%Z, 0)) with
    | Ret (s, _) =>
        match @buildTrees Z Z_ops detourExt s with
        | Ret s' => s'
        | _ => s
        end
    | _ => initialBush detourOrigin detourGraph [] []
    end.

(** * Properties *)

(** ** The outcome monad *)

Lemma bind_Ret {A B} (m : outcome A) (f : A -> outcome B) (b : B) :
  m ≫= f = Ret b <-> exists a, m = Ret a /\ f a = Ret b.
Proof.
  destruct m; simpl; split.
  - eauto.
  - by intros (? & [= ->] & ?).
  - done.
  - by intros (? & ? & ?).
  - done.
  - by intros (? & ? & ?).
  - done.
  - by intros (? & ? & ?).
Qed.

Lemma idx_Ret {A} (v : list A) i x : idx v i = Ret x <-> v !! i = Some x.
Proof. unfold idx. destruct (v !! i); split; congruence. Qed.

Lemma at_Ret {A} (v : list A) i x : at_ v i = Ret x <-> v !! i = Some x.
Proof. unfold at_. destruct (v !! i); split; congruence. Qed.

(** Splits a hypothesis [m ≫= f = Ret b] into its two steps, repeatedly. *)
Ltac inv_ret :=
  repeat match goal with
  | H : _ ≫= _ = Ret _ |- _ =>
      apply bind_Ret in H; destruct H as (? & ? & H)
  | H : mret _ = Ret _ |- _ => injection H as H
  | H : Ret _ = Ret _ |- _ => injection H as H
  | H : idx _ _ = Ret _ |- _ => apply idx_Ret in H
  | H : at_ _ _ = Ret _ |- _ => apply at_Ret in H
  end.

Lemma foldM_invariant {A B} (P : A -> Prop) (f : A -> B -> outcome A) :
  (forall a b a', P a -> f a b = Ret a' -> P a') ->
  forall l a a', P a -> foldM f a l = Ret a' -> P a'.
Proof.
  intros Hf l. induction l as [|b l IH]; simpl; intros a a' Ha Hrun.
  - by injection Hrun as <-.
  - inv_ret. eauto.
Qed.

Lemma foldM_app {A B} (f : A -> B -> outcome A) l1 l2 a :
  foldM f a (l1 ++ l2) = a' ← foldM f a l1; foldM f a' l2.
Proof.
  revert a. induction l1 as [|b l1 IH]; simpl; intros a; [done|].
  destruct (f a b); simpl; auto.
Qed.

(** ** What a tree build touches *)

Section Frame.
Context {D : Type} {ops : DoubleOps D} {ext : Collaborators D}.
Implicit Types (s : Bush D).

Lemma sameButTrees_refl s : sameButTrees s s.
Proof. by destruct s. Qed.

Lemma sameButTrees_trans s1 s2 s3 :
  sameButTrees s1 s2 -> sameButTrees s2 s3 -> sameButTrees s1 s3.
Proof.
  unfold sameButTrees. intros H12 H23. rewrite H23 at 1. rewrite H12 at 1.
  by destruct s1.
Qed.

Lemma sameButTrees_fields s s' :
  sameButTrees s s' ->
  origin s' = origin s /\ bush s' = bush s /\ graph s' = graph s /\
  tempStore s' = tempStore s /\ topologicalOrdering s' = topologicalOrdering s.
Proof. intros ->. by destruct s. Qed.

Lemma buildNode_frame s id s' : buildNode s id = Ret s' -> sameButTrees s s'.
Proof. unfold buildNode. intros Hrun. inv_ret. subst s'. by destruct s. Qed.

Lemma buildTrees_frame s s' : buildTrees s = Ret s' -> sameButTrees s s'.
Proof.
  unfold buildTrees. intros Hrun. inv_ret.
  eapply (foldM_invariant (sameButTrees s)); [| |exact Hrun].
  - intros a b a' Ha Hb. eapply sameButTrees_trans; [exact Ha|].
    by eapply buildNode_frame.
  - by destruct s.
Qed.

(** C10. [maxDifference] and [allOrNothingCost] leave the bush as the tree
    build they start with leaves it, and that build writes the node labels
    (distances, min predecessors) and the pending changes only: the in-edge
    vectors with the flows of the bush edges, and the graph with the flows
    and the cached lengths of its arcs, are the ones before the call. *)
Theorem queries_keep_flows_and_lengths (fuel : nat) (s : Bush D) :
  (forall ret s', maxDifference s = Ret (ret, s') ->
     buildTrees s = Ret s' /\ sameButTrees s s' /\
     bush s' = bush s /\ graph s' = graph s) /\
  (forall cost s', allOrNothingCost fuel s = Ret (cost, s') ->
     buildTrees s = Ret s' /\ sameButTrees s s' /\
     bush s' = bush s /\ graph s' = graph s).
Proof.
  split.
  - unfold maxDifference. intros ret s' Hrun. inv_ret. simplify_eq.
    match goal with Hb : buildTrees _ = Ret _ |- _ =>
      pose proof (buildTrees_frame _ _ Hb) as Hfr end.
    destruct (sameButTrees_fields _ _ Hfr) as (_ & ? & ? & _). done.
  - unfold allOrNothingCost. intros cost s' Hrun. inv_ret. simplify_eq.
    match goal with Hb : buildTrees _ = Ret _ |- _ =>
      pose proof (buildTrees_frame _ _ Hb) as Hfr end.
    destruct (sameButTrees_fields _ _ Hfr) as (_ & ? & ? & _). done.
Qed.

End Frame.

Lemma queries_keep_flows_and_lengths_diamond :
  exists ret cost s',
    @maxDifference Z Z_ops diamondExt diamondState = Ret (ret, s') /\
    @allOrNothingCost Z Z_ops diamondExt 4 diamondState = Ret (cost, s') /\
    bush s' = bush diamondState /\ graph s' = graph diamondState.
Proof.
  eexists _, _, _.
  split; [vm_compute; reflexivity|].
  split; [vm_compute; reflexivity|].
  eapply (proj1 (@queries_keep_flows_and_lengths Z Z_ops diamondExt 4 diamondState)).
  vm_compute; reflexivity.
Defined.

(** ** [equilibriateFlows] and [fix] as sequences of passes *)

Section Passes.
Context {D : Type} {ops : DoubleOps D} {ext : Collaborators D}.
Implicit Types (s : Bush D) (accuracy : D).

Lemma idx_Z_Ret {A} (v : list A) (i : Z) x :
  idx_Z v i = Ret x <-> (0 <= i)%Z /\ v !! Z.to_nat i = Some x.
Proof.
  unfold idx_Z. destruct (i <? 0)%Z eqn:Hneg.
  - apply Z.ltb_lt in Hneg. split; [done|]. intros [? _]. lia.
  - apply Z.ltb_ge in Hneg. rewrite idx_Ret. tauto.
Qed.

Lemma scanDests_scan accuracy l s thisTime r s' :
  foldM (equilibriateDest accuracy) (thisTime, s) l = Ret (r, s') <->
  exists shifted, scan accuracy l s shifted s' /\
                  r = thisTime || negb (bool_decide (shifted = [])).
Proof.
  revert s thisTime. induction l as [|i l IH]; intros s thisTime; simpl.
  - split.
    + intros [= <- <-]. exists []. split; [constructor|]. by rewrite orb_false_r.
    + intros (shifted & Hscan & ->). inversion Hscan; subst. by rewrite orb_false_r.
  - rewrite bind_Ret. split.
    + intros ([t s1] & Hbody & Hrest). unfold equilibriateDest in Hbody.
      apply bind_Ret in Hbody as (v & Hv & Hbody). apply idx_Z_Ret in Hv as [Hpos Hv].
      apply IH in Hrest as (shifted & Hscan & ->).
      destruct (dgt (getDifference v) accuracy) eqn:Hgap; injection Hbody as <- <-.
      * exists (i.1 :: shifted). split; [by eapply scan_shift|].
        simpl. by rewrite orb_true_r.
      * exists shifted. split; [by eapply scan_skip|done].
    + intros (shifted & Hscan & ->).
      inversion Hscan as [|? ? ? v sh ? Hpos Hv Hgap Hrest
                          |? ? ? v sh ? Hpos Hv Hgap Hrest]; subst.
      * exists (true, equilibriateAt i.1 s). split.
        -- unfold equilibriateDest. apply bind_Ret. exists v. split.
           ++ by apply idx_Z_Ret.
           ++ by rewrite Hgap.
        -- apply IH. eexists. split; [done|]. simpl. by rewrite orb_true_r.
      * exists (thisTime, s). split.
        -- unfold equilibriateDest. apply bind_Ret. exists v. split.
           ++ by apply idx_Z_Ret.
           ++ by rewrite Hgap.
        -- apply IH. eauto.
Qed.

Lemma equilibriateLoop_scans fuel accuracy flowsChanged s r s' :
  equilibriateLoop fuel accuracy flowsChanged s = Ret (r, s') ->
  exists shifts, scans accuracy s shifts s' /\
                 r = flowsChanged || negb (bool_decide (shifts = [])).
Proof.
  revert flowsChanged s. induction fuel as [|fuel IH]; intros flowsChanged s; [done|].
  simpl. intros Hrun. apply bind_Ret in Hrun as ([thisTime s1] & Hscan & Hrun).
  apply scanDests_scan in Hscan as (shifted & Hscan & ->). simpl in Hrun.
  destruct shifted as [|d shifted]; simpl in Hrun.
  - injection Hrun as <- <-. exists []. split; [by constructor|done].
  - apply bind_Ret in Hrun as (s2 & Hbuild & Hrun).
    apply IH in Hrun as (shifts & Hscans & ->).
    exists ((d :: shifted) :: shifts). split; [by econstructor|].
    simpl. by rewrite !orb_true_r.
Qed.

Lemma equilibriateLoop_S fuel accuracy flowsChanged s :
  equilibriateLoop (S fuel) accuracy flowsChanged s =
  '(thisTime, s1) ← scanDests accuracy s;
  if negb thisTime then mret (flowsChanged || thisTime, s1)
  else s2 ← buildTrees s1; equilibriateLoop fuel accuracy (flowsChanged || thisTime) s2.
Proof. done. Qed.

Lemma scans_equilibriateLoop accuracy s shifts s' :
  scans accuracy s shifts s' ->
  forall flowsChanged,
    equilibriateLoop (S (length shifts)) accuracy flowsChanged s
    = Ret (flowsChanged || negb (bool_decide (shifts = [])), s').
Proof.
  induction 1 as [s s' Hscan|s shifted s1 s2 shifts s' Hscan Hne Hbuild _ IH];
    intros flowsChanged.
  - simpl. unfold scanDests.
    assert (foldM (equilibriateDest accuracy) (false, s) (dests (origin s))
            = Ret (false, s')) as ->.
    { apply scanDests_scan. by exists []. }
    done.
  - change (length (shifted :: shifts)) with (S (length shifts)).
    rewrite equilibriateLoop_S. unfold scanDests.
    assert (foldM (equilibriateDest accuracy) (false, s) (dests (origin s))
            = Ret (true, s1)) as ->.
    { apply scanDests_scan. exists shifted. split; [done|].
      by rewrite bool_decide_eq_false_2. }
    cbn [mbind outcome_bind negb]. rewrite Hbuild. cbn [mbind outcome_bind].
    rewrite IH. simpl. by rewrite !orb_true_r.
Qed.

Lemma equilibriateLoop_mono fuel fuel' accuracy flowsChanged s x :
  fuel <= fuel' ->
  equilibriateLoop fuel accuracy flowsChanged s = Ret x ->
  equilibriateLoop fuel' accuracy flowsChanged s = Ret x.
Proof.
  revert fuel' flowsChanged s.
  induction fuel as [|fuel IH]; intros fuel' flowsChanged s Hle; [done|].
  destruct fuel' as [|fuel']; [lia|]. simpl.
  destruct (scanDests accuracy s) as [[thisTime s1]| | |]; simpl; try done.
  destruct thisTime; simpl; [|done].
  destruct (buildTrees s1); simpl; try done. apply IH. lia.
Qed.

Lemma equilibriateFlows_mono fuel fuel' accuracy s x :
  fuel <= fuel' ->
  equilibriateFlows fuel accuracy s = Ret x ->
  equilibriateFlows fuel' accuracy s = Ret x.
Proof.
  unfold equilibriateFlows. intros Hle.
  destruct (buildTrees s); simpl; try done. by apply equilibriateLoop_mono.
Qed.

(** C2. [equilibriateFlows] returns [r] in the final state [s'] exactly when:
    it first builds the trees; then it scans the destinations, invoking the
    per-node step on those whose gap exceeds the accuracy and no others;
    every scan that shifted is followed by a tree build and a further scan;
    the scan that shifts nothing ends the call; and [r] is true exactly when
    some scan shifted. *)
Theorem equilibriateFlows_scans accuracy s r s' :
  (exists fuel, equilibriateFlows fuel accuracy s = Ret (r, s')) <->
  (exists s0 shifts,
      buildTrees s = Ret s0 /\ scans accuracy s0 shifts s' /\
      (r = true <-> shifts <> [])).
Proof.
  split.
  - intros (fuel & Hrun). unfold equilibriateFlows in Hrun.
    apply bind_Ret in Hrun as (s0 & Hbuild & Hrun).
    apply equilibriateLoop_scans in Hrun as (shifts & Hscans & ->).
    exists s0, shifts. split_and!; [done..|].
    simpl. case_bool_decide; split; done.
  - intros (s0 & shifts & Hbuild & Hscans & Hr).
    exists (S (length shifts)). unfold equilibriateFlows. rewrite Hbuild.
    cbn [mbind outcome_bind]. rewrite (scans_equilibriateLoop _ _ _ _ Hscans).
    do 2 f_equal. simpl. destruct Hr as [Hr1 Hr2].
    case_bool_decide as Hs; destruct r; simpl; try done.
    + by destruct (Hr1 eq_refl).
    + by specialize (Hr2 Hs).
Qed.

Lemma fixLoop_mono fuel fuel' accuracy localFlowChanged s x :
  fuel <= fuel' ->
  fixLoop fuel accuracy localFlowChanged s = Ret x ->
  fixLoop fuel' accuracy localFlowChanged s = Ret x.
Proof.
  revert fuel' localFlowChanged s.
  induction fuel as [|fuel IH]; intros fuel' localFlowChanged s Hle; [done|].
  destruct fuel' as [|fuel']; [lia|]. simpl. intros Hrun.
  apply bind_Ret in Hrun as ([changed s1] & Heq & Hrun).
  rewrite (equilibriateFlows_mono fuel fuel' _ _ (changed, s1)); [|lia|done].
  simpl in *. destruct (updateEdges s1) as [[again s2]| | |]; simpl in *; try done.
  destruct again; [|done]. apply IH; [lia|done].
Qed.

Lemma true_in_cons (changed : bool) (passes : list bool) :
  bool_decide (true ∈ changed :: passes) = changed || bool_decide (true ∈ passes).
Proof.
  destruct changed.
  - apply bool_decide_eq_true_2. by left.
  - change (false || bool_decide (true ∈ passes)) with (bool_decide (true ∈ passes)).
    apply bool_decide_ext. rewrite elem_of_cons.
    split; [by intros [?|?]|by right].
Qed.

Lemma true_in_nil : bool_decide (true ∈ @nil bool) = false.
Proof. apply bool_decide_eq_false_2. by intros ?%elem_of_nil. Qed.

Lemma fixLoop_rounds fuel accuracy localFlowChanged s r s' :
  fixLoop fuel accuracy localFlowChanged s = Ret (r, s') ->
  exists passes, rounds accuracy s passes s' /\
                 r = localFlowChanged || bool_decide (true ∈ passes).
Proof.
  revert localFlowChanged s. induction fuel as [|fuel IH]; intros lfc s; [done|].
  simpl. intros Hrun.
  apply bind_Ret in Hrun as ([changed s1] & Heq & Hrun). simpl in Hrun.
  apply bind_Ret in Hrun as ([again s2] & Hupd & Hrun). simpl in Hrun.
  destruct again.
  - apply IH in Hrun as (passes & Hrounds & ->).
    exists (changed :: passes). split.
    + eapply rounds_next; [by exists fuel|done..].
    + rewrite true_in_cons. by destruct changed, lfc.
  - injection Hrun as <- <-. exists [changed]. split.
    + eapply rounds_last; [by exists fuel|done].
    + rewrite true_in_cons, true_in_nil. by destruct changed, lfc.
Qed.

Lemma rounds_fixLoop accuracy s passes s' :
  rounds accuracy s passes s' ->
  exists fuel, forall localFlowChanged,
    fixLoop fuel accuracy localFlowChanged s
    = Ret (localFlowChanged || bool_decide (true ∈ passes), s').
Proof.
  induction 1 as [s changed s1 s2 [n Heq] Hupd
                 |s changed s1 s2 passes s' [n Heq] Hupd _ [m IH]].
  - exists (S n). intros lfc. simpl. rewrite Heq. simpl. rewrite Hupd. simpl.
    rewrite true_in_cons, true_in_nil. by destruct changed, lfc.
  - exists (S (n `max` m)). intros lfc. simpl.
    rewrite (equilibriateFlows_mono n _ _ _ _ (Nat.le_max_l n m) Heq). simpl.
    rewrite Hupd. simpl.
    rewrite (fixLoop_mono m _ _ _ _ _ (Nat.le_max_r n m) (IH _)).
    rewrite true_in_cons. by destruct changed, lfc.
Qed.

(** C1. For every accuracy, [fix] returns [r] in the final state [s'] exactly
    when its run is a sequence of rounds, each one equilibration pass
    followed by one restructuring pass, in which every restructuring pass
    but the last changed a direction and the last changed none; and [r] is
    true exactly when at least one of the equilibration passes returned
    that flows changed. *)
Theorem fix_rounds accuracy s r s' :
  (exists fuel, fix_ fuel accuracy s = Ret (r, s')) <->
  (exists passes, rounds accuracy s passes s' /\ (r = true <-> true ∈ passes)).
Proof.
  unfold fix_. split.
  - intros (fuel & Hrun). apply fixLoop_rounds in Hrun as (passes & Hrounds & ->).
    exists passes. split; [done|]. simpl. by rewrite bool_decide_eq_true.
  - intros (passes & Hrounds & Hr).
    apply rounds_fixLoop in Hrounds as (fuel & Hrun). exists fuel.
    rewrite Hrun. do 2 f_equal. simpl. destruct Hr as [Hr1 Hr2].
    case_bool_decide as Hs; destruct r; simpl; try done.
    + by specialize (Hr2 Hs).
    + destruct Hs. by apply Hr1.
Qed.

End Passes.

Lemma equilibriateFlows_scans_diamond :
  exists s0 shifts s',
    @buildTrees Z Z_ops diamondExt diamondState = Ret s0 /\
    @scans Z Z_ops diamondExt 0%Z s0 shifts s' /\
    shifts <> [].
Proof.
  eassert (@equilibriateFlows Z Z_ops diamondExt 4 0%Z diamondState = Ret (true, _))
    as Hrun by (vm_compute; reflexivity).
  destruct (proj1 (@equilibriateFlows_scans Z Z_ops diamondExt 0%Z diamondState true _)
                  (ex_intro _ 4 Hrun))
    as (s0 & shifts & Hbuild & Hscans & Hshifts).
  exists s0, shifts. eexists. split_and!; [exact Hbuild|exact Hscans|].
  by apply Hshifts.
Defined.

Lemma fix_rounds_diamond :
  exists passes s',
    @rounds Z Z_ops diamondExt 0%Z diamondState passes s' /\ true ∈ passes.
Proof.
  eassert (@fix_ Z Z_ops diamondExt 4 0%Z diamondState = Ret (true, _))
    as Hrun by (vm_compute; reflexivity).
  destruct (proj1 (@fix_rounds Z Z_ops diamondExt 0%Z diamondState true _)
                  (ex_intro _ 4 Hrun))
    as (passes & Hrounds & Hpasses).
  exists passes. eexists. split; [exact Hrounds|]. by apply Hpasses.
Defined.

(** ** The in-edges [setUpGraph] selects *)

Section SetUp.
Context {D : Type} {ops : DoubleOps D} {ext : Collaborators D}.
Implicit Types (b : list (EdgeVector D)) (a : GraphEdge D).

Lemma addArc_Ret distanceMap b ka b' :
  addArc distanceMap b ka = Ret b' ->
  is_Some (distanceMap !! arcFrom ka.2) /\ is_Some (distanceMap !! arcTo ka.2) /\
  (accepted distanceMap ka = true -> arcTo ka.2 < length b) /\
  forall v, b' !! v =
            (fun inEdges =>
               inEdges ++ (if pushedOnto distanceMap v ka
                           then [newBushEdge ka.1 ka.2] else []))
            <$> b !! v.
Proof.
  destruct ka as [k a]. unfold addArc, pushedOnto, accepted. simpl. intros Hrun.
  apply bind_Ret in Hrun as (toPosition & Hto%at_Ret & Hrun).
  apply bind_Ret in Hrun as (fromPosition & Hfrom%at_Ret & Hrun).
  rewrite Hto, Hfrom. split_and!; [by eexists..| |].
  - destruct ((toPosition =? NOPOS)%Z || (fromPosition =? NOPOS)%Z); simpl; [done|].
    intros Hlt. rewrite Hlt in Hrun.
    apply bind_Ret in Hrun as (inEdges & Hin%at_Ret & _).
    by eapply lookup_lt_Some.
  - intros v.
    destruct ((toPosition =? NOPOS)%Z || (fromPosition =? NOPOS)%Z); simpl.
    { injection Hrun as <-. destruct (b !! v); simpl; [|done]. by rewrite app_nil_r. }
    destruct (fromPosition <? toPosition)%Z; simpl.
    + apply bind_Ret in Hrun as (inEdges & Hin%at_Ret & [= <-]).
      case_bool_decide as Hv.
      * subst v. rewrite list_lookup_insert_eq by (by eapply lookup_lt_Some).
        by rewrite Hin.
      * rewrite list_lookup_insert_ne by done.
        destruct (b !! v); simpl; [|done]. by rewrite app_nil_r.
    + injection Hrun as <-. destruct (b !! v); simpl; [|done]. by rewrite app_nil_r.
Qed.

Lemma fmap_lookup_length {A} (f : nat -> list A -> list A) (l l' : list (list A)) :
  (forall v, l' !! v = f v <$> l !! v) -> length l' = length l.
Proof.
  intros Hl. apply Nat.le_antisymm.
  - apply Nat.nlt_ge. intros Hlt.
    destruct (lookup_lt_is_Some_2 l' (length l) Hlt) as [x Hx].
    rewrite Hl, lookup_ge_None_2 in Hx by done. done.
  - apply Nat.nlt_ge. intros Hlt.
    destruct (lookup_lt_is_Some_2 l (length l') Hlt) as [x Hx].
    specialize (Hl (length l')). rewrite Hx, lookup_ge_None_2 in Hl by done. done.
Qed.

Lemma addArcs_Ret distanceMap l b b' :
  foldM (addArc distanceMap) b l = Ret b' ->
  Forall (fun ka => is_Some (distanceMap !! arcFrom ka.2) /\
                    is_Some (distanceMap !! arcTo ka.2) /\
                    (accepted distanceMap ka = true -> arcTo ka.2 < length b)) l /\
  forall v, b' !! v =
            (fun inEdges =>
               inEdges ++ ((fun ka => newBushEdge ka.1 ka.2)
                           <$> filter (fun ka => pushedOnto distanceMap v ka = true) l))
            <$> b !! v.
Proof.
  revert b. induction l as [|ka l IH]; simpl; intros b Hrun.
  - injection Hrun as <-. split; [done|]. intros v.
    destruct (b !! v); simpl; [|done]. by rewrite app_nil_r.
  - apply bind_Ret in Hrun as (b1 & Hstep & Hrun).
    apply addArc_Ret in Hstep as (Hfrom & Hto & Hlen & Hstep).
    apply IH in Hrun as (Hall & Hrun).
    rewrite (fmap_lookup_length _ _ _ Hstep) in Hall.
    split; [by constructor|]. intros v.
    rewrite Hrun, Hstep. destruct (b !! v) as [inEdges|]; simpl; [|done].
    rewrite filter_cons. destruct (pushedOnto distanceMap v ka); simpl.
    + by rewrite <- app_assoc.
    + by rewrite app_nil_r.
Qed.

(** C4. At construction, let [distanceMap] be the positions the
    shortest-path search answers.  Every arc of the network has both
    endpoints within [distanceMap], and:
    - if both are reachable (their positions are not [-1]), the arc is an
      in-edge of its "to" node exactly when the position of its "from" node
      is strictly smaller than the position of its "to" node, the bush edge
      being the one built from the arc, and it is an in-edge of no other node;
    - if one of them is unreachable, the arc is an in-edge of no node. *)
Theorem setUpGraph_in_edges (o : Origin D) (g : ABGraph D) (nodes : list (BushNode D))
    (store : list (D * nat)) (s : Bush D) (out : list (nat * Z)) :
  setUpGraph (initialBush o g nodes store) = Ret (s, out) ->
  forall k a, arcs g !! k = Some a ->
    exists fromPosition toPosition,
      (dijkstra g (getOrigin o) (replicate (numVertices g) NOPOS) []).1 !! arcFrom a
        = Some fromPosition /\
      (dijkstra g (getOrigin o) (replicate (numVertices g) NOPOS) []).1 !! arcTo a
        = Some toPosition /\
      (fromPosition <> NOPOS -> toPosition <> NOPOS ->
         (arcInBush (bush s) k (arcTo a) <-> (fromPosition < toPosition)%Z) /\
         (forall v, arcInBush (bush s) k v ->
            v = arcTo a /\ exists inEdges,
              bush s !! v = Some inEdges /\ newBushEdge k a ∈ inEdges)) /\
      (fromPosition = NOPOS \/ toPosition = NOPOS ->
         forall v, ~ arcInBush (bush s) k v).
Proof.
  unfold setUpGraph, initialBush. simpl.
  destruct (dijkstra g (getOrigin o) (replicate (numVertices g) NOPOS) [])
    as [distanceMap order]. simpl.
  intros Hrun k a Hka.
  apply bind_Ret in Hrun as (out' & _ & Hrun).
  apply bind_Ret in Hrun as (b & Hrun & [= <- <-]). simpl.
  apply addArcs_Ret in Hrun as [Hall Hb].
  assert ((k, a) ∈ imap pair (arcs g)) as Hin.
  { apply elem_of_lookup_imap. by exists k, a. }
  rewrite Forall_forall in Hall.
  destruct (Hall _ Hin) as ([fromPosition Hfrom] & [toPosition Hto] & Hlen).
  rewrite length_replicate in Hlen. simpl in *.
  (* the edges whose underlying arc is [k] are the pushed copies of [a] *)
  assert (forall v, arcInBush b k v <->
            v < numVertices g /\ pushedOnto distanceMap v (k, a) = true) as Hchar.
  { intros v. unfold arcInBush. split.
    - intros (inEdges & e & Hv & He & Hk). rewrite Hb in Hv.
      destruct (replicate (numVertices g) [] !! v) as [l0|] eqn:Hl0; [|done].
      apply lookup_replicate in Hl0 as [-> Hlt]. simpl in Hv. injection Hv as <-.
      apply list_elem_of_fmap in He as ([k' a'] & -> & Hin').
      apply list_elem_of_filter in Hin' as [Hpush Hin']. simpl in Hk. subst k'.
      apply elem_of_lookup_imap in Hin' as (k2 & a2 & [= -> ->] & Hk2).
      rewrite Hka in Hk2. by injection Hk2 as <-.
    - intros [Hlt Hpush]. eexists _, (newBushEdge k a). split_and!.
      + rewrite Hb. rewrite lookup_replicate_2 by done. simpl. done.
      + apply list_elem_of_fmap. exists (k, a). split; [done|].
        by apply list_elem_of_filter.
      + done. }
  exists fromPosition, toPosition. split_and!; [done..| |].
  - intros Hfr Htr. unfold pushedOnto, accepted in Hchar, Hlen. simpl in *.
    rewrite Hfrom, Hto in Hchar, Hlen.
    apply Z.eqb_neq in Hfr, Htr. rewrite Hfr, Htr in Hchar, Hlen. simpl in *.
    split.
    + rewrite Hchar. rewrite bool_decide_eq_true_2 by done.
      rewrite andb_true_r, Z.ltb_lt. split; [tauto|]. intros Hlt. split; [|done].
      by apply Hlen, Z.ltb_lt.
    + intros v Hv. apply Hchar in Hv as Hv'.
      destruct Hv' as (Hlt & [Hacc Hto']%andb_true_iff).
      apply bool_decide_eq_true in Hto'. split; [done|]. eexists. split.
      * rewrite Hb. rewrite lookup_replicate_2 by done. simpl. done.
      * apply list_elem_of_fmap. exists (k, a). split; [done|].
        apply list_elem_of_filter. split; [|done].
        unfold pushedOnto, accepted. simpl. rewrite Hfrom, Hto, Hfr, Htr. simpl.
        rewrite Hacc. by apply bool_decide_eq_true_2.
  - intros Hnopos v [_ Hpush]%Hchar. unfold pushedOnto, accepted in Hpush.
    simpl in Hpush. rewrite Hfrom, Hto in Hpush.
    destruct Hnopos as [->| ->]; rewrite Z.eqb_refl in Hpush; simpl in Hpush;
      [by rewrite orb_true_r in Hpush|done].
Qed.

End SetUp.

Lemma setUpGraph_in_edges_diamond :
  exists s out,
    @setUpGraph Z Z_ops diamondExt
       (initialBush diamondOrigin diamondGraph (replicate 4 freshNode)
                    (replicate 4 (0%Z, 0))) = Ret (s, out) /\
    arcInBush (bush s) 3 3.
Proof.
  eassert (@setUpGraph Z Z_ops diamondExt
             (initialBush diamondOrigin diamondGraph (replicate 4 freshNode)
                          (replicate 4 (0%Z, 0))) = Ret (_, _))
    as Hrun by (vm_compute; reflexivity).
  eexists _, _. split; [exact Hrun|].
  destruct (@setUpGraph_in_edges Z Z_ops diamondExt diamondOrigin diamondGraph
              (replicate 4 freshNode) (replicate 4 (0%Z, 0)) _ _ Hrun
              3 (arc 2 3 5) eq_refl)
    as (fromPosition & toPosition & Hfrom & Hto & Hreach & _).
  injection Hfrom as <-. injection Hto as <-.
  apply Hreach; [done..|]. reflexivity.
Defined.

(** ** [std::stable_sort] and [topologicalSort] *)

Lemma StronglySorted_lookup_lt {A} (R : A -> A -> Prop) l i j x y :
  StronglySorted R l -> i < j -> l !! i = Some x -> l !! j = Some y -> R x y.
Proof.
  intros Hsorted. revert i j. induction Hsorted as [|z l _ IH Hz]; intros i j Hij Hi Hj.
  - done.
  - destruct j as [|j]; [lia|]. simpl in Hj. destruct i as [|i]; simpl in Hi.
    + injection Hi as ->. rewrite Forall_forall in Hz.
      apply Hz. by eapply list_elem_of_lookup_2.
    + apply (IH i j); [lia|done..].
Qed.

Section StableSort.
Context {A : Type} (comp : A -> A -> bool).

Lemma insertStable_perm x l : insertStable comp x l ≡ₚ x :: l.
Proof.
  induction l as [|y l IH]; simpl; [done|].
  destruct (comp y x); [|done]. rewrite IH. apply Permutation_swap.
Qed.

Lemma stable_sort_perm l : stable_sort comp l ≡ₚ l.
Proof.
  induction l as [|x l IH]; simpl; [done|].
  fold (stable_sort comp l). by rewrite insertStable_perm, IH.
Qed.

(** Elements of a class that [comp] does not separate keep their order. *)
Lemma insertStable_filter (P : A -> bool) x l :
  (forall a b, P a = true -> P b = true -> comp a b = false) ->
  filter (fun a => P a = true) (insertStable comp x l)
  = filter (fun a => P a = true) (x :: l).
Proof.
  intros Hclass. induction l as [|y l IH]; simpl; [done|].
  destruct (comp y x) eqn:Hyx; [|done].
  rewrite (filter_cons _ y), IH, !filter_cons.
  destruct (decide (P y = true)) as [Hy|Hy], (decide (P x = true)) as [Hx|Hx];
    try done.
  by rewrite (Hclass y x Hy Hx) in Hyx.
Qed.

Lemma stable_sort_filter (P : A -> bool) l :
  (forall a b, P a = true -> P b = true -> comp a b = false) ->
  filter (fun a => P a = true) (stable_sort comp l)
  = filter (fun a => P a = true) l.
Proof.
  intros Hclass. induction l as [|x l IH]; simpl; [done|].
  fold (stable_sort comp l). rewrite insertStable_filter by done.
  by rewrite !filter_cons, IH.
Qed.

Hypothesis comp_asym : forall a b, comp a b = true -> comp b a = false.
Hypothesis comp_negtrans :
  forall a b c, comp a b = false -> comp b c = false -> comp a c = false.

Lemma insertStable_sorted x l :
  StronglySorted (fun a b => comp b a = false) l ->
  StronglySorted (fun a b => comp b a = false) (insertStable comp x l).
Proof using comp_asym comp_negtrans.
  induction 1 as [|y l Hsorted IH Hy]; simpl.
  - by repeat constructor.
  - destruct (comp y x) eqn:Hyx.
    + constructor; [done|].
      rewrite insertStable_perm.
      constructor; [by apply comp_asym|done].
    + constructor; [by constructor|].
      constructor; [done|].
      eapply Forall_impl; [exact Hy|]. intros z Hz.
      exact (comp_negtrans z y x Hz Hyx).
Qed.

Lemma stable_sort_sorted l :
  StronglySorted (fun a b => comp b a = false) (stable_sort comp l).
Proof using comp_asym comp_negtrans.
  induction l as [|x l IH]; simpl; [constructor|].
  by apply insertStable_sorted.
Qed.

End StableSort.

Lemma stable_sort_ext {A} (comp comp' : A -> A -> bool) l :
  (forall a b, comp a b = comp' a b) -> stable_sort comp l = stable_sort comp' l.
Proof.
  intros Hext. induction l as [|x l IH]; [done|]. simpl.
  fold (stable_sort comp l) (stable_sort comp' l). rewrite IH.
  generalize (stable_sort comp' l). intros k.
  induction k as [|y k IHk]; simpl; [done|]. by rewrite Hext, IHk.
Qed.

Lemma insertStable_fmap {A B} (f : A -> B) (comp : B -> B -> bool) x l :
  insertStable comp (f x) (f <$> l)
  = f <$> insertStable (fun a b => comp (f a) (f b)) x l.
Proof.
  induction l as [|y l IH]; [done|].
  cbn [fmap list_fmap insertStable]. destruct (comp (f y) (f x)); [|done].
  cbn [fmap list_fmap] in *. by rewrite IH.
Qed.

Lemma stable_sort_fmap {A B} (f : A -> B) (comp : B -> B -> bool) l :
  stable_sort comp (f <$> l) = f <$> stable_sort (fun a b => comp (f a) (f b)) l.
Proof.
  induction l as [|x l IH]; [done|].
  cbn [fmap list_fmap stable_sort foldr].
  change (foldr (insertStable comp) [] (f <$> l)) with (stable_sort comp (f <$> l)).
  rewrite IH. apply insertStable_fmap.
Qed.

Section TopologicalSort.
Context {D : Type} {ops : DoubleOps D} {ext : Collaborators D}.
Implicit Types (s : Bush D).

Lemma fillStore_Ret s order :
  Forall (fun i => i < length (sharedNodes s)) order ->
  fillStore (sharedNodes s) order = Ret ((fun i => (maxDistOf s i, i)) <$> order).
Proof.
  induction 1 as [|i order Hi _ IH]; simpl; [done|].
  apply lookup_lt_is_Some_2 in Hi as [v Hv].
  unfold idx, maxDistOf. rewrite Hv, IH. done.
Qed.

(** The ordering [topologicalSort] writes back. *)
Lemma topologicalSort_Ret s :
  length (topologicalOrdering s) <= length (tempStore s) ->
  Forall (fun i => i < length (sharedNodes s)) (topologicalOrdering s) ->
  exists s',
    topologicalSort s = Ret s' /\
    topologicalOrdering s'
    = stable_sort (fun i j => dlt (maxDistOf s i) (maxDistOf s j))
                  (topologicalOrdering s) /\
    sharedNodes s' = sharedNodes s /\ bush s' = bush s /\ graph s' = graph s /\
    changes s' = changes s /\ origin s' = origin s /\
    length (tempStore s') = length (tempStore s).
Proof.
  intros Hstore Hnodes. unfold topologicalSort.
  rewrite decide_True by done. rewrite fillStore_Ret by done. simpl.
  eexists. split; [done|]. simpl. split_and!; try done.
  - unfold pairComparator.
    rewrite (stable_sort_fmap (fun i => (maxDistOf s i, i))). simpl.
    rewrite <- list_fmap_compose. apply list_fmap_id.
  - rewrite length_app, length_drop.
    rewrite (Permutation_length (stable_sort_perm _ _)), length_fmap. lia.
Qed.

(** C6. Where [<] on the distances is a strict weak order (as it is on the
    numbers), the scratch buffer is as long as the ordering and the nodes of
    the ordering are within the node array, [topologicalSort] replaces the
    ordering by a permutation of it in which the max distances never
    decrease, and in which the nodes of any class of tied max distances stand
    in the order they had before. *)
Theorem topologicalSort_stable_by_maxDist s :
  (forall a b : D, dlt a b = true -> dlt b a = false) ->
  (forall a b c : D, dlt a b = false -> dlt b c = false -> dlt a c = false) ->
  length (topologicalOrdering s) <= length (tempStore s) ->
  Forall (fun i => i < length (sharedNodes s)) (topologicalOrdering s) ->
  exists s',
    topologicalSort s = Ret s' /\
    topologicalOrdering s' ≡ₚ topologicalOrdering s /\
    (forall i j u v, i < j ->
       topologicalOrdering s' !! i = Some u -> topologicalOrdering s' !! j = Some v ->
       dlt (maxDistOf s v) (maxDistOf s u) = false) /\
    (forall d : D,
       filter (fun u => tied (maxDistOf s u) d = true) (topologicalOrdering s')
       = filter (fun u => tied (maxDistOf s u) d = true) (topologicalOrdering s)) /\
    sharedNodes s' = sharedNodes s.
Proof.
  intros Hasym Hnegtrans Hstore Hnodes.
  destruct (topologicalSort_Ret s Hstore Hnodes) as (s' & Hrun & Horder & Hsame & _).
  exists s'. rewrite Horder. split_and!; [done| | | |done].
  - apply stable_sort_perm.
  - intros i j u v Hij Hu Hv.
    pose proof (stable_sort_sorted
                  (fun i j => dlt (maxDistOf s i) (maxDistOf s j))
                  (fun a b => Hasym _ _) (fun a b c => Hnegtrans _ _ _)
                  (topologicalOrdering s)) as Hsorted.
    by apply (StronglySorted_lookup_lt _ _ i j u v Hsorted).
  - intros d.
    apply (stable_sort_filter _ (fun u => tied (maxDistOf s u) d)).
    unfold tied. intros a b [Ha1 Ha2]%andb_true_iff [Hb1 Hb2]%andb_true_iff.
    apply negb_true_iff in Ha1, Ha2, Hb1, Hb2. by eapply Hnegtrans.
Qed.

End TopologicalSort.

Lemma topologicalSort_stable_by_maxDist_shuffled :
  exists s',
    @topologicalSort Z Z_ops shuffledState = Ret s' /\
    topologicalOrdering s' ≡ₚ [0; 3; 2; 1] /\
    (forall i j u v, i < j ->
       topologicalOrdering s' !! i = Some u -> topologicalOrdering s' !! j = Some v ->
       (maxDistOf shuffledState v <? maxDistOf shuffledState u)%Z = false) /\
    (forall d : Z,
       filter (fun u => tied (ops := Z_ops) (maxDistOf shuffledState u) d = true)
              (topologicalOrdering s')
       = filter (fun u => tied (ops := Z_ops) (maxDistOf shuffledState u) d = true)
                [0; 3; 2; 1]) /\
    sharedNodes s' = sharedNodes shuffledState.
Proof.
  apply (@topologicalSort_stable_by_maxDist Z Z_ops shuffledState).
  - intros a b. simpl. rewrite Z.ltb_lt, Z.ltb_ge. lia.
  - intros a b c. simpl. rewrite !Z.ltb_ge. lia.
  - simpl. lia.
  - repeat (constructor; [simpl; lia|]). constructor.
Defined.

(** ** [giveCount] *)

Section GiveCount.
Context {D : Type} {ops : DoubleOps D} {ext : Collaborators D}.
Implicit Types (s : Bush D).

Lemma tiesAfter_le md prev order : tiesAfter md prev order <= length order.
Proof.
  revert prev. induction order as [|j order IH]; intros prev; simpl; [done|].
  specialize (IH (md j)). destruct (deq prev (md j)); lia.
Qed.

Lemma unsigned_small z : (0 <= z < 2 ^ 32)%Z -> unsigned_ z = z.
Proof. intros. unfold unsigned_. by apply Z.mod_small. Qed.

Lemma countRun_ties s dist1 prev count order c :
  (forall a b : D, deq a b = true -> deq b a = true) ->
  (forall a b c : D, deq a b = true -> deq b c = true -> deq a c = true) ->
  (forall x, deq dist1 x = deq prev x) ->
  (0 <= count)%Z ->
  (count + Z.of_nat (length order) < 2 ^ 32)%Z ->
  countRun (sharedNodes s) dist1 count order = Ret c ->
  c = (count + Z.of_nat (tiesAfter (maxDistOf s) prev order))%Z.
Proof.
  intros Hsym Htrans. revert dist1 prev count.
  induction order as [|j order IH]; intros dist1 prev count Hsame Hpos Hsmall; simpl.
  - intros [= <-]. lia.
  - intros Hrun. apply bind_Ret in Hrun as (v & Hv%at_Ret & Hrun).
    assert (maxDistOf s j = maxDist v) as Hmd by (unfold maxDistOf; by rewrite Hv).
    rewrite Hmd, <- Hsame. simpl in Hsmall.
    destruct (deq dist1 (maxDist v)) eqn:Heq.
    + rewrite unsigned_small in Hrun by lia.
      apply (IH _ (maxDist v)) in Hrun; [lia| |lia|lia].
      intros x. destruct (deq (maxDist v) x) eqn:Hx.
      * by eapply Htrans.
      * destruct (deq dist1 x) eqn:Hx'; [|done].
        rewrite <- Hx. symmetry. eapply Htrans; [|exact Hx']. by apply Hsym.
    + apply (IH _ (maxDist v)) in Hrun; [lia|done|lia|lia].
Qed.

Lemma toInt_small z : (0 <= z < 2 ^ 31)%Z -> toInt z = z.
Proof. intros. unfold toInt. destruct (Z.ltb_spec z (2 ^ 31)); [done|lia]. Qed.

(** C7, as amended.  Where [==] on the distances is symmetric and transitive
    and the ordering has at most 2^31 nodes, [giveCount] rebuilds the trees
    and returns the number of nodes of the topological ordering whose max
    distance equals the max distance of the node just before them in the
    ordering. *)
Theorem giveCount_adjacent_ties s count s' :
  (forall a b : D, deq a b = true -> deq b a = true) ->
  (forall a b c : D, deq a b = true -> deq b c = true -> deq a c = true) ->
  (Z.of_nat (length (topologicalOrdering s)) <= 2 ^ 31)%Z ->
  giveCount s = Ret (count, s') ->
  buildTrees s = Ret s' /\
  count = Z.of_nat (adjacentTies (maxDistOf s') (topologicalOrdering s')).
Proof.
  intros Hsym Htrans Hlen. unfold giveCount. intros Hrun.
  apply bind_Ret in Hrun as (s1 & Hbuild & Hrun).
  destruct (sameButTrees_fields _ _ (buildTrees_frame _ _ Hbuild))
    as (_ & _ & _ & _ & Horder).
  rewrite <- Horder in Hlen.
  destruct (topologicalOrdering s1) as [|i order] eqn:Hord.
  - injection Hrun as <- <-. by rewrite Hord.
  - apply bind_Ret in Hrun as (v & Hv%at_Ret & Hrun).
    apply bind_Ret in Hrun as (c & Hrun & [= <- <-]).
    rewrite Hord. split; [done|]. simpl in Hlen.
    apply (countRun_ties _ _ (maxDist v)) in Hrun; [|done|done|done|lia|lia].
    subst c. simpl.
    assert (maxDistOf s1 i = maxDist v) as -> by (unfold maxDistOf; by rewrite Hv).
    pose proof (tiesAfter_le (maxDistOf s1) (maxDist v) order).
    rewrite toInt_small by lia. lia.
Qed.

End GiveCount.

(** On the star the nodes 1, 2 and 3 have the max distance 5: three pairs of
    nodes share it, and [giveCount] returns 2. *)
Lemma giveCount_star_pairs :
  exists count s',
    @giveCount Z Z_ops starExt starState = Ret (count, s') /\
    count = 2%Z /\
    @pairsSharing Z Z_ops (@maxDistOf Z Z_ops s') (topologicalOrdering s') = 3 /\
    count <> Z.of_nat
               (@pairsSharing Z Z_ops (@maxDistOf Z Z_ops s') (topologicalOrdering s')).
Proof. eexists _, _. split_and!; [vm_compute; reflexivity..|vm_compute; discriminate]. Qed.

Lemma giveCount_adjacent_ties_star :
  exists s',
    @giveCount Z Z_ops starExt starState = Ret (2%Z, s') /\
    2%Z = Z.of_nat (@adjacentTies Z Z_ops (@maxDistOf Z Z_ops s') (topologicalOrdering s')).
Proof.
  eexists. split; [vm_compute; reflexivity|].
  eapply (@giveCount_adjacent_ties Z Z_ops starExt starState).
  - intros a b. simpl. rewrite !Z.eqb_eq. congruence.
  - intros a b c. simpl. rewrite !Z.eqb_eq. congruence.
  - vm_compute. discriminate.
  - vm_compute. reflexivity.
Defined.

(** ** Lookups by node id *)

Lemma foldM_fails {A B} (f : A -> B -> outcome A) (bad : outcome A) l a :
  (forall a', bad <> Ret a') ->
  (forall a b, (exists a', f a b = Ret a') \/ f a b = bad) ->
  (exists b, b ∈ l /\ forall a, f a b = bad) ->
  foldM f a l = bad.
Proof.
  intros Hne Hf (b & Hb & Hbad). revert a.
  induction l as [|b' l IH]; intros a; [by apply elem_of_nil in Hb|]. simpl.
  apply elem_of_cons in Hb as [<-|Hb].
  - rewrite Hbad. destruct bad; try done. by destruct (Hne a0).
  - destruct (Hf a b') as [[a' ->]| ->]; simpl; [by apply IH|].
    destruct bad; try done. by destruct (Hne a0).
Qed.

Lemma foldM_not {A B} (f : A -> B -> outcome A) (bad : outcome A) l a :
  (forall a', bad <> Ret a') ->
  (forall a b, f a b <> bad) -> foldM f a l <> bad.
Proof.
  intros Hbad Hf. revert a. induction l as [|b l IH]; intros a; simpl; [done|].
  specialize (Hf a b). destruct (f a b); simpl; try done.
  all: by destruct bad.
Qed.

Section Lookups.
Context {D : Type} {ops : DoubleOps D} {ext : Collaborators D}.
Implicit Types (s : Bush D).

Lemma at_Z_cases {A} (v : list A) i :
  (inRange i (length v) /\ exists x, at_Z v i = Ret x) \/
  (~ inRange i (length v) /\ at_Z v i = OutOfRange).
Proof.
  unfold at_Z, at_, inRange. destruct (Z.ltb_spec i 0); [right; split; [lia|done]|].
  destruct (v !! Z.to_nat i) eqn:Hi.
  - left. apply lookup_lt_Some in Hi. split; [lia|by eexists].
  - right. apply lookup_ge_None in Hi. split; [lia|done].
Qed.

Lemma idx_Z_cases {A} (v : list A) i :
  (inRange i (length v) /\ exists x, idx_Z v i = Ret x) \/
  (~ inRange i (length v) /\ idx_Z v i = Undefined).
Proof.
  unfold idx_Z, idx, inRange. destruct (Z.ltb_spec i 0); [right; split; [lia|done]|].
  destruct (v !! Z.to_nat i) eqn:Hi.
  - left. apply lookup_lt_Some in Hi. split; [lia|by eexists].
  - right. apply lookup_ge_None in Hi. split; [lia|done].
Qed.

Lemma at_cases {A} (v : list A) i :
  (i < length v /\ exists x, at_ v i = Ret x) \/
  (~ i < length v /\ at_ v i = OutOfRange).
Proof.
  unfold at_. destruct (v !! i) eqn:Hi.
  - left. apply lookup_lt_Some in Hi. split; [lia|by eexists].
  - right. apply lookup_ge_None in Hi. split; [lia|done].
Qed.

Lemma addArc_cases distanceMap b ka :
  (exists b', addArc distanceMap b ka = Ret b') \/
  addArc distanceMap b ka = OutOfRange.
Proof.
  destruct ka as [k a]. unfold addArc.
  destruct (at_cases distanceMap (arcTo a)) as [[_ [p ->]]|[_ ->]]; [|by right].
  destruct (at_cases distanceMap (arcFrom a)) as [[_ [q ->]]|[_ ->]]; [|by right].
  simpl. destruct (_ || _); [left; by eexists|].
  destruct (_ <? _)%Z; [|left; by eexists].
  destruct (at_cases b (arcTo a)) as [[_ [es ->]]|[_ ->]]; [left; by eexists|by right].
Qed.

Lemma buildNode_length s id s' :
  buildNode s id = Ret s' -> length (sharedNodes s') = length (sharedNodes s).
Proof. unfold buildNode. intros Hrun. inv_ret. subst s'. simpl. apply length_insert. Qed.

Lemma buildTrees_length s s' :
  buildTrees s = Ret s' -> length (sharedNodes s') = length (sharedNodes s).
Proof.
  unfold buildTrees. intros Hrun. inv_ret.
  eapply (foldM_invariant (fun a => length (sharedNodes a) = length (sharedNodes s)));
    [| |exact Hrun].
  - intros a b a' Ha Hb. by rewrite (buildNode_length _ _ _ Hb).
  - simpl. apply length_insert.
Qed.

(** C9, as amended.  [setUpGraph] looks node ids up with [at]: it has no
    undefined behaviour, and it ends in [std::out_of_range] when a
    destination id, or with all destination ids within range an endpoint of
    an arc, is outside the distance map.  [maxDifference] and the scan of
    [equilibriateFlows] index the node array with [operator[]]: for a
    destination id outside the array their lookup is undefined behaviour,
    no error is raised. *)
Theorem lookups_checked_and_unchecked s :
  let distanceMap :=
    (dijkstra (graph s) (getOrigin (origin s))
              (replicate (numVertices (graph s)) NOPOS) (topologicalOrdering s)).1 in
  setUpGraph s <> Undefined /\
  ((exists i, i ∈ (dests (origin s)).*1 /\ ~ inRange i (length distanceMap)) ->
   setUpGraph s = OutOfRange) /\
  ((forall i, i ∈ (dests (origin s)).*1 -> inRange i (length distanceMap)) ->
   (exists a, a ∈ arcs (graph s) /\
              ~ (arcFrom a < length distanceMap /\ arcTo a < length distanceMap)) ->
   setUpGraph s = OutOfRange) /\
  (forall s1, buildTrees s = Ret s1 ->
     (exists i, i ∈ (dests (origin s)).*1 /\ ~ inRange i (length (sharedNodes s))) ->
     maxDifference s = Undefined) /\
  (forall accuracy thisTime i,
     ~ inRange i.1 (length (sharedNodes s)) ->
     equilibriateDest accuracy (thisTime, s) i = Undefined).
Proof.
  intros distanceMap. unfold setUpGraph. subst distanceMap.
  destruct (dijkstra _ _ _ _) as [distanceMap order]. simpl.
  assert (forall out (i : Z * D),
             (exists out', reportUnreachable (getOrigin (origin s)) distanceMap out i
                           = Ret out') \/
             reportUnreachable (getOrigin (origin s)) distanceMap out i = OutOfRange)
    as Hreport.
  { intros out i. unfold reportUnreachable.
    destruct (at_Z_cases distanceMap i.1) as [[_ [p ->]]|[_ ->]];
      [left; by eexists|by right]. }
  split_and!.
  - intros Hrun.
    destruct (foldM _ [] (dests (origin s))) as [out| | |] eqn:Hout; try done.
    + simpl in Hrun.
      destruct (foldM (addArc distanceMap) _ _) as [b| | |] eqn:Hb; try done.
      revert Hb. apply foldM_not; [done|]. intros b ka.
      by destruct (addArc_cases distanceMap b ka) as [[b' ->]| ->].
    + revert Hout. apply foldM_not; [done|]. intros out i.
      by destruct (Hreport out i) as [[out' ->]| ->].
  - intros (i & [[i' demand] [-> Hi]]%list_elem_of_fmap & Hout).
    rewrite (foldM_fails (reportUnreachable _ _) OutOfRange); [done|done|done|].
    exists (i', demand). split; [done|]. intros out. unfold reportUnreachable.
    by destruct (at_Z_cases distanceMap (i', demand).1) as [[? _]|[_ ->]].
  - intros Hdests (a & [k Hk]%list_elem_of_lookup & Hout).
    destruct (foldM _ [] (dests (origin s))) as [out| | |] eqn:Hrep.
    + simpl. rewrite (foldM_fails (addArc _) OutOfRange); [done|done| |].
      * intros b ka. apply addArc_cases.
      * exists (k, a). split; [apply elem_of_lookup_imap; by exists k, a|].
        intros b. unfold addArc.
        destruct (at_cases distanceMap (arcTo a)) as [[Hto [p ->]]|[_ ->]]; [|done].
        destruct (at_cases distanceMap (arcFrom a)) as [[Hfrom [q ->]]|[_ ->]]; [|done].
        tauto.
    + done.
    + exfalso. revert Hrep. apply foldM_not; [done|]. intros out i.
      by destruct (Hreport out i) as [[out' ->]| ->].
    + exfalso. revert Hrep. apply foldM_not; [done|]. intros out i.
      by destruct (Hreport out i) as [[out' ->]| ->].
  - intros s1 Hbuild (i & [[i' demand] [-> Hi]]%list_elem_of_fmap & Hout).
    unfold maxDifference. rewrite Hbuild. simpl.
    destruct (sameButTrees_fields _ _ (buildTrees_frame _ _ Hbuild)) as (-> & _).
    rewrite <- (buildTrees_length _ _ Hbuild) in Hout.
    rewrite (foldM_fails _ Undefined); [done|done| |].
    + intros ret j. destruct (idx_Z_cases (sharedNodes s1) j.1) as [[_ [v ->]]|[_ ->]];
        [left; by eexists|by right].
    + exists (i', demand). split; [done|]. intros ret.
      by destruct (idx_Z_cases (sharedNodes s1) (i', demand).1) as [[? _]|[_ ->]].
  - intros accuracy thisTime i Hout. unfold equilibriateDest.
    by destruct (idx_Z_cases (sharedNodes s) i.1) as [[? _]|[_ ->]].
Qed.

End Lookups.

Lemma lookups_checked_and_unchecked_stray :
  @setUpGraph Z Z_ops diamondExt
     (initialBush {| getOrigin := 0; dests := [(7%Z, 10%Z)] |} diamondGraph
                  (replicate 4 freshNode) (replicate 4 (0%Z, 0)))
  = OutOfRange /\
  @maxDifference Z Z_ops diamondExt strayDestState = Undefined.
Proof.
  split.
  - apply (proj1 (proj2 (@lookups_checked_and_unchecked Z Z_ops diamondExt _))).
    exists 7%Z. split; [by left|]. unfold inRange. simpl. lia.
  - eapply (proj1 (proj2 (proj2 (proj2
              (@lookups_checked_and_unchecked Z Z_ops diamondExt strayDestState))))).
    + vm_compute. reflexivity.
    + exists 7%Z. split; [by left|]. unfold inRange. simpl. lia.
Defined.

(** In [maxDifference] the lookup of the destination 7, outside the node
    array of the diamond, is undefined behaviour and raises no error; so is,
    in the constructor, the lookup of an origin outside the node array, which
    [buildTrees] makes before [sendInitialFlows] checks it. *)
Lemma unchecked_lookup_raises_no_error :
  7%Z ∈ (dests (origin strayDestState)).*1 /\
  ~ inRange 7 (length (sharedNodes strayDestState)) /\
  @maxDifference Z Z_ops diamondExt strayDestState = Undefined /\
  @maxDifference Z Z_ops diamondExt strayDestState <> OutOfRange /\
  @newBush Z Z_ops diamondExt 4 {| getOrigin := 7; dests := [] |} diamondGraph
           (replicate 4 freshNode) (replicate 4 (0%Z, 0)) = Undefined.
Proof.
  split_and!.
  - by left.
  - unfold inRange. simpl. lia.
  - vm_compute. reflexivity.
  - vm_compute. discriminate.
  - vm_compute. reflexivity.
Qed.

(** ** An unreachable destination *)

Lemma foldM_reaches {A B} (P : A -> Prop) (f : A -> B -> outcome A) l a a' b :
  (forall a b a', P a -> f a b = Ret a' -> P a') ->
  P a -> foldM f a l = Ret a' -> b ∈ l ->
  exists a1 a2, P a1 /\ f a1 b = Ret a2.
Proof.
  intros Hf. revert a. induction l as [|b' l IH]; intros a Ha Hrun Hb.
  - by apply elem_of_nil in Hb.
  - simpl in Hrun. apply bind_Ret in Hrun as (a1 & Hstep & Hrun).
    apply elem_of_cons in Hb as [->|Hb]; [by exists a, a1|].
    eapply IH; [|done..]. by eapply Hf.
Qed.

Section Unreachable.
Context {D : Type} {ops : DoubleOps D} {ext : Collaborators D}.
Implicit Types (s : Bush D).

Lemma buildNodes_untouched rest : forall s s' u,
  foldM buildNode s rest = Ret s' -> u ∉ rest ->
  sharedNodes s' !! u = sharedNodes s !! u.
Proof.
  induction rest as [|v rest IH]; intros s s' u Hrun Hu.
  - by injection Hrun as <-.
  - simpl in Hrun. apply bind_Ret in Hrun as (s1 & Hstep & Hrun).
    apply not_elem_of_cons in Hu as [Huv Hu]. rewrite (IH _ _ _ Hrun Hu).
    unfold buildNode in Hstep. inv_ret. subst s1. simpl.
    by apply list_lookup_insert_ne.
Qed.

Lemma walkFlow_nodes fuel : forall s root demand node s',
  walkFlow fuel s root demand node = Ret s' -> sharedNodes s' = sharedNodes s.
Proof.
  induction fuel as [|fuel IH]; intros s root demand node s'; simpl;
    destruct (decide (node = root)); try by intros [= <-].
  intros Hrun. apply bind_Ret in Hrun as (v & _ & Hrun).
  destruct (minPredecessor v) as [[slot k]|]; [|done].
  apply bind_Ret in Hrun as (inEdges & _ & Hrun).
  apply bind_Ret in Hrun as (be & _ & Hrun).
  apply bind_Ret in Hrun as (fge & _ & Hrun).
  by apply IH in Hrun.
Qed.

(** The constructor does not return when a destination other than the origin
    is missing from the ordering of the shortest-path search and its node
    comes with a null min predecessor: no tree build labels the node, and
    [sendInitialFlows] walks back from it all the same. *)
Theorem unreachable_destination_stops_construction (fuel : nat) (o : Origin D)
    (g : ABGraph D) (nodes : list (BushNode D)) (store : list (D * nat))
    (d : Z) (demand : D) (v : BushNode D) :
  (d, demand) ∈ dests o ->
  Z.to_nat d ∉ (dijkstra g (getOrigin o) (replicate (numVertices g) NOPOS) []).2 ->
  Z.to_nat d <> getOrigin o ->
  nodes !! Z.to_nat d = Some v ->
  minPredecessor v = None ->
  forall r, newBush fuel o g nodes store <> Ret r.
Proof.
  intros Hd Horder Horigin Hv Hnull r Hrun. unfold newBush in Hrun.
  apply bind_Ret in Hrun as ([s1 out] & Hsetup & Hrun).
  apply bind_Ret in Hrun as (s2 & Hbuild & Hrun).
  apply bind_Ret in Hrun as (s3 & Hsend & _).
  unfold setUpGraph, initialBush in Hsetup. simpl in Hsetup.
  destruct (dijkstra _ _ _ _) as [distanceMap order]. simpl in Horder.
  apply bind_Ret in Hsetup as (out' & _ & Hsetup).
  apply bind_Ret in Hsetup as (b & _ & [= <- <-]).
  assert (sharedNodes s2 !! Z.to_nat d = Some v) as Hv2.
  { unfold buildTrees in Hbuild. simpl in Hbuild.
    apply bind_Ret in Hbuild as (root & _ & Hbuild).
    rewrite (buildNodes_untouched _ _ _ _ Hbuild).
    - simpl. by rewrite list_lookup_insert_ne.
    - intros Hin. apply Horder. destruct order; [done|by right]. }
  pose proof (sameButTrees_fields _ _ (buildTrees_frame _ _ Hbuild))
    as (Horigin2 & _). simpl in Horigin2.
  unfold sendInitialFlows in Hsend. rewrite Horigin2 in Hsend.
  apply bind_Ret in Hsend as (root & _ & Hsend).
  assert (forall a (i : Z * D) a',
             sharedNodes a = sharedNodes s2 ->
             sendToDest fuel (getOrigin o) a i = Ret a' ->
             sharedNodes a' = sharedNodes s2) as Hkeep.
  { intros a i a' Ha Hstep. unfold sendToDest in Hstep.
    apply bind_Ret in Hstep as (? & _ & Hstep).
    by rewrite (walkFlow_nodes _ _ _ _ _ _ Hstep). }
  destruct (foldM_reaches (fun s => sharedNodes s = sharedNodes s2)
              _ _ _ _ (d, demand) Hkeep eq_refl Hsend Hd)
    as (sa & sb & Hsa & Hstep).
  unfold sendToDest in Hstep. apply bind_Ret in Hstep as (? & _ & Hstep).
  simpl in Hstep. destruct fuel as [|fuel]; simpl in Hstep;
    rewrite decide_False in Hstep by done; [done|].
  rewrite Hsa, (proj2 (idx_Ret _ _ _) Hv2) in Hstep. simpl in Hstep.
  by rewrite Hnull in Hstep.
Qed.

End Unreachable.

Lemma stranded_destination_stops_construction (fuel : nat) r :
  @newBush Z Z_ops strandedExt fuel strandedOrigin strandedGraph
           (replicate 6 freshNode) (replicate 6 (0%Z, 0)) <> Ret r.
Proof.
  apply (@unreachable_destination_stops_construction Z Z_ops strandedExt fuel
           strandedOrigin strandedGraph _ _ 5%Z 4%Z freshNode).
  - by left.
  - simpl. intros [[=]|[[=]|[]%elem_of_nil]%elem_of_cons]%elem_of_cons.
  - done.
  - done.
  - done.
Qed.

(** C8.  On the scenario of the specification (origin 0, destination 5 with
    demand 4, node 5 unreachable) [setUpGraph] returns, having written the
    diagnostic for the destination 5 and kept the arc 5→4 out of the bush;
    the tree build returns and leaves node 5 as it was; then
    [sendInitialFlows] walks back from node 5, whose min predecessor no tree
    build has set, through a null pointer: the constructor does not return. *)
Lemma unreachable_destination_breaks_construction :
  let nodes := replicate 6 freshNode in
  let store := replicate 6 (0%Z, 0) in
  (exists s s1,
      @setUpGraph Z Z_ops strandedExt
         (initialBush strandedOrigin strandedGraph nodes store) = Ret (s, [(0, 5%Z)]) /\
      bush s = [[]; [newBushEdge (ops := Z_ops) 0 (arc 0 1 1)]; []; []; []; []] /\
      @buildTrees Z Z_ops strandedExt s = Ret s1 /\
      sharedNodes s1 !! 5 = Some freshNode /\
      forall fuel, @sendInitialFlows Z Z_ops (S fuel) s1 = Undefined) /\
  forall fuel,
    @newBush Z Z_ops strandedExt (S fuel) strandedOrigin strandedGraph nodes store
    = Undefined.
Proof.
  intros nodes store. split.
  - eexists _, _. split_and!; [vm_compute; reflexivity..|].
    intros fuel. vm_compute. reflexivity.
  - intros fuel. vm_compute. reflexivity.
Qed.

(** ** Building the trees twice *)

Lemma foldM_ext_in {A B} (f f' : A -> B -> outcome A) l a :
  (forall a b, b ∈ l -> f a b = f' a b) -> foldM f a l = foldM f' a l.
Proof.
  revert a. induction l as [|b l IH]; intros a Hf; simpl; [done|].
  rewrite (Hf a b) by (by left). destruct (f' a b); simpl; try done.
  apply IH. intros a' b' Hb'. apply Hf. by right.
Qed.

Section Rebuild.
Context {D : Type} {ops : DoubleOps D} {ext : Collaborators D}.
Implicit Types (s : Bush D) (b : list (EdgeVector D)) (N : list (BushNode D)).

Lemma precedes_consistentFrom b rest : forall pre seen,
  NoDup (pre ++ rest) ->
  (forall x, x ∈ seen <-> x ∈ pre) ->
  (forall v inEdges e,
     v ∈ rest -> b !! v = Some inEdges -> e ∈ inEdges ->
     precedes (pre ++ rest) (fromNode e) v) ->
  consistentFrom b seen rest.
Proof.
  induction rest as [|v rest IH]; intros pre seen Hnodup Hseen Hedges; simpl; [done|].
  assert ((pre ++ v :: rest) !! length pre = Some v) as Hv.
  { by rewrite lookup_app_r, Nat.sub_diag by lia. }
  split_and!.
  - rewrite Hseen. apply NoDup_app in Hnodup as (_ & Hdisj & _).
    intros Hin. apply (Hdisj _ Hin). by left.
  - intros inEdges e Hb He.
    destruct (Hedges v inEdges e) as (i & j & Hij & Hi & Hj); [by left|done..|].
    rewrite (NoDup_lookup _ _ _ _ Hnodup Hj Hv) in Hij.
    rewrite lookup_app_l in Hi by done.
    apply Hseen. by eapply list_elem_of_lookup_2.
  - apply (IH (pre ++ [v])).
    + by rewrite <- app_assoc.
    + intros x. rewrite elem_of_cons, elem_of_app, list_elem_of_singleton, Hseen. tauto.
    + intros w inEdges e Hw Hb He. rewrite <- app_assoc. simpl.
      apply (Hedges w inEdges e); [by right|done..].
Qed.

Lemma updateInDistances_agree N N' g id (inEdges : EdgeVector D) :
  (forall e, e ∈ inEdges -> N !! fromNode e = N' !! fromNode e) ->
  updateInDistances N g id inEdges = updateInDistances N' g id inEdges.
Proof.
  intros Hagree. unfold updateInDistances. apply foldM_ext_in.
  intros v [k e] (k' & e' & [= <- <-] & He%list_elem_of_lookup_2)%elem_of_lookup_imap.
  unfold examineInEdge, idx. by rewrite (Hagree e He).
Qed.

Lemma updateEdges3_agree N N' (inEdges : EdgeVector D) maxDist_ id chg :
  (forall e, e ∈ inEdges -> N !! fromNode e = N' !! fromNode e) ->
  updateEdges3 N inEdges maxDist_ id chg = updateEdges3 N' inEdges maxDist_ id chg.
Proof.
  intros Hagree. unfold updateEdges3. apply foldM_ext_in.
  intros c [k e] (k' & e' & [= <- <-] & He%list_elem_of_lookup_2)%elem_of_lookup_imap.
  unfold flagInEdge, idx. by rewrite (Hagree e He).
Qed.

(** The labels of the nodes already seen are final. *)
Lemma buildNodes_seen b rest : forall seen s s',
  consistentFrom b seen rest ->
  foldM buildNode s rest = Ret s' ->
  forall u, u ∈ seen -> sharedNodes s' !! u = sharedNodes s !! u.
Proof.
  induction rest as [|v rest IH]; intros seen s s'; simpl.
  - by intros _ [= <-].
  - intros (Hv & _ & Hrest) Hrun u Hu.
    apply bind_Ret in Hrun as (s1 & Hstep & Hrun).
    rewrite (IH _ _ _ Hrest Hrun u) by (by right).
    unfold buildNode in Hstep. inv_ret. subst s1. simpl.
    apply list_lookup_insert_ne. by intros ->.
Qed.

(** With the final labels in place, a step of the loop labels its node as
    before. *)
Lemma buildNode_again s v s1 N :
  buildNode s v = Ret s1 ->
  N !! v = sharedNodes s1 !! v ->
  (forall inEdges e, bush s !! v = Some inEdges -> e ∈ inEdges ->
     fromNode e <> v /\ N !! fromNode e = sharedNodes s !! fromNode e) ->
  buildNode (setSharedNodes s N) v = Ret (setSharedNodes s1 N).
Proof.
  unfold buildNode. intros Hstep Hv Hsources.
  apply bind_Ret in Hstep as (old & Hold%idx_Ret & Hstep).
  apply bind_Ret in Hstep as (inEdges & Hin & Hstep).
  apply bind_Ret in Hstep as (x & Hx & Hstep).
  apply bind_Ret in Hstep as (chg & Hchg & [= <-]). simpl in *.
  rewrite list_lookup_insert_eq in Hv by (by eapply lookup_lt_Some).
  rewrite (proj2 (idx_Ret N v x) Hv). simpl. rewrite Hin. simpl.
  apply idx_Ret in Hin.
  rewrite (updateInDistances_agree _ (sharedNodes s));
    [|intros e He; by apply (Hsources _ _ Hin He)].
  rewrite Hx. simpl. rewrite (list_insert_id _ _ _ Hv).
  rewrite (updateEdges3_agree _ (<[v:=x]> (sharedNodes s))).
  - by rewrite Hchg.
  - intros e He. destruct (Hsources _ _ Hin He) as [Hne ->].
    symmetry. by apply list_lookup_insert_ne.
Qed.

(** With the final labels in place, the loop labels every node as before. *)
Lemma buildNodes_again rest : forall seen s s',
  consistentFrom (bush s) seen rest ->
  foldM buildNode s rest = Ret s' ->
  foldM buildNode (setSharedNodes s (sharedNodes s')) rest = Ret s'.
Proof.
  induction rest as [|v rest IH]; intros seen s s'; simpl.
  - intros _ [= <-]. by destruct s.
  - intros (Hv & Hsources & Hrest) Hrun.
    apply bind_Ret in Hrun as (s1 & Hstep & Hrun).
    pose proof (buildNodes_seen _ _ _ _ _ Hrest Hrun) as Hseen.
    pose proof (sameButTrees_fields _ _ (buildNode_frame _ _ _ Hstep))
      as (_ & Hbush & _).
    rewrite <- Hbush in Hrest. specialize (IH _ _ _ Hrest Hrun).
    rewrite (buildNode_again s v s1); [exact IH|done| |].
    + apply Hseen. by left.
    + intros inEdges e Hin He. pose proof (Hsources _ _ Hin He) as Hfrom.
      assert (fromNode e <> v) as Hne by (by intros <-).
      split; [done|]. rewrite Hseen by (by right).
      unfold buildNode in Hstep. inv_ret. subst s1. simpl.
      by apply list_lookup_insert_ne.
Qed.

Lemma setDistance_idem (d : D) (v : BushNode D) :
  setDistance d (setDistance d v) = setDistance d v.
Proof. done. Qed.

(** C3, as amended.  On a bush that satisfies the invariant of the data
    model, a second [buildTrees], called right after a first one, returns
    the state the first one returned: the same min distance, max distance and
    min predecessor for every node, and the pending changes the first call
    left, which are empty only if that call flagged no edge. *)
Theorem buildTrees_twice s s1 :
  topologicallyOrdered s ->
  buildTrees s = Ret s1 ->
  buildTrees s1 = Ret s1.
Proof.
  intros (Hnodup & Hhead & Hedges) Hbuild.
  pose proof (sameButTrees_fields _ _ (buildTrees_frame _ _ Hbuild))
    as (Horigin & Hbush & Hgraph & Hstore & Horder).
  unfold buildTrees in *. rewrite Horigin, Horder.
  destruct (topologicalOrdering s) as [|o rest] eqn:Hord; [done|].
  injection Hhead as ->. simpl in *.
  apply bind_Ret in Hbuild as (root & Hroot%idx_Ret & Hbuild).
  set (s0 := setChanges
               (setSharedNodes s (<[getOrigin (origin s):=setDistance d0 root]>
                                    (sharedNodes s))) []) in *.
  assert (consistentFrom (bush s0) [getOrigin (origin s)] rest) as Hcons.
  { apply (precedes_consistentFrom _ _ [getOrigin (origin s)]); [done|done|].
    intros v inEdges e Hv. apply Hedges. by right. }
  assert (sharedNodes s1 !! getOrigin (origin s) = Some (setDistance d0 root)) as Ho.
  { rewrite (buildNodes_seen _ _ _ _ _ Hcons Hbuild) by (by left).
    simpl. apply list_lookup_insert_eq. by eapply lookup_lt_Some. }
  rewrite (proj2 (idx_Ret _ _ _) Ho). simpl.
  rewrite setDistance_idem, (list_insert_id _ _ _ Ho).
  pose proof (buildNodes_again _ _ _ _ Hcons Hbuild) as Hagain.
  replace (setChanges (setSharedNodes s1 (sharedNodes s1)) [])
    with (setSharedNodes s0 (sharedNodes s1)); [done|].
  clear -Horigin Hbush Hgraph Hstore Horder Hord. subst s0.
  destruct s, s1. simpl in *. by subst.
Qed.

End Rebuild.

Lemma zeroArcState_ordered : topologicallyOrdered zeroArcState.
Proof.
  split_and!.
  - apply (bool_decide_unpack _). by vm_compute.
  - done.
  - intros v inEdges e Hv Hin He.
    destruct v as [|[|v]]; simpl in Hin; [by simplify_eq; apply elem_of_nil in He| |done].
    injection Hin as <-. apply list_elem_of_singleton in He as ->.
    exists 0, 1. split_and!; [lia|done|done].
Qed.

Lemma starState_ordered : topologicallyOrdered starState.
Proof.
  split_and!.
  - apply (bool_decide_unpack _). by vm_compute.
  - done.
  - intros v inEdges e Hv Hin He.
    destruct v as [|[|[|[|v]]]]; simpl in Hin; [| | | |done]; injection Hin as <-.
    + by apply elem_of_nil in He.
    + apply list_elem_of_singleton in He as ->. exists 0, 1. split_and!; [lia|done|done].
    + apply list_elem_of_singleton in He as ->. exists 0, 2. split_and!; [lia|done|done].
    + apply list_elem_of_singleton in He as ->. exists 0, 3. split_and!; [lia|done|done].
Qed.

(** On the zero-length arc 0→1 both nodes get the max distance 0, so that
    every tree build flags the arc: after the second of two builds in a row
    the labels are those of the first and the pending list holds the arc. *)
Lemma buildTrees_twice_leaves_pending :
  topologicallyOrdered zeroArcState /\
  exists s1 s2,
    @buildTrees Z Z_ops zeroArcExt zeroArcState = Ret s1 /\
    @buildTrees Z Z_ops zeroArcExt s1 = Ret s2 /\
    sharedNodes s2 = sharedNodes s1 /\
    changes s2 = [(1, 0)] /\
    changes s2 <> [].
Proof.
  split; [exact zeroArcState_ordered|].
  eexists _, _. split_and!; [vm_compute; reflexivity..|done].
Qed.

Lemma buildTrees_twice_star :
  exists s1,
    @buildTrees Z Z_ops starExt starState = Ret s1 /\
    @buildTrees Z Z_ops starExt s1 = Ret s1.
Proof.
  eassert (@buildTrees Z Z_ops starExt starState = Ret _) as Hbuild
    by (vm_compute; reflexivity).
  eexists. split; [exact Hbuild|].
  exact (@buildTrees_twice Z Z_ops starExt starState _ starState_ordered Hbuild).
Defined.

(** ** Restructuring *)

Section SwapToTail.
Context {A : Type}.
Implicit Types (l : list A).

(** [std::swap(l[k], l[m])] permutes the vector. *)
Lemma swap_Permutation l k m a b :
  l !! k = Some a -> l !! m = Some b -> <[k:=b]> (<[m:=a]> l) ≡ₚ l.
Proof.
  intros Hk Hm. apply Permutation_inj. split; [by rewrite !length_insert|].
  exists (fun i => if decide (i = k) then m else if decide (i = m) then k else i).
  split.
  - intros i j. repeat case_decide; lia.
  - intros i. pose proof (lookup_lt_Some _ _ _ Hk). pose proof (lookup_lt_Some _ _ _ Hm).
    destruct (decide (i = k)) as [->|Hik].
    + by rewrite list_lookup_insert_eq by (by rewrite length_insert).
    + rewrite list_lookup_insert_ne by done.
      destruct (decide (i = m)) as [->|Him].
      * by rewrite list_lookup_insert_eq.
      * by rewrite list_lookup_insert_ne.
Qed.

End SwapToTail.

(** [u] stands before [v] in [l] when [u], [v] is a sublist of [l]. *)
Lemma precedes_sublist (l : list nat) u v : precedes l u v <-> [u; v] `sublist_of` l.
Proof.
  split.
  - intros (i & j & Hij & Hi & Hj).
    rewrite <- (take_drop_middle l i u Hi).
    apply sublist_inserts_l. apply sublist_skip.
    assert (drop (S i) l !! (j - S i) = Some v) as Hv.
    { rewrite lookup_drop. rewrite <- Hj. f_equal. lia. }
    rewrite <- (take_drop_middle _ _ _ Hv).
    apply sublist_inserts_l. apply sublist_skip. apply sublist_nil_l.
  - induction l as [|x l IH]; intros Hsub; [by apply sublist_nil_r in Hsub|].
    apply sublist_cons_r in Hsub as [Hsub|(l' & [= <- <-] & Hv)].
    + destruct (IH Hsub) as (i & j & Hij & Hi & Hj).
      exists (S i), (S j). split_and!; [lia|done|done].
    + assert (v ∈ l) as [j Hj]%list_elem_of_lookup_1.
      { apply (elem_of_sublist [v]); [by left|done]. }
      exists 0, (S j). split_and!; [lia|done|done].
Qed.

(** Where [insertStable] puts [x]: behind the leading elements that [comp]
    puts before it. *)
Lemma insertStable_split {A} (comp : A -> A -> bool) x (l : list A) :
  exists l1 l2,
    l = l1 ++ l2 /\ insertStable comp x l = l1 ++ x :: l2 /\
    Forall (fun y => comp y x = true) l1.
Proof.
  induction l as [|y l (l1 & l2 & -> & Hins & Hl1)]; simpl.
  - by exists [], [].
  - destruct (comp y x) eqn:Hyx.
    + exists (y :: l1), l2. rewrite Hins. split_and!; [done|done|by constructor].
    + by exists [], (y :: l1 ++ l2).
Qed.

(** The stable sort keeps [u] before [v] unless [comp] puts [v] before
    [u]. *)
Lemma stable_sort_keeps_order (comp : nat -> nat -> bool) (l : list nat) u v :
  precedes l u v -> comp v u = false -> precedes (stable_sort comp l) u v.
Proof.
  rewrite !precedes_sublist. intros Hsub Hvu.
  induction l as [|x l IH]; [by apply sublist_nil_r in Hsub|].
  simpl. fold (stable_sort comp l).
  destruct (insertStable_split comp x (stable_sort comp l))
    as (l1 & l2 & Hl & -> & Hl1).
  apply sublist_cons_r in Hsub as [Hsub|(l' & [= <- <-] & Hv)].
  - etrans; [exact (IH Hsub)|]. rewrite Hl.
    apply sublist_app; [done|]. by apply sublist_cons.
  - apply sublist_inserts_l. apply sublist_skip.
    assert (v ∈ l1 ++ l2) as [Hin|Hin]%elem_of_app.
    { rewrite <- Hl, stable_sort_perm. apply (elem_of_sublist [v]); [by left|done]. }
    + rewrite Forall_forall in Hl1. by rewrite (Hl1 v Hin) in Hvu.
    + apply list_elem_of_split in Hin as (l3 & l4 & ->).
      apply sublist_inserts_l. apply sublist_skip. apply sublist_nil_l.
Qed.

(** In a list without duplicates no two elements stand before each other. *)
Lemma precedes_asym (l : list nat) u v :
  NoDup l -> precedes l u v -> ~ precedes l v u.
Proof.
  intros Hnodup (i & j & Hij & Hi & Hj) (i' & j' & Hij' & Hi' & Hj').
  pose proof (NoDup_lookup _ _ _ _ Hnodup Hi Hj').
  pose proof (NoDup_lookup _ _ _ _ Hnodup Hj Hi'). lia.
Qed.

(** The elements at increasing positions form a sublist. *)
Lemma lookups_sublist {A} (es : list A) : forall ks F,
  StronglySorted lt ks ->
  Forall2 (fun k e => es !! k = Some e) ks F ->
  F `sublist_of` es.
Proof.
  induction es as [|x es IH]; intros ks F Hsorted HF.
  - destruct HF as [|k e ks F Hk _]; [done|]. done.
  - assert (forall ks F, Forall (fun k => 0 < k) ks -> StronglySorted lt ks ->
              Forall2 (fun k e => (x :: es) !! k = Some e) ks F ->
              F `sublist_of` es) as Htail.
    { intros ks' F' Hpos Hs HF'. apply (IH (pred <$> ks')).
      - clear HF'. induction Hs as [|k ks'' Hs IHs Hk]; [constructor|].
        apply Forall_cons in Hpos as [Hk0 Hpos]. rewrite fmap_cons.
        constructor; [by apply IHs|].
        apply Forall_fmap. rewrite Forall_forall in Hk, Hpos. apply Forall_forall.
        intros k' Hk'. specialize (Hk k' Hk'). specialize (Hpos k' Hk'). simpl. lia.
      - apply Forall2_fmap_l. clear Hs.
        induction HF' as [|k e ks'' F'' Hk _ IH']; [constructor|].
        apply Forall_cons in Hpos as [Hk0 Hpos].
        constructor; [|by apply IH'].
        destruct k; [lia|done]. }
    destruct HF as [|k e ks F Hk HF]; [apply sublist_nil_l|].
    apply StronglySorted_inv in Hsorted as [Hsorted Hall].
    destruct k as [|k].
    + injection Hk as <-. apply sublist_skip. apply (Htail ks F); [|done|done].
      eapply Forall_impl; [exact Hall|]. simpl. intros; lia.
    + apply sublist_cons. apply (Htail (S k :: ks) (e :: F)).
      * constructor; [lia|]. eapply Forall_impl; [exact Hall|]. simpl. intros; lia.
      * by constructor.
      * by constructor.
Qed.

Lemma lookups_exist {A} (es : list A) ks :
  Forall (fun k => k < length es) ks ->
  exists F, Forall2 (fun k e => es !! k = Some e) ks F.
Proof.
  induction 1 as [|k ks Hk _ [F HF]]; [by exists []|].
  destruct (lookup_lt_is_Some_2 _ _ Hk) as [e He].
  exists (e :: F). by constructor.
Qed.

Section Restructure.
Context {D : Type} {ops : DoubleOps D} {ext : Collaborators D}.
Implicit Types (s : Bush D) (b : list (EdgeVector D)) (g : ABGraph D)
  (es : EdgeVector D) (e : BushEdge D).

(** The swaps move the edges at the positions [rks], which decrease and lie
    below [hi], to the positions just below [hi], the largest position last;
    nothing at or above [hi] moves. *)
Lemma swapToTail_Ret rks : forall es hi,
  hi <= length es ->
  Forall (fun m => m < hi) rks ->
  StronglySorted (fun m m' => m' < m) rks ->
  exists moved,
    swapToTail es hi rks = Ret moved /\
    moved ≡ₚ es /\ length moved = length es /\ length rks <= hi /\
    (forall i, hi <= i -> moved !! i = es !! i) /\
    (forall j m, rks !! j = Some m -> moved !! (hi - S j) = es !! m).
Proof.
  induction rks as [|m rks IH]; intros es hi Hhi Hlt Hsorted; simpl.
  - exists es. split_and!; [done|done|done|lia|done|].
    intros j m Hj. by rewrite lookup_nil in Hj.
  - apply Forall_cons in Hlt as [Hm Hlt].
    apply StronglySorted_inv in Hsorted as [Hsorted Hbelow].
    destruct hi as [|k]; [lia|].
    destruct (lookup_lt_is_Some_2 es k) as [a Ha]; [lia|].
    destruct (lookup_lt_is_Some_2 es m) as [c Hc]; [lia|].
    rewrite (proj2 (idx_Ret _ _ _) Ha), (proj2 (idx_Ret _ _ _) Hc). simpl.
    destruct (IH (<[k:=c]> (<[m:=a]> es)) k)
      as (moved & Hrun & Hperm & Hlen & Hc' & Habove & Hpos).
    { rewrite !length_insert. lia. }
    { eapply Forall_impl; [exact Hbelow|]. simpl. lia. }
    { done. }
    rewrite !length_insert in Hlen.
    exists moved. split_and!; [done| |done|lia| |].
    + rewrite Hperm. by apply swap_Permutation.
    + intros i Hi. rewrite Habove by lia.
      rewrite list_lookup_insert_ne by lia. by rewrite list_lookup_insert_ne by lia.
    + rewrite Forall_forall in Hbelow. intros [|j] m' Hj; simpl in Hj.
      * injection Hj as <-. rewrite Nat.sub_0_r, Habove by lia.
        rewrite list_lookup_insert_eq; [done|]. rewrite length_insert. lia.
      * pose proof (Hbelow _ (list_elem_of_lookup_2 _ _ _ Hj)).
        replace (S k - S (S j)) with (k - S j) by lia.
        rewrite (Hpos _ _ Hj).
        rewrite list_lookup_insert_ne by lia. by rewrite list_lookup_insert_ne by lia.
Qed.

Lemma StronglySorted_reverse {A} (R : A -> A -> Prop) (l : list A) :
  StronglySorted R l -> StronglySorted (fun x y => R y x) (reverse l).
Proof.
  induction 1 as [|x l _ IH Hx]; [constructor|].
  rewrite reverse_cons. apply StronglySorted_app_2; [|done|by repeat constructor].
  intros y x' Hy ->%list_elem_of_singleton. rewrite Forall_forall in Hx.
  apply Hx. by apply elem_of_reverse.
Qed.

Lemma swapDirection_Ret g e :
  underlyingEdge e < length (arcs g) ->
  swapDirection g e
  = Ret (reversed e, setArcs g (alter reversedArc (underlyingEdge e) (arcs g))).
Proof.
  intros [a Ha]%lookup_lt_is_Some_2. unfold swapDirection.
  rewrite (proj2 (idx_Ret _ _ _) Ha). simpl. do 3 f_equal.
  apply list_eq. intros i. destruct (decide (i = underlyingEdge e)) as [->|Hi].
  - rewrite list_lookup_insert_eq by (by eapply lookup_lt_Some).
    by rewrite list_lookup_alter_eq, Ha.
  - rewrite list_lookup_insert_ne by done. by rewrite list_lookup_alter_ne.
Qed.

(** The loop over the last entries pushes the reversal of each onto the
    in-edges of its former source and reverses the arc under it. *)
Lemma reverseEdges_Ret node (F : list (BushEdge D)) : forall b g,
  Forall (fun e => fromNode e <> node /\ fromNode e < length b /\
                   underlyingEdge e < length (arcs g)) F ->
  exists b' g',
    foldM (reverseEdge node) (b, g) F = Ret (b', g') /\
    length b' = length b /\
    (forall v, b' !! v
               = (fun old => old ++ (reversed <$> filter (fun e => fromNode e = v) F))
                 <$> b !! v) /\
    g' = setArcs g (arcsReversed F (arcs g)).
Proof.
  induction F as [|e F IH]; intros b g HF; simpl.
  - exists b, g. split_and!; [done|done| |by destruct g]. intros v.
    destruct (b !! v); simpl; [|done]. by rewrite app_nil_r.
  - apply Forall_cons in HF as [(Hne & Hfrom & Harc) HF].
    rewrite swapDirection_Ret by done. simpl.
    destruct (lookup_lt_is_Some_2 b (fromNode e) Hfrom) as [target Htarget].
    rewrite (proj2 (idx_Ret _ _ _) Htarget). simpl.
    rewrite decide_False by done. simpl.
    destruct (IH (<[fromNode e:=target ++ [reversed e]]> b)
                 (setArcs g (alter reversedArc (underlyingEdge e) (arcs g))))
      as (b' & g' & Hrun & Hlen & Hb' & Hg').
    { eapply Forall_impl; [exact HF|]. intros e' (? & ? & ?). simpl.
      by rewrite length_insert, length_alter. }
    exists b', g'. rewrite length_insert in Hlen. split_and!; [done..| |done].
    intros v. rewrite Hb', filter_cons.
    destruct (decide (fromNode e = v)) as [<-|Hv].
    + rewrite list_lookup_insert_eq by done. rewrite Htarget. simpl.
      by rewrite <- app_assoc.
    + by rewrite list_lookup_insert_ne by done.
Qed.

(** One run of changes: the flagged in-edges [F] of [node], those at the
    positions [ks] of its vector [es], leave it and arrive, reversed, at
    their former sources. *)
Lemma applyGroup_Ret s node ks es :
  bush s !! node = Some es ->
  StronglySorted lt ks ->
  Forall (fun k => k < length es) ks ->
  (forall k e, k ∈ ks -> es !! k = Some e ->
     fromNode e <> node /\ fromNode e < length (bush s) /\
     underlyingEdge e < length (arcs (graph s))) ->
  exists s' F new,
    applyGroup s (node, ks) = Ret s' /\
    Forall2 (fun k e => es !! k = Some e) ks F /\
    new ++ F ≡ₚ es /\
    bush s' !! node = Some new /\
    (forall v, v <> node ->
       bush s' !! v
       = (fun old => old ++ (reversed <$> filter (fun e => fromNode e = v) F))
         <$> bush s !! v) /\
    length (bush s') = length (bush s) /\
    graph s' = setArcs (graph s) (arcsReversed F (arcs (graph s))) /\
    s' = setGraph (setBush s (bush s')) (graph s').
Proof.
  intros Hes Hsorted Hlt Hflagged. unfold applyGroup.
  rewrite (proj2 (idx_Ret _ _ _) Hes). simpl.
  destruct (swapToTail_Ret (reverse ks) es (length es))
    as (moved & -> & Hperm & Hlen & Hc & _ & Hpos); [done|by apply Forall_reverse| |].
  { by apply StronglySorted_reverse in Hsorted. }
  rewrite length_reverse in Hc. simpl.
  set (l := length es - length ks) in *.
  assert (Forall2 (fun k e => es !! k = Some e) ks (drop l moved)) as HF.
  { apply Forall2_same_length_lookup_2.
    - rewrite length_drop. lia.
    - intros p k e Hk He. rewrite lookup_drop in He.
      pose proof (lookup_lt_Some _ _ _ Hk) as Hp.
      rewrite <- (Hpos (length ks - S p) k).
      + rewrite <- He. f_equal. lia.
      + rewrite reverse_lookup by lia. rewrite <- Hk. f_equal. lia. }
  destruct (reverseEdges_Ret node (drop l moved) (<[node:=moved]> (bush s)) (graph s))
    as (b' & g' & -> & Hlenb & Hb' & Hg').
  { apply Forall_lookup. intros p e He.
    destruct (Forall2_lookup_r _ _ _ _ _ HF He) as (k & Hk & Hke).
    rewrite length_insert. apply (Hflagged k e); [|done].
    by eapply list_elem_of_lookup_2. }
  simpl. rewrite length_insert in Hlenb. pose proof (lookup_lt_Some _ _ _ Hes) as Hnode.
  eexists _, (drop l moved), (take l moved). split_and!; [done|done| | | | |done| ].
  - by rewrite take_drop.
  - simpl. apply list_lookup_insert_eq. lia.
  - intros v Hv. simpl. rewrite list_lookup_insert_ne by done.
    rewrite Hb'. by rewrite list_lookup_insert_ne by done.
  - simpl. by rewrite length_insert.
  - done.
Qed.

Lemma ungroup_groupChanges (l : list (nat * nat)) : ungroup (groupChanges l) = l.
Proof.
  induction l as [|[node k] l IH]; [done|]. simpl.
  destruct (groupChanges l) as [|[node' ks] G]; simpl in *.
  - by rewrite <- IH.
  - destruct (decide (node' = node)) as [->|Hne]; simpl; by rewrite <- IH.
Qed.

Lemma arcsReversed_length F (l : list (GraphEdge D)) :
  length (arcsReversed F l) = length l.
Proof.
  revert l. induction F as [|e F IH]; intros l; simpl; [done|].
  by rewrite IH, length_alter.
Qed.

Lemma flaggedEdges_cons b node k C :
  flaggedEdges b ((node, k) :: C)
  = match b !! node ≫= fun es => es !! k with
    | Some e => (node, e) :: flaggedEdges b C
    | None => flaggedEdges b C
    end.
Proof.
  unfold flaggedEdges. cbn [omap list_omap].
  destruct (b !! node) as [es|]; simpl; [|done]. by destruct (es !! k).
Qed.

Lemma flaggedEdges_app b C C' :
  flaggedEdges b (C ++ C') = flaggedEdges b C ++ flaggedEdges b C'.
Proof. apply omap_app. Qed.

Lemma flaggedEdges_run b node ks es F :
  b !! node = Some es ->
  Forall2 (fun k e => es !! k = Some e) ks F ->
  flaggedEdges b (pair node <$> ks) = pair node <$> F.
Proof.
  intros Hes. induction 1 as [|k e ks F Hk _ IH]; [done|].
  cbn [fmap list_fmap]. rewrite flaggedEdges_cons, Hes. simpl. rewrite Hk.
  cbn [fmap list_fmap] in IH. by rewrite IH.
Qed.

Lemma flaggedEdges_ext b b' C :
  (forall node k, (node, k) ∈ C ->
     (b' !! node ≫= fun es => es !! k) = (b !! node ≫= fun es => es !! k)) ->
  flaggedEdges b' C = flaggedEdges b C.
Proof.
  intros Hsame. unfold flaggedEdges. apply list_omap_ext.
  apply Forall2_same_length_lookup_2; [done|].
  intros i [node k] [node' k'] Hi Hi'. rewrite Hi in Hi'. injection Hi' as <- <-.
  specialize (Hsame node k (list_elem_of_lookup_2 _ _ _ Hi)).
  destruct (b' !! node) as [es'|], (b !! node) as [es|]; simpl in *.
  - by rewrite Hsame.
  - by rewrite Hsame.
  - by rewrite <- Hsame.
  - done.
Qed.

Lemma flaggedEdges_nodes b C ue : ue ∈ flaggedEdges b C -> exists k, (ue.1, k) ∈ C.
Proof.
  unfold flaggedEdges. intros ([node k] & Hin & Hue)%list_elem_of_omap.
  destruct (b !! node) as [es|]; simpl in Hue; [|done].
  destruct (es !! k); simpl in Hue; [|done]. injection Hue as <-. by exists k.
Qed.

Lemma ungroup_nodes G node k : (node, k) ∈ ungroup G -> node ∈ G.*1.
Proof.
  unfold ungroup. intros ([node' ks] & Hin & HG)%list_elem_of_bind.
  apply list_elem_of_fmap in Hin as (k' & [= -> ->] & _).
  apply list_elem_of_fmap. by exists (node', ks).
Qed.

Lemma filter_run_fst node (F : list (BushEdge D)) v :
  (filter (fun ue : nat * BushEdge D => ue.1 = v) (pair node <$> F)).*2
  = if decide (node = v) then F else [].
Proof.
  induction F as [|e F IH]; [by destruct (decide _)|].
  rewrite fmap_cons, filter_cons. cbn [fst].
  destruct (decide (node = v)); [|done]. by rewrite fmap_cons, IH.
Qed.

Lemma filter_run_snd node (F : list (BushEdge D)) v :
  (filter (fun ue : nat * BushEdge D => fromNode ue.2 = v) (pair node <$> F)).*2
  = filter (fun e => fromNode e = v) F.
Proof.
  induction F as [|e F IH]; [done|].
  rewrite fmap_cons, !filter_cons. cbn [snd].
  destruct (decide (fromNode e = v)); [|done]. by rewrite fmap_cons, IH.
Qed.

Lemma filter_none {A} (P : A -> Prop) `{!forall x, Decision (P x)} (l : list A) :
  (forall x, x ∈ l -> ~ P x) -> filter P l = [].
Proof.
  induction l as [|x l IH]; intros Hl; [done|].
  rewrite filter_cons_False by (apply Hl; by left).
  apply IH. intros y Hy. apply Hl. by right.
Qed.

Lemma leaving_none b C v : (forall k, (v, k) ∉ C) -> leaving b C v = [].
Proof.
  intros Hv. unfold leaving.
  destruct (filter _ _) as [|ue l] eqn:Hf; [done|]. exfalso.
  assert (ue ∈ filter (fun ue : nat * BushEdge D => ue.1 = v) (flaggedEdges b C))
    as [Hue Hin]%list_elem_of_filter by (rewrite Hf; by left).
  apply flaggedEdges_nodes in Hin as [k Hk]. rewrite Hue in Hk. by apply (Hv k).
Qed.

(** All the runs: every in-edge vector loses its flagged edges and gains the
    reversals of the flagged edges that started from its node; the arcs under
    the flagged edges are reversed. *)
Lemma applyGroups_Ret G : forall s,
  wellFormedRuns (bush s) (length (arcs (graph s))) G ->
  exists s',
    foldM applyGroup s G = Ret s' /\
    length (bush s') = length (bush s) /\
    (forall v old, bush s !! v = Some old ->
       exists new, bush s' !! v = Some new /\
         new ++ leaving (bush s) (ungroup G) v
         ≡ₚ old ++ arriving (bush s) (ungroup G) v) /\
    graph s'
    = setArcs (graph s)
              (arcsReversed (flaggedEdges (bush s) (ungroup G)).*2 (arcs (graph s))) /\
    s' = setGraph (setBush s (bush s')) (graph s').
Proof.
  induction G as [|[node ks] G IH]; intros s [Hnodup Hruns].
  - exists s. split_and!; [done|done| |by destruct s as [? ? ? ? ? ? []]|by destruct s].
    intros v old Hv. exists old. split; [done|].
    unfold leaving, arriving. simpl. by rewrite !app_nil_r.
  - apply Forall_cons in Hruns as [(es & Hes & Hsorted & Hlt & Hflagged) Hruns].
    simpl in Hnodup. apply NoDup_cons in Hnodup as [Hnode Hnodup].
    destruct (applyGroup_Ret s node ks es Hes Hsorted Hlt Hflagged)
      as (s1 & F & new1 & Hrun1 & HF & Hnew1 & Hnode1 & Hother1 & Hlen1 & Hg1 & Hs1).
    (* the flagged positions of the later runs designate the same edges *)
    assert (forall u k, u <> node ->
              forall esu, bush s !! u = Some esu -> k < length esu ->
                (bush s1 !! u ≫= fun es => es !! k) = esu !! k) as Hsame.
    { intros u k Hu esu Hesu Hk. rewrite (Hother1 u Hu), Hesu. simpl.
      by apply lookup_app_l. }
    destruct (IH s1) as (s' & Hrun & Hlen & Hbush & Hgraph & Hs').
    { split; [done|]. rewrite Forall_forall in Hruns. apply Forall_forall.
      intros [u ks'] Hin. destruct (Hruns _ Hin) as (esu & Hesu & Hs & Hl & Hf).
      assert (u <> node) as Hu.
      { intros ->. apply Hnode. apply list_elem_of_fmap. by exists (node, ks'). }
      eexists. split; [by rewrite (Hother1 u Hu), Hesu|]. split_and!; [done| |].
      - eapply Forall_impl; [exact Hl|]. intros k Hk. simpl in *.
        rewrite length_app. lia.
      - rewrite Forall_forall in Hl. intros k e Hk He.
        rewrite lookup_app_l in He by (by apply Hl).
        rewrite Hlen1, Hg1. simpl. rewrite arcsReversed_length. by apply (Hf k e). }
    assert (flaggedEdges (bush s1) (ungroup G) = flaggedEdges (bush s) (ungroup G))
      as Hflg.
    { apply flaggedEdges_ext. intros u k Huk.
      pose proof (ungroup_nodes _ _ _ Huk) as Hu.
      unfold ungroup in Huk. apply list_elem_of_bind in Huk as ([u' ks'] & Huk & Hin).
      apply list_elem_of_fmap in Huk as (k' & [= -> ->] & Hk').
      rewrite Forall_forall in Hruns.
      destruct (Hruns _ Hin) as (esu & Hesu & _ & Hl & _).
      rewrite Forall_forall in Hl. rewrite Hesu. simpl.
      apply Hsame; [by intros ->|done|by apply Hl]. }
    assert (flaggedEdges (bush s) (ungroup ((node, ks) :: G))
            = (pair node <$> F) ++ flaggedEdges (bush s) (ungroup G)) as Hsplit.
    { unfold ungroup at 1. rewrite bind_cons. fold (ungroup G).
      by rewrite flaggedEdges_app, (flaggedEdges_run _ _ _ _ _ Hes HF). }
    assert (forall v, leaving (bush s1) (ungroup G) v = leaving (bush s) (ungroup G) v)
      as Hleaving by (intros v; unfold leaving; by rewrite Hflg).
    assert (forall v, arriving (bush s1) (ungroup G) v = arriving (bush s) (ungroup G) v)
      as Harriving by (intros v; unfold arriving; by rewrite Hflg).
    exists s'. split_and!.
    + cbn [foldM]. by rewrite Hrun1.
    + by rewrite Hlen, Hlen1.
    + intros v old Hv. unfold leaving, arriving. rewrite Hsplit.
      rewrite !filter_app, !fmap_app, filter_run_fst, filter_run_snd.
      fold (leaving (bush s) (ungroup G) v) (arriving (bush s) (ungroup G) v).
      destruct (decide (node = v)) as [<-|Hv'].
      * destruct (Hbush node new1 Hnode1) as (new & Hnew & Hperm).
        exists new. split; [done|]. rewrite Hleaving, Harriving in Hperm.
        rewrite Hes in Hv. injection Hv as <-.
        assert (leaving (bush s) (ungroup G) node = []) as Hnone.
        { apply leaving_none. intros k Hk. by apply Hnode, (ungroup_nodes _ _ k). }
        assert (filter (fun e => fromNode e = node) F = []) as ->.
        { apply filter_none. intros e [p He]%list_elem_of_lookup_1.
          destruct (Forall2_lookup_r _ _ _ _ _ HF He) as (k & Hk & Hke).
          by apply (Hflagged k e); [eapply list_elem_of_lookup_2|]. }
        rewrite Hnone, app_nil_r in *. simpl. rewrite Hperm, <- Hnew1.
        rewrite <- !(assoc_L (++)). f_equiv. apply Permutation_app_comm.
      * destruct (Hbush v (old ++ (reversed <$> filter (fun e => fromNode e = v) F)))
          as (new & Hnew & Hperm).
        { by rewrite (Hother1 v) by done; rewrite Hv. }
        exists new. split; [done|]. rewrite Hleaving, Harriving in Hperm.
        simpl. by rewrite Hperm, <- (assoc_L (++)).
    + rewrite Hgraph, Hflg, Hsplit, Hg1. simpl. f_equal.
      rewrite fmap_app, <- list_fmap_compose, list_fmap_id.
      unfold arcsReversed. by rewrite foldl_app.
    + rewrite Hs' at 1. rewrite Hs1. by destruct s.
Qed.

Lemma applyBushEdgeChanges_Ret s :
  pendingWellFormed s ->
  exists s',
    applyBushEdgeChanges s = Ret s' /\
    (forall v old, bush s !! v = Some old ->
       exists new, bush s' !! v = Some new /\
         new ++ leaving (bush s) (changes s) v ≡ₚ old ++ arriving (bush s) (changes s) v) /\
    graph s'
    = setArcs (graph s)
              (arcsReversed (flaggedEdges (bush s) (changes s)).*2 (arcs (graph s))) /\
    s' = setGraph (setBush s (bush s')) (graph s').
Proof.
  intros Hwf. unfold applyBushEdgeChanges.
  destruct (applyGroups_Ret _ s Hwf) as (s' & Hrun & _ & Hbush & Hgraph & Hs').
  rewrite ungroup_groupChanges in Hbush, Hgraph. by exists s'.
Qed.

(** In a list sorted by max distance, a node with a smaller max distance
    stands before one with a larger. *)
Lemma sorted_precedes (md : nat -> D) (order : list nat) u v :
  (forall a b : D, dlt a b = true -> dlt b a = false) ->
  StronglySorted (fun i j => dlt (md j) (md i) = false) order ->
  u ∈ order -> v ∈ order -> dlt (md u) (md v) = true ->
  precedes order u v.
Proof.
  intros Hasym Hsorted [i Hi]%list_elem_of_lookup_1 [j Hj]%list_elem_of_lookup_1 Huv.
  exists i, j. split; [|done].
  destruct (Nat.lt_total i j) as [Hij|[->|Hji]]; [done| |].
  - rewrite Hi in Hj. injection Hj as ->. by rewrite (Hasym _ _ Huv) in Huv.
  - pose proof (StronglySorted_lookup_lt _ _ _ _ _ _ Hsorted Hji Hj Hi) as Hvu.
    simpl in Hvu. by rewrite Huv in Hvu.
Qed.

(** The flagged in-edges of a node are among its in-edges, each as often as
    it is flagged. *)
Lemma leaving_submseteq b n G v old :
  wellFormedRuns b n G -> b !! v = Some old ->
  leaving b (ungroup G) v ⊆+ old.
Proof.
  intros [Hnodup Hruns] Hv. induction G as [|[node ks] G IH].
  - unfold leaving. simpl. apply submseteq_nil_l.
  - apply Forall_cons in Hruns as [(es & Hes & Hsorted & Hlt & _) Hruns].
    simpl in Hnodup. apply NoDup_cons in Hnodup as [Hnode Hnodup].
    destruct (lookups_exist es ks Hlt) as [F HF].
    assert (flaggedEdges b (ungroup ((node, ks) :: G))
            = (pair node <$> F) ++ flaggedEdges b (ungroup G)) as Hsplit.
    { unfold ungroup at 1. rewrite bind_cons. fold (ungroup G).
      by rewrite flaggedEdges_app, (flaggedEdges_run _ _ _ _ _ Hes HF). }
    unfold leaving. rewrite Hsplit, filter_app, fmap_app, filter_run_fst.
    fold (leaving b (ungroup G) v).
    destruct (decide (node = v)) as [->|Hne]; [|by apply IH].
    rewrite leaving_none, app_nil_r.
    + rewrite Hes in Hv. injection Hv as <-.
      by apply sublist_submseteq, (lookups_sublist es ks).
    + intros k Hk. by apply Hnode, (ungroup_nodes _ _ k).
Qed.

(** A flagged edge starts from a node of the bush. *)
Lemma flagged_source b n G v k es e :
  wellFormedRuns b n G -> (v, k) ∈ ungroup G ->
  b !! v = Some es -> es !! k = Some e ->
  fromNode e < length b.
Proof.
  intros [_ Hruns] Hin Hv Hk. unfold ungroup in Hin.
  apply list_elem_of_bind in Hin as ([node ks] & Hin & HG).
  apply list_elem_of_fmap in Hin as (k' & [= -> ->] & Hk').
  rewrite Forall_forall in Hruns.
  destruct (Hruns _ HG) as (es' & Hes' & _ & _ & Hflagged).
  rewrite Hv in Hes'. injection Hes' as <-. by apply (Hflagged k' e).
Qed.

(** A flagged edge that joined two nodes whose max distances the sort does
    not tell apart, and whose source stood before its target, leaves an
    ordering in which its reversal runs backwards. *)
Lemma reversed_tie_backwards s s' :
  pendingWellFormed s ->
  (forall v old, bush s !! v = Some old ->
     exists new, bush s' !! v = Some new /\
       new ++ leaving (bush s) (changes s) v
       ≡ₚ old ++ arriving (bush s) (changes s) v) ->
  topologicalOrdering s'
  = stable_sort (fun i j => dlt (maxDistOf s i) (maxDistOf s j))
                (topologicalOrdering s) ->
  NoDup (topologicalOrdering s) ->
  forall v inEdges k e,
    (v, k) ∈ changes s -> bush s !! v = Some inEdges -> inEdges !! k = Some e ->
    toNode e = v ->
    tied (maxDistOf s (fromNode e)) (maxDistOf s v) = true ->
    precedes (topologicalOrdering s) (fromNode e) v ->
    precedes (topologicalOrdering s') (fromNode e) v /\
    (exists new, bush s' !! fromNode e = Some new /\ reversed e ∈ new) /\
    ~ validOrdering s'.
Proof.
  intros Hwf Hbush Horder Hnodup v inEdges k e Hin Hv Hk Hto Htied Hbefore.
  apply andb_prop in Htied as [_ Hvu%negb_true_iff].
  assert (precedes (topologicalOrdering s') (fromNode e) v) as Hkept.
  { rewrite Horder. by apply stable_sort_keeps_order. }
  unfold pendingWellFormed in Hwf.
  assert ((v, k) ∈ ungroup (groupChanges (changes s))) as Hin'
    by (by rewrite ungroup_groupChanges).
  pose proof (flagged_source _ _ _ _ _ _ _ Hwf Hin' Hv Hk) as Hfrom.
  destruct (lookup_lt_is_Some_2 _ _ Hfrom) as [old Hold].
  destruct (Hbush _ _ Hold) as (new & Hnew & Hperm).
  assert (reversed e ∈ new) as Harrived.
  { pose proof (leaving_submseteq _ _ _ _ _ Hwf Hold) as Hsub.
    rewrite ungroup_groupChanges in Hsub.
    apply submseteq_Permutation in Hsub as [rest Hrest].
    rewrite Hrest in Hperm. rewrite (Permutation_app_comm new) in Hperm.
    rewrite <- (assoc_L (++)) in Hperm. apply Permutation_app_inv_l in Hperm.
    rewrite Hperm. apply elem_of_app. right.
    unfold arriving. apply list_elem_of_fmap. exists e. split; [done|].
    apply list_elem_of_fmap. exists (v, e). split; [done|].
    apply list_elem_of_filter. split; [done|].
    unfold flaggedEdges. apply list_elem_of_omap. exists (v, k). split; [done|].
    rewrite Hv. simpl. by rewrite Hk. }
  split_and!; [done|by exists new|].
  intros Hvalid. specialize (Hvalid _ _ _ Hnew Harrived). simpl in Hvalid.
  rewrite Hto in Hvalid.
  refine (precedes_asym _ _ _ _ Hkept Hvalid).
  rewrite Horder. by rewrite stable_sort_perm.
Qed.

(** C5, as amended.  [updateEdges] returns true exactly when the pending
    list was not empty, and leaves it empty.  When the pending list is not
    empty and is as a tree build leaves it, and the scratch buffer and the
    node array are large enough for the ordering, [updateEdges] returns, and:
    every flagged in-edge has left the in-edge vector of its node and its
    reversal has joined the in-edge vector of its former source (the vector
    of every node [v] is, up to the order, the old one without the edges
    [leaving] and with the edges [arriving]); the arc under every flagged
    edge has its ends swapped; the ordering is the old one stably sorted by
    max distance; the node labels are untouched.  That ordering is a valid
    topological ordering provided [<] is a strict weak order and every edge
    of the restructured bush joins nodes of the ordering and has a source of
    strictly smaller max distance than its target.  It is not valid when the
    ordering had no duplicates and some flagged edge joined two nodes of
    equal max distance, its source standing before its target: the sort keeps
    the two in that order, and the reversed edge, now an in-edge of the
    former source, starts behind its target. *)
Theorem updateEdges_restructures s :
  (forall again s',
     updateEdges s = Ret (again, s') ->
     (again = true <-> changes s <> []) /\ changes s' = []) /\
  (changes s <> [] ->
   pendingWellFormed s ->
   length (topologicalOrdering s) <= length (tempStore s) ->
   Forall (fun i => i < length (sharedNodes s)) (topologicalOrdering s) ->
   exists s',
     updateEdges s = Ret (true, s') /\
     changes s' = [] /\ sharedNodes s' = sharedNodes s /\ origin s' = origin s /\
     (forall v old, bush s !! v = Some old ->
        exists new, bush s' !! v = Some new /\
          new ++ leaving (bush s) (changes s) v
          ≡ₚ old ++ arriving (bush s) (changes s) v) /\
     graph s'
     = setArcs (graph s)
               (arcsReversed (flaggedEdges (bush s) (changes s)).*2 (arcs (graph s))) /\
     topologicalOrdering s'
     = stable_sort (fun i j => dlt (maxDistOf s i) (maxDistOf s j))
                   (topologicalOrdering s) /\
     ((forall a b : D, dlt a b = true -> dlt b a = false) ->
      (forall a b c : D, dlt a b = false -> dlt b c = false -> dlt a c = false) ->
      (forall v inEdges e,
         bush s' !! v = Some inEdges -> e ∈ inEdges ->
         fromNode e ∈ topologicalOrdering s /\ v ∈ topologicalOrdering s /\
         dlt (maxDistOf s (fromNode e)) (maxDistOf s v) = true) ->
      validOrdering s') /\
     (NoDup (topologicalOrdering s) ->
      forall v inEdges k e,
        (v, k) ∈ changes s -> bush s !! v = Some inEdges -> inEdges !! k = Some e ->
        toNode e = v ->
        tied (maxDistOf s (fromNode e)) (maxDistOf s v) = true ->
        precedes (topologicalOrdering s) (fromNode e) v ->
        precedes (topologicalOrdering s') (fromNode e) v /\
        (exists new, bush s' !! fromNode e = Some new /\ reversed e ∈ new) /\
        ~ validOrdering s')).
Proof.
  split.
  - intros again s'. unfold updateEdges.
    destruct (changes s) as [|c C] eqn:HC.
    + intros [= <- <-]. by rewrite HC.
    + intros Hrun. inv_ret. simplify_eq. done.
  - intros HC Hwf Hstore Hnodes.
    destruct (applyBushEdgeChanges_Ret s Hwf) as (s1 & Hrun1 & Hbush & Hgraph & Hs1).
    destruct (topologicalSort_Ret s1)
      as (s2 & Hrun2 & Horder & Hnodes2 & Hbush2 & Hgraph2 & _ & Horigin2 & _).
    { rewrite Hs1. by simpl. }
    { rewrite Hs1. by simpl. }
    assert (forall i, maxDistOf s1 i = maxDistOf s i) as Hmd.
    { intros i. unfold maxDistOf. rewrite Hs1. by simpl. }
    assert (topologicalOrdering s1 = topologicalOrdering s) as Hord1
      by (rewrite Hs1; by simpl).
    exists (setChanges s2 []). split_and!.
    + unfold updateEdges. destruct (changes s); [done|].
      by rewrite Hrun1; simpl; rewrite Hrun2.
    + done.
    + simpl. rewrite Hnodes2, Hs1. by simpl.
    + simpl. rewrite Horigin2, Hs1. by simpl.
    + simpl. by rewrite Hbush2.
    + simpl. by rewrite Hgraph2.
    + simpl. rewrite Horder, Hord1. apply stable_sort_ext. intros i j.
      by rewrite !Hmd.
    + intros Hasym Hnegtrans Hedges v inEdges e Hv He. simpl in *.
      destruct (Hedges v inEdges e Hv He) as (Hfrom & Hto & Hlt).
      rewrite Horder, Hord1.
      rewrite (stable_sort_ext _ (fun i j => dlt (maxDistOf s i) (maxDistOf s j)))
        by (intros i j; by rewrite !Hmd).
      apply (sorted_precedes (maxDistOf s)); [done| | | |done].
      * apply (stable_sort_sorted (fun i j => dlt (maxDistOf s i) (maxDistOf s j)));
          [intros a b; apply Hasym|intros a b c; apply Hnegtrans].
      * by rewrite stable_sort_perm.
      * by rewrite stable_sort_perm.
    + intros Hnodup. apply (reversed_tie_backwards s (setChanges s2 [])); [done| | |done].
      * intros v old Hv. simpl. rewrite Hbush2. by apply Hbush.
      * simpl. rewrite Horder, Hord1. apply stable_sort_ext. intros i j.
        by rewrite !Hmd.
Qed.

End Restructure.

Lemma zeroArcPending_wellFormed : pendingWellFormed zeroArcPending.
Proof.
  split; [apply (bool_decide_unpack _); by vm_compute|].
  constructor; [|constructor].
  eexists. split; [reflexivity|]. split_and!.
  - repeat constructor.
  - repeat constructor.
  - intros k e ->%list_elem_of_singleton [= <-]. simpl. split_and!; lia.
Qed.

(** After a tree build on the zero-length arc 0→1, whose ends both have the
    max distance 0, [updateEdges] reverses the arc and the stable sort keeps
    the ordering 0, 1: the in-edge 1→0 of node 0 now starts behind its
    target. *)
Lemma updateEdges_keeps_tied_order :
  @buildTrees Z Z_ops zeroArcExt zeroArcState = Ret zeroArcPending /\
  pendingWellFormed zeroArcPending /\
  exists s',
    @updateEdges Z Z_ops zeroArcPending = Ret (true, s') /\
    topologicalOrdering s' = [0; 1] /\
    bush s' !! 0
    = Some [{| fromNode := 1; toNode := 0; underlyingEdge := 0; flow := 1%Z |}] /\
    ~ validOrdering s'.
Proof.
  split; [vm_compute; reflexivity|]. split; [exact zeroArcPending_wellFormed|].
  eexists. split_and!; [vm_compute; reflexivity..|].
  intros Hvalid.
  destruct (Hvalid 0 _ _ eq_refl (list_elem_of_here _ _)) as (i & j & Hij & Hi & Hj).
  destruct i as [|[|i]], j as [|[|j]]; simpl in *; try done; lia.
Qed.

Lemma detourPending_wellFormed : pendingWellFormed detourPending.
Proof.
  split; [apply (bool_decide_unpack _); by vm_compute|].
  constructor; [|constructor].
  eexists. split; [reflexivity|]. split_and!.
  - repeat constructor.
  - repeat constructor.
  - intros k e ->%list_elem_of_singleton [= <-]. simpl. split_and!; lia.
Qed.

Lemma updateEdges_restructures_detour :
  (exists s',
     @updateEdges Z Z_ops detourPending = Ret (true, s') /\
     changes s' = [] /\
     topologicalOrdering s' = [0; 2; 1] /\
     validOrdering s') /\
  (exists s',
     @updateEdges Z Z_ops zeroArcPending = Ret (true, s') /\
     topologicalOrdering s' = [0; 1] /\
     ~ validOrdering s').
Proof.
  split.
  - destruct (proj2 (@updateEdges_restructures Z Z_ops detourPending))
      as (s' & Hrun & Hchanges & _ & _ & _ & _ & Horder & Hvalid & _).
    + done.
    + exact detourPending_wellFormed.
    + simpl. lia.
    + repeat (constructor; [simpl; lia|]). constructor.
    + exists s'. split_and!; [done|done|by rewrite Horder|].
      vm_compute in Hrun. injection Hrun as <-.
      apply Hvalid.
      * intros a b. simpl. rewrite Z.ltb_lt, Z.ltb_ge. lia.
      * intros a b c. simpl. rewrite !Z.ltb_ge. lia.
      * intros v inEdges e Hv He.
        destruct v as [|[|[|v]]]; simpl in Hv; [| | |done]; injection Hv as <-.
        -- by apply elem_of_nil in He.
        -- apply elem_of_cons in He as [->|He];
             [|apply list_elem_of_singleton in He as ->];
             (split_and!; [by apply (bool_decide_unpack _)..|reflexivity]).
        -- apply list_elem_of_singleton in He as ->.
           split_and!; [by apply (bool_decide_unpack _)..|reflexivity].
  - destruct (proj2 (@updateEdges_restructures Z Z_ops zeroArcPending))
      as (s' & Hrun & _ & _ & _ & _ & _ & Horder & _ & Htie).
    + done.
    + exact zeroArcPending_wellFormed.
    + simpl. lia.
    + repeat (constructor; [simpl; lia|]). constructor.
    + exists s'. split_and!; [done|by rewrite Horder|].
      refine (proj2 (proj2 (Htie _ 1 _ 0 _ _ eq_refl eq_refl eq_refl eq_refl _))).
      * apply (bool_decide_unpack _). by vm_compute.
      * by apply list_elem_of_singleton.
      * exists 0, 1. split_and!; [lia|done|done].
Defined.

(** ** The pending changes a tree build leaves *)

Lemma foldM_Ret_Forall {A B} (P : B -> Prop) (f : A -> B -> outcome A) l a a' :
  (forall a b a', f a b = Ret a' -> P b) -> foldM f a l = Ret a' -> Forall P l.
Proof.
  intros Hf. revert a. induction l as [|b l IH]; intros a Hrun; [done|].
  simpl in Hrun. apply bind_Ret in Hrun as (a1 & Hstep & Hrun).
  constructor; [by eapply Hf|by eapply IH].
Qed.

Lemma ungroup_cons v ks (R : list (nat * list nat)) :
  ungroup ((v, ks) :: R) = (pair v <$> ks) ++ ungroup R.
Proof. done. Qed.

Lemma groupChanges_runs (R : list (nat * list nat)) :
  NoDup R.*1 ->
  groupChanges (ungroup R) = filter (fun r => r.2 <> []) R.
Proof.
  induction R as [|[v ks] R IH]; intros Hnodup; [done|].
  rewrite fmap_cons in Hnodup. apply NoDup_cons in Hnodup as [Hv Hnodup].
  specialize (IH Hnodup). rewrite ungroup_cons.
  assert (forall k ks', groupChanges ((pair v <$> k :: ks') ++ ungroup R)
                        = (v, k :: ks') :: filter (fun r => r.2 <> []) R) as Hrun.
  { intros k ks'. revert k. induction ks' as [|k' ks' IHks]; intros k.
    - cbn [fmap list_fmap app groupChanges]. rewrite IH.
      destruct (filter _ R) as [|[node' ks''] G] eqn:HG; [done|].
      rewrite decide_False; [done|]. intros ->. apply Hv.
      assert ((v, ks'') ∈ filter (fun r : nat * list nat => r.2 <> []) R)
        as [_ Hin]%list_elem_of_filter by (rewrite HG; by left).
      apply list_elem_of_fmap. by exists (v, ks'').
    - specialize (IHks k'). cbn [fmap list_fmap app groupChanges] in *.
      rewrite IHks. by rewrite decide_True. }
  destruct ks as [|k ks].
  - simpl. rewrite IH. by rewrite filter_cons_False by (simpl; tauto).
  - rewrite Hrun. by rewrite filter_cons_True.
Qed.

Section Pending.
Context {D : Type} {ops : DoubleOps D} {ext : Collaborators D}.
Implicit Types (s : Bush D) (N : list (BushNode D)) (es : EdgeVector D).

(** The scan of the in-edges of a node appends a run of increasing
    positions. *)
Lemma updateEdges3_Ret N es maxDist_ id chg : forall chg',
  updateEdges3 N es maxDist_ id chg = Ret chg' ->
  exists ks, chg' = chg ++ (pair id <$> ks) /\
             StronglySorted lt ks /\ Forall (fun k => k < length es) ks.
Proof.
  unfold updateEdges3. induction es as [|e es IH] using rev_ind; intros chg' Hrun.
  - injection Hrun as <-. exists []. split_and!; [by rewrite app_nil_r|constructor|done].
  - rewrite imap_app, foldM_app in Hrun.
    apply bind_Ret in Hrun as (chg1 & Hrun1 & Hrun).
    destruct (IH _ Hrun1) as (ks & -> & Hsorted & Hlt). simpl in Hrun.
    apply bind_Ret in Hrun as (chg2 & Hstep & [= <-]).
    apply bind_Ret in Hstep as (u & _ & [= <-]).
    rewrite Nat.add_0_r. destruct (dlt (maxDist u) maxDist_).
    + exists ks. split_and!; [done..|].
      eapply Forall_impl; [exact Hlt|]. intros k Hk. simpl in Hk.
      rewrite length_app. lia.
    + exists (ks ++ [length es]). split_and!.
      * by rewrite fmap_app, (assoc_L (++)).
      * apply StronglySorted_app_2; [|done|by repeat constructor].
        intros k k' Hk ->%list_elem_of_singleton. rewrite Forall_forall in Hlt.
        by apply Hlt.
      * apply Forall_app. split.
        -- eapply Forall_impl; [exact Hlt|]. intros k Hk. simpl in Hk.
           rewrite length_app. lia.
        -- repeat constructor. rewrite length_app. simpl. lia.
Qed.

(** The sources and the arcs of the in-edges examined are within the node
    array and the graph. *)
Lemma updateInDistances_Ret N g id es v :
  updateInDistances N g id es = Ret v ->
  Forall (fun e => fromNode e < length N /\ underlyingEdge e < length (arcs g)) es.
Proof.
  unfold updateInDistances. intros Hrun.
  apply (foldM_Ret_Forall
           (fun ke : nat * BushEdge D =>
              fromNode ke.2 < length N /\ underlyingEdge ke.2 < length (arcs g)))
    in Hrun.
  - apply Forall_forall. intros e [k Hk]%list_elem_of_lookup_1.
    rewrite Forall_forall in Hrun. apply (Hrun (k, e)).
    apply elem_of_lookup_imap. by exists k, e.
  - intros a [k e] a' Hstep. unfold examineInEdge, length_ in Hstep. inv_ret.
    simpl. split; by eapply lookup_lt_Some.
Qed.

Lemma buildNodes_pending rest : forall s s',
  foldM buildNode s rest = Ret s' ->
  exists R, R.*1 = rest /\ changes s' = changes s ++ ungroup R /\ Forall (runOf s) R.
Proof.
  induction rest as [|v rest IH]; intros s s' Hrun.
  - injection Hrun as <-. exists []. split_and!; [done| |done].
    by rewrite app_nil_r.
  - simpl in Hrun. apply bind_Ret in Hrun as (s1 & Hstep & Hrun).
    destruct (IH _ _ Hrun) as (R & HR & Hchanges & Hruns).
    pose proof (sameButTrees_fields _ _ (buildNode_frame _ _ _ Hstep))
      as (_ & Hbush & Hgraph & _).
    pose proof (buildNode_length _ _ _ Hstep) as Hlen.
    unfold buildNode in Hstep.
    apply bind_Ret in Hstep as (old & _ & Hstep).
    apply bind_Ret in Hstep as (es & Hes%idx_Ret & Hstep).
    apply bind_Ret in Hstep as (x & Hx & Hstep).
    apply bind_Ret in Hstep as (chg & Hchg & [= <-]).
    apply updateEdges3_Ret in Hchg as (ks & -> & Hsorted & Hlt).
    apply updateInDistances_Ret in Hx.
    exists ((v, ks) :: R). split_and!.
    + by rewrite fmap_cons, HR.
    + rewrite Hchanges, ungroup_cons. cbn [changes setChanges].
      by rewrite (assoc_L (++)).
    + constructor; [by exists es|].
      eapply Forall_impl; [exact Hruns|]. intros p (es' & ? & ? & ? & Hall).
      exists es'. simpl in *. by rewrite length_insert in Hall.
Qed.

(** On a bush whose ordering names no node twice after its head, whose
    in-edge vectors are as many as its nodes and hold no edge from a node to
    itself, the pending changes a tree build leaves are well formed. *)
Lemma buildTrees_pendingWellFormed s s' :
  NoDup (tail (topologicalOrdering s)) ->
  length (bush s) = length (sharedNodes s) ->
  (forall v inEdges e, bush s !! v = Some inEdges -> e ∈ inEdges -> fromNode e <> v) ->
  buildTrees s = Ret s' ->
  pendingWellFormed s'.
Proof.
  intros Hnodup Hlen Hloops Hbuild.
  pose proof (sameButTrees_fields _ _ (buildTrees_frame _ _ Hbuild))
    as (_ & Hbush & Hgraph & _).
  unfold buildTrees in Hbuild. apply bind_Ret in Hbuild as (root & _ & Hbuild).
  apply buildNodes_pending in Hbuild as (R & HR & Hchanges & Hruns).
  simpl in *. unfold pendingWellFormed, wellFormedRuns.
  rewrite Hchanges, groupChanges_runs by (by rewrite HR).
  rewrite Hbush, Hgraph. split.
  - rewrite <- HR in Hnodup. eapply sublist_NoDup; [exact Hnodup|].
    apply fmap_sublist, sublist_filter.
  - apply Forall_forall. intros [v ks] [_ Hin]%list_elem_of_filter.
    rewrite Forall_forall in Hruns.
    destruct (Hruns _ Hin) as (es & Hes & Hsorted & Hlt & Hall). simpl in *.
    exists es. split_and!; [done..|]. intros k e _ Hk.
    rewrite Forall_forall in Hall.
    destruct (Hall e (list_elem_of_lookup_2 _ _ _ Hk)) as [Hfrom Harc].
    rewrite length_insert in Hfrom. split_and!; [|lia|done].
    by eapply Hloops, list_elem_of_lookup_2.
Qed.

End Pending.

(** * Further properties

    What the code shows beyond the claims above: when its calls return and
    what they leave. *)

(** ** Calls that cannot throw or loop *)

Lemma idx_unchecked {A} (v : list A) i :
  idx v i <> OutOfRange /\ idx v i <> OutOfFuel.
Proof. unfold idx. by destruct (v !! i). Qed.

Lemma at_unchecked_fuel {A} (v : list A) i : at_ v i <> OutOfFuel.
Proof. unfold at_. by destruct (v !! i). Qed.

Lemma at_Z_Ret {A} (v : list A) (i : Z) x :
  at_Z v i = Ret x <-> (0 <= i)%Z /\ v !! Z.to_nat i = Some x.
Proof.
  unfold at_Z. destruct (Z.ltb_spec i 0).
  - split; [done|lia].
  - rewrite at_Ret. split; [done|tauto].
Qed.

Lemma foldM_unchecked {A B} (f : A -> B -> outcome A) l a :
  (forall a b, f a b <> OutOfRange /\ f a b <> OutOfFuel) ->
  foldM f a l <> OutOfRange /\ foldM f a l <> OutOfFuel.
Proof.
  intros Hf. revert a. induction l as [|b l IH]; intros a; simpl; [done|].
  destruct (Hf a b) as [H1 H2]. destruct (f a b) as [a'| | |]; simpl; auto.
Qed.

Lemma foldM_defined {A B} (P : B -> Prop) (f : A -> B -> outcome A) l a :
  (forall a b, P b -> exists a', f a b = Ret a') ->
  Forall P l -> exists a', foldM f a l = Ret a'.
Proof.
  intros Hf Hl. revert a. induction Hl as [|b l Hb Hl IH]; intros a; simpl.
  - by eexists.
  - destruct (Hf a b Hb) as (a1 & ->). simpl. apply IH.
Qed.

Lemma foldM_not_in {A B} (f : A -> B -> outcome A) (bad : outcome A) l a :
  (forall a', bad <> Ret a') ->
  (forall a b, b ∈ l -> f a b <> bad) -> foldM f a l <> bad.
Proof.
  intros Hbad. revert a. induction l as [|b l IH]; intros a Hf; simpl; [done|].
  pose proof (Hf a b (list_elem_of_here _ _)) as Hb.
  destruct (f a b) as [a'| | |]; simpl; try done.
  apply IH. intros a'' b' Hb'. apply Hf. by right.
Qed.

(** ** When a tree build returns, and the labels it writes *)

Section Definedness.
Context {D : Type} {ops : DoubleOps D} {ext : Collaborators D}.
Implicit Types (s : Bush D) (N : list (BushNode D)) (es : EdgeVector D).

Lemma examineInEdge_unchecked N g id v ke :
  examineInEdge N g id v ke <> OutOfRange /\ examineInEdge N g id v ke <> OutOfFuel.
Proof.
  destruct ke as [k e]. unfold examineInEdge, length_, idx.
  destruct (N !! fromNode e); simpl; [|done].
  by destruct (arcs g !! underlyingEdge e).
Qed.

Lemma flagInEdge_unchecked N maxDist_ id chg ke :
  flagInEdge N maxDist_ id chg ke <> OutOfRange /\
  flagInEdge N maxDist_ id chg ke <> OutOfFuel.
Proof.
  destruct ke as [k e]. unfold flagInEdge, idx. by destruct (N !! fromNode e).
Qed.

Lemma buildNode_unchecked s id :
  buildNode s id <> OutOfRange /\ buildNode s id <> OutOfFuel.
Proof.
  unfold buildNode, idx.
  destruct (sharedNodes s !! id); simpl; [|done].
  destruct (bush s !! id) as [es|]; simpl; [|done].
  pose proof (foldM_unchecked (examineInEdge (sharedNodes s) (graph s) id) (imap pair es)
                {| minDist := invalidMin; maxDist := invalidMax; minPredecessor := None |}
                (examineInEdge_unchecked _ _ _)) as [H1 H2].
  unfold updateInDistances.
  destruct (foldM _ _ _) as [v| | |]; simpl; try done.
  pose proof (foldM_unchecked
                (flagInEdge (<[id:=v]> (sharedNodes s)) (maxDist v) id) (imap pair es)
                (changes s) (flagInEdge_unchecked _ _ _)) as [H3 H4].
  unfold updateEdges3. by destruct (foldM _ _ _).
Qed.

Lemma buildTrees_unchecked s :
  buildTrees s <> OutOfRange /\ buildTrees s <> OutOfFuel.
Proof.
  unfold buildTrees, idx.
  destruct (sharedNodes s !! getOrigin (origin s)); simpl; [|done].
  apply foldM_unchecked, buildNode_unchecked.
Qed.

Lemma imap_pair_Forall (P : BushEdge D -> Prop) es :
  Forall P es -> Forall (fun ke : nat * BushEdge D => P ke.2) (imap pair es).
Proof.
  rewrite !Forall_forall. intros HP [k e] (k' & e' & [= <- <-] & He)%elem_of_lookup_imap.
  apply HP. by eapply list_elem_of_lookup_2.
Qed.

Lemma updateInDistances_defined N g id es :
  edgesWithin N g es -> exists v, updateInDistances N g id es = Ret v.
Proof.
  intros Hes%imap_pair_Forall. unfold updateInDistances.
  eapply foldM_defined; [|exact Hes].
  intros v [k e] [[u Hu]%lookup_lt_is_Some_2 [a Ha]%lookup_lt_is_Some_2].
  unfold examineInEdge, length_, idx. simpl in *. rewrite Hu, Ha. simpl. by eexists.
Qed.

Lemma updateEdges3_defined N g es maxDist_ id chg :
  edgesWithin N g es -> exists chg', updateEdges3 N es maxDist_ id chg = Ret chg'.
Proof.
  intros Hes%imap_pair_Forall. unfold updateEdges3.
  eapply foldM_defined; [|exact Hes].
  intros c [k e] [[u Hu]%lookup_lt_is_Some_2 _].
  unfold flagInEdge, idx. simpl in *. rewrite Hu. simpl. by eexists.
Qed.

Lemma edgesWithin_length N N' g es :
  length N' = length N -> edgesWithin N g es -> edgesWithin N' g es.
Proof. unfold edgesWithin. by intros ->. Qed.

Lemma buildNode_defined s id es :
  id < length (sharedNodes s) -> bush s !! id = Some es ->
  edgesWithin (sharedNodes s) (graph s) es ->
  exists s', buildNode s id = Ret s'.
Proof.
  intros [v Hv]%lookup_lt_is_Some_2 Hes Hin. unfold buildNode, idx.
  rewrite Hv, Hes. simpl.
  destruct (updateInDistances_defined _ _ id _ Hin) as (x & ->). simpl.
  destruct (updateEdges3_defined (<[id:=x]> (sharedNodes s)) (graph s) es (maxDist x) id
              (changes s)) as (chg & ->).
  { eapply edgesWithin_length; [|exact Hin]. apply length_insert. }
  simpl. by eexists.
Qed.

Lemma buildNode_Ret s id s' :
  buildNode s id = Ret s' ->
  id < length (sharedNodes s) /\
  exists es, bush s !! id = Some es /\ edgesWithin (sharedNodes s) (graph s) es.
Proof.
  unfold buildNode. intros Hrun.
  apply bind_Ret in Hrun as (old & Hold%idx_Ret & Hrun).
  apply bind_Ret in Hrun as (es & Hes%idx_Ret & Hrun).
  apply bind_Ret in Hrun as (x & Hx%updateInDistances_Ret & _).
  split; [by eapply lookup_lt_Some|]. by exists es.
Qed.

(** The loop of [buildTrees] returns exactly when its lookups stay within
    the vectors. *)
Lemma buildNodes_defined rest : forall s,
  Forall (fun id => id < length (sharedNodes s) /\
                    exists es, bush s !! id = Some es /\
                               edgesWithin (sharedNodes s) (graph s) es) rest <->
  exists s', foldM buildNode s rest = Ret s'.
Proof.
  induction rest as [|id rest IH]; intros s.
  - split; [by eexists|done].
  - assert (forall s1, buildNode s id = Ret s1 ->
              (Forall (fun id => id < length (sharedNodes s) /\
                         exists es, bush s !! id = Some es /\
                                    edgesWithin (sharedNodes s) (graph s) es) rest <->
               Forall (fun id => id < length (sharedNodes s1) /\
                         exists es, bush s1 !! id = Some es /\
                                    edgesWithin (sharedNodes s1) (graph s1) es) rest))
      as Hsame.
    { intros s1 Hstep.
      pose proof (sameButTrees_fields _ _ (buildNode_frame _ _ _ Hstep))
        as (_ & -> & -> & _).
      unfold edgesWithin. by rewrite (buildNode_length _ _ _ Hstep). }
    rewrite Forall_cons. simpl. split.
    + intros [(Hid & es & Hes & Hin) Hrest].
      destruct (buildNode_defined s id es Hid Hes Hin) as (s1 & Hstep).
      rewrite Hstep. simpl. apply IH. by apply (Hsame s1 Hstep).
    + intros (s' & (s1 & Hstep & Hrun)%bind_Ret).
      split; [by eapply buildNode_Ret|]. apply (Hsame s1 Hstep), IH. by exists s'.
Qed.

(** The nodes a tree build has visited are within the node array. *)
Lemma buildTrees_visited s s1 :
  buildTrees s = Ret s1 ->
  Forall (fun id => id < length (sharedNodes s1)) (tail (topologicalOrdering s)).
Proof.
  intros Hbuild. rewrite (buildTrees_length _ _ Hbuild).
  unfold buildTrees in Hbuild. apply bind_Ret in Hbuild as (root & _ & Hbuild).
  assert (exists s', foldM buildNode
            (setChanges (setSharedNodes s (<[getOrigin (origin s):=setDistance d0 root]>
                                             (sharedNodes s))) [])
            (tail (topologicalOrdering s)) = Ret s') as Hdef by (by exists s1).
  apply buildNodes_defined in Hdef. simpl in Hdef. rewrite length_insert in Hdef.
  eapply Forall_impl; [exact Hdef|]. by intros id [? _].
Qed.

(** X1.  [buildTrees] looks everything up with [operator[]]: it throws
    nothing.  It returns when its lookups stay within the vectors (the origin
    is a node; every entry of the ordering but the first is a node with an
    in-edge vector, whose edges start from a node and lie over an arc of the
    graph), and its behaviour is undefined otherwise.  The first entry of the
    ordering is not looked up, and on an empty ordering the test [i < end]
    keeps the loop from running. *)
Theorem buildTrees_returns_iff_buildable s :
  (buildable s -> exists s', buildTrees s = Ret s') /\
  (~ buildable s -> buildTrees s = Undefined).
Proof.
  assert ((exists s', buildTrees s = Ret s') <-> buildable s) as Hiff.
  { unfold buildTrees, buildable. split.
    - intros (s' & (root & Hroot%idx_Ret & Hrun)%bind_Ret).
      split; [by eapply lookup_lt_Some|].
      assert (exists s', foldM buildNode
                (setChanges (setSharedNodes s (<[getOrigin (origin s):=setDistance d0 root]>
                                                 (sharedNodes s))) [])
                (tail (topologicalOrdering s)) = Ret s') as Hdef by (by exists s').
      apply buildNodes_defined in Hdef. simpl in Hdef.
      unfold edgesWithin in *. by rewrite length_insert in Hdef.
    - intros [[root Hroot]%lookup_lt_is_Some_2 Hrest].
      rewrite (proj2 (idx_Ret _ _ _) Hroot). simpl.
      apply buildNodes_defined. simpl. unfold edgesWithin in *.
      by rewrite length_insert. }
  split; [apply Hiff|].
  intros Hnot. destruct (buildTrees_unchecked s) as [H1 H2].
  destruct (buildTrees s) as [s'| | |] eqn:Hrun; try done.
  destruct Hnot. apply Hiff. by exists s'.
Qed.

(** X2.  A tree build leaves the node array as long as it was and writes
    the labels of the origin and of the entries of the ordering but the first
    only: every other node keeps the labels it had, and the origin, if the
    ordering does not name it again, has both distances [0.0] and the min
    predecessor it had. *)
Theorem buildTrees_labels_the_ordering s s' :
  buildTrees s = Ret s' ->
  length (sharedNodes s') = length (sharedNodes s) /\
  (forall u, u <> getOrigin (origin s) -> u ∉ tail (topologicalOrdering s) ->
     sharedNodes s' !! u = sharedNodes s !! u) /\
  (getOrigin (origin s) ∉ tail (topologicalOrdering s) ->
   sharedNodes s' !! getOrigin (origin s)
   = setDistance d0 <$> sharedNodes s !! getOrigin (origin s)).
Proof.
  intros Hbuild. split; [by apply buildTrees_length|].
  unfold buildTrees in Hbuild.
  apply bind_Ret in Hbuild as (root & Hroot%idx_Ret & Hbuild).
  split.
  - intros u Hu Hrest. rewrite (buildNodes_untouched _ _ _ _ Hbuild Hrest). simpl.
    by apply list_lookup_insert_ne.
  - intros Hrest. rewrite (buildNodes_untouched _ _ _ _ Hbuild Hrest). simpl.
    rewrite Hroot. simpl. apply list_lookup_insert_eq. by eapply lookup_lt_Some.
Qed.

End Definedness.

Lemma buildTrees_returns_iff_buildable_diamond :
  (exists s', @buildTrees Z Z_ops diamondExt diamondState = Ret s') /\
  @buildTrees Z Z_ops diamondExt (setSharedNodes diamondState []) = Undefined.
Proof.
  split.
  - apply (proj1 (@buildTrees_returns_iff_buildable Z Z_ops diamondExt diamondState)).
    split; [simpl; lia|].
    repeat (constructor;
            [split; [simpl; lia|];
             eexists; split; [reflexivity|];
             repeat (constructor; [simpl; lia|]); constructor|]).
    constructor.
  - apply (proj2 (@buildTrees_returns_iff_buildable Z Z_ops diamondExt _)).
    intros [Hroot _]. simpl in Hroot. lia.
Defined.

Lemma buildTrees_labels_the_ordering_stranded :
  exists s1 out s2,
    @setUpGraph Z Z_ops strandedExt
       (initialBush strandedOrigin strandedGraph (replicate 6 freshNode)
                    (replicate 6 (0%Z, 0))) = Ret (s1, out) /\
    @buildTrees Z Z_ops strandedExt s1 = Ret s2 /\
    sharedNodes s2 !! 5 = sharedNodes s1 !! 5.
Proof.
  eassert (@setUpGraph Z Z_ops strandedExt
             (initialBush strandedOrigin strandedGraph (replicate 6 freshNode)
                          (replicate 6 (0%Z, 0))) = Ret (_, _)) as Hsetup
    by (vm_compute; reflexivity).
  match type of Hsetup with
  | _ = Ret (?s1, _) =>
      eassert (@buildTrees Z Z_ops strandedExt s1 = Ret _) as Hbuild
        by (vm_compute; reflexivity)
  end.
  eexists _, _, _. split; [exact Hsetup|]. split; [exact Hbuild|].
  destruct (@buildTrees_labels_the_ordering Z Z_ops strandedExt _ _ Hbuild)
    as (_ & Hothers & _).
  apply Hothers; [done|]. simpl. by intros ?%list_elem_of_singleton.
Defined.

(** ** What a tree build flags *)

Lemma list_filter_iff_in {A} (P Q : A -> Prop) `{!forall x, Decision (P x)}
    `{!forall x, Decision (Q x)} (l : list A) :
  (forall x, x ∈ l -> P x <-> Q x) -> filter P l = filter Q l.
Proof.
  induction l as [|x l IH]; intros HPQ; [done|].
  rewrite !filter_cons, IH by (intros y Hy; apply HPQ; by right).
  destruct (decide (P x)) as [HP|HP], (decide (Q x)) as [HQ|HQ]; try done.
  - destruct HQ. by apply (HPQ x); [left|].
  - destruct HP. by apply (HPQ x); [left|].
Qed.

Section Flags.
Context {D : Type} {ops : DoubleOps D} {ext : Collaborators D}.
Implicit Types (s : Bush D) (N : list (BushNode D)) (es : EdgeVector D).

(** The scan of the in-edges appends those whose source has a max distance
    that is not below [maxDist_]. *)
Lemma flagInEdges_Ret N maxDist_ id (l : list (nat * BushEdge D)) : forall chg chg',
  foldM (flagInEdge N maxDist_ id) chg l = Ret chg' ->
  chg' = chg ++ ((fun ke : nat * BushEdge D => (id, ke.1))
                 <$> filter (fun ke : nat * BushEdge D =>
                               dlt (default d0 (maxDist <$> N !! fromNode ke.2)) maxDist_
                               = false) l).
Proof.
  induction l as [|[k e] l IH]; intros chg chg'; simpl.
  - intros [= <-]. by rewrite app_nil_r.
  - intros (chg1 & (u & Hu%idx_Ret & [= <-])%bind_Ret & Hrun)%bind_Ret.
    rewrite (IH _ _ Hrun). rewrite filter_cons. simpl. rewrite Hu. simpl.
    destruct (dlt (maxDist u) maxDist_); simpl; [done|].
    by rewrite <- (assoc_L (++)).
Qed.

(** The loop of [buildTrees] writes the labels and the pending changes
    only. *)
Lemma buildNodes_frame rest s s' :
  foldM buildNode s rest = Ret s' -> sameButTrees s s'.
Proof.
  intros Hrun. eapply (foldM_invariant (sameButTrees s)); [| |exact Hrun].
  - intros a b a' Ha Hb. eapply sameButTrees_trans; [exact Ha|].
    by eapply buildNode_frame.
  - apply sameButTrees_refl.
Qed.

(** The loop of [buildTrees] appends, for every node it visits, the in-edges
    that are inconsistent with the labels it leaves. *)
Lemma buildNodes_flags rest : forall seen s s',
  consistentFrom (bush s) seen rest ->
  foldM buildNode s rest = Ret s' ->
  changes s' = changes s ++ (rest ≫= flaggedIn s').
Proof.
  induction rest as [|v rest IH]; intros seen s s'; simpl.
  - intros _ [= <-]. by rewrite app_nil_r.
  - intros (Hv & Hsources & Hrest) Hrun.
    apply bind_Ret in Hrun as (s1 & Hstep & Hrun).
    pose proof (sameButTrees_fields _ _ (buildNode_frame _ _ _ Hstep))
      as (_ & Hbush & _).
    rewrite <- Hbush in Hrest.
    pose proof (buildNodes_seen _ _ _ _ _ Hrest Hrun) as Hseen.
    pose proof (sameButTrees_fields _ _ (buildNodes_frame _ _ _ Hrun))
      as (_ & Hbush' & _).
    rewrite (IH _ _ _ Hrest Hrun). rewrite (assoc_L (++)). f_equal.
    unfold buildNode in Hstep.
    apply bind_Ret in Hstep as (old & Hold%idx_Ret & Hstep).
    apply bind_Ret in Hstep as (es & Hes%idx_Ret & Hstep).
    apply bind_Ret in Hstep as (nv & Hnv & Hstep).
    apply bind_Ret in Hstep as (chg & Hchg & [= <-]). simpl in *.
    unfold updateEdges3 in Hchg. rewrite (flagInEdges_Ret _ _ _ _ _ _ Hchg). f_equal.
    unfold flaggedIn. rewrite Hbush', Hes. f_equal.
    assert (maxDistOf s' v = maxDist nv) as Hmax.
    { unfold maxDistOf. rewrite Hseen by (by left).
      by rewrite list_lookup_insert_eq by (by eapply lookup_lt_Some). }
    apply list_filter_iff_in.
    intros [k e] (k' & e' & [= <- <-] & He%list_elem_of_lookup_2)%elem_of_lookup_imap.
    simpl. rewrite Hmax. unfold maxDistOf.
    rewrite (Hseen (fromNode e)); [done|]. right. by eapply Hsources.
Qed.

(** X3.  On an ordered bush the pending changes a tree build leaves are
    the in-edges that are inconsistent with the labels it leaves: for every
    node of the ordering but the first, in the order of the ordering, the
    positions of its in-edges whose source has a max distance that is not
    below its own, in the order of its in-edge vector, and nothing else. *)
Theorem buildTrees_flags s s' :
  topologicallyOrdered s -> buildTrees s = Ret s' ->
  changes s' = inconsistentEdges s'.
Proof.
  intros (Hnodup & Hhead & Hedges) Hbuild.
  pose proof (sameButTrees_fields _ _ (buildTrees_frame _ _ Hbuild))
    as (_ & _ & _ & _ & Horder).
  unfold inconsistentEdges. rewrite Horder.
  unfold buildTrees in Hbuild.
  destruct (topologicalOrdering s) as [|o rest] eqn:Hord; [done|].
  injection Hhead as ->. simpl in Hbuild.
  apply bind_Ret in Hbuild as (root & Hroot%idx_Ret & Hbuild).
  set (s0 := setChanges
               (setSharedNodes s (<[getOrigin (origin s):=setDistance d0 root]>
                                    (sharedNodes s))) []) in *.
  assert (consistentFrom (bush s0) [getOrigin (origin s)] rest) as Hcons.
  { apply (precedes_consistentFrom _ _ [getOrigin (origin s)]); [done|done|].
    intros v inEdges e Hv. apply Hedges. by right. }
  by rewrite (buildNodes_flags _ _ _ _ Hcons Hbuild).
Qed.

End Flags.

Lemma buildTrees_flags_zeroArc :
  @buildTrees Z Z_ops zeroArcExt zeroArcState = Ret zeroArcPending /\
  changes zeroArcPending = [(1, 0)] /\
  changes zeroArcPending = inconsistentEdges zeroArcPending.
Proof.
  assert (@buildTrees Z Z_ops zeroArcExt zeroArcState = Ret zeroArcPending) as Hbuild
    by (vm_compute; reflexivity).
  split; [exact Hbuild|]. split; [reflexivity|].
  exact (@buildTrees_flags Z Z_ops zeroArcExt zeroArcState zeroArcPending
           zeroArcState_ordered Hbuild).
Defined.

(** ** What the passes leave *)

Section Converged.
Context {D : Type} {ops : DoubleOps D} {ext : Collaborators D}.
Implicit Types (s : Bush D) (accuracy : D).

Lemma equilibriateAt_fields i s :
  origin (equilibriateAt i s) = origin s /\
  topologicalOrdering (equilibriateAt i s) = topologicalOrdering s /\
  tempStore (equilibriateAt i s) = tempStore s /\
  changes (equilibriateAt i s) = changes s.
Proof. unfold equilibriateAt. by destruct (equilibriate _ _ _ _) as [[g b] n]. Qed.

Lemma scan_fields accuracy l s shifted s' :
  scan accuracy l s shifted s' ->
  origin s' = origin s /\ topologicalOrdering s' = topologicalOrdering s /\
  tempStore s' = tempStore s /\ changes s' = changes s.
Proof.
  induction 1 as [s|i l s v shifted s' Hi Hv Hgap Hscan IH|i l s v shifted s' Hi Hv Hgap Hscan IH];
    [done| |done].
  destruct (equilibriateAt_fields i.1 s) as (<- & <- & <- & <-). exact IH.
Qed.

(** A scan that shifts nothing leaves the bush as it is and has found every
    gap within the accuracy. *)
Lemma scan_nothing accuracy l s shifted s' :
  scan accuracy l s shifted s' -> shifted = [] ->
  s' = s /\ Forall (withinAccuracy accuracy s) l.
Proof.
  induction 1 as [s|i l s v shifted s' Hi Hv Hgap Hscan IH|i l s v shifted s' Hi Hv Hgap Hscan IH];
    intros Hnil; [done|done|].
  destruct (IH Hnil) as [-> Hall]. split; [done|].
  constructor; [by exists v|done].
Qed.

Lemma scans_fields accuracy s shifts s' :
  scans accuracy s shifts s' ->
  origin s' = origin s /\ topologicalOrdering s' = topologicalOrdering s /\
  tempStore s' = tempStore s.
Proof.
  induction 1 as [s s' Hscan|s shifted s1 s2 shifts s' Hscan Hne Hbuild Hscans IH].
  - apply scan_fields in Hscan. tauto.
  - apply scan_fields in Hscan as (Ho & Ht & Hs & _).
    pose proof (sameButTrees_fields _ _ (buildTrees_frame _ _ Hbuild))
      as (Ho2 & _ & _ & Hs2 & Ht2).
    destruct IH as (-> & -> & ->). by rewrite Ho2, Ht2, Hs2.
Qed.

(** The scans end on a state a tree build has returned, with every gap
    within the accuracy. *)
Lemma scans_end accuracy s shifts s' :
  scans accuracy s shifts s' ->
  (exists s0, buildTrees s0 = Ret s) ->
  (exists s0, buildTrees s0 = Ret s') /\
  Forall (withinAccuracy accuracy s') (dests (origin s')).
Proof.
  induction 1 as [s s' Hscan|s shifted s1 s2 shifts s' Hscan Hne Hbuild Hscans IH];
    intros Hbuilt.
  - by apply scan_nothing in Hscan as [-> Hall].
  - apply IH. by exists s1.
Qed.

Lemma equilibriateFlows_end fuel accuracy s r s' :
  equilibriateFlows fuel accuracy s = Ret (r, s') ->
  (exists s0, buildTrees s0 = Ret s') /\
  Forall (withinAccuracy accuracy s') (dests (origin s')) /\
  origin s' = origin s /\ topologicalOrdering s' = topologicalOrdering s /\
  tempStore s' = tempStore s.
Proof.
  unfold equilibriateFlows. intros (s1 & Hbuild & Hloop)%bind_Ret.
  apply equilibriateLoop_scans in Hloop as (shifts & Hscans & _).
  destruct (scans_end _ _ _ _ Hscans) as [Hbuilt Hall]; [by exists s|].
  pose proof (sameButTrees_fields _ _ (buildTrees_frame _ _ Hbuild))
    as (Ho & _ & _ & Hs & Ht).
  apply scans_fields in Hscans as (Ho' & Ht' & Hs').
  split_and!; [done|done|congruence..].
Qed.

(** X4.  When [equilibriateFlows] returns, the gap of no destination exceeds
    the accuracy, the node labels and the pending changes are those of a tree
    build on the bush as it stands, and the origin, the topological ordering
    and the scratch buffer are as they were. *)
Theorem equilibriateFlows_converged fuel accuracy s r s' :
  equilibriateFlows fuel accuracy s = Ret (r, s') ->
  Forall (withinAccuracy accuracy s') (dests (origin s)) /\
  (exists s0, buildTrees s0 = Ret s') /\
  origin s' = origin s /\ topologicalOrdering s' = topologicalOrdering s /\
  tempStore s' = tempStore s.
Proof.
  intros (Hbuilt & Hall & Ho & Ht & Hs)%equilibriateFlows_end.
  rewrite Ho in Hall. by split_and!.
Qed.

(** An equilibration that shifts nothing is a tree build. *)
Lemma equilibriateLoop_false fuel accuracy s s' :
  equilibriateLoop fuel accuracy false s = Ret (false, s') -> s' = s.
Proof.
  intros (shifts & Hscans & Hr)%equilibriateLoop_scans. simpl in Hr.
  destruct shifts as [|shifted shifts]; [|done].
  inversion Hscans as [? ? Hscan|]; subst.
  by apply scan_nothing in Hscan as [-> _].
Qed.

(** X5.  An [equilibriateFlows] that returns [false] has done what one tree
    build does, and nothing else. *)
Theorem equilibriateFlows_false fuel accuracy s s' :
  equilibriateFlows fuel accuracy s = Ret (false, s') -> buildTrees s = Ret s'.
Proof.
  unfold equilibriateFlows. intros (s1 & Hbuild & Hloop)%bind_Ret.
  by apply equilibriateLoop_false in Hloop as ->.
Qed.

Lemma applyGroup_fields s grp s' :
  applyGroup s grp = Ret s' ->
  origin s' = origin s /\ sharedNodes s' = sharedNodes s /\
  topologicalOrdering s' = topologicalOrdering s /\ tempStore s' = tempStore s /\
  changes s' = changes s.
Proof.
  destruct grp as [node ks]. unfold applyGroup. intros Hrun.
  apply bind_Ret in Hrun as (es & _ & Hrun).
  apply bind_Ret in Hrun as (moved & _ & Hrun).
  apply bind_Ret in Hrun as ([b g] & _ & [= <-]). done.
Qed.

Lemma applyBushEdgeChanges_fields s s' :
  applyBushEdgeChanges s = Ret s' ->
  origin s' = origin s /\ sharedNodes s' = sharedNodes s /\
  topologicalOrdering s' = topologicalOrdering s /\ tempStore s' = tempStore s /\
  changes s' = changes s.
Proof.
  unfold applyBushEdgeChanges.
  apply (foldM_invariant
           (fun a => origin a = origin s /\ sharedNodes a = sharedNodes s /\
                     topologicalOrdering a = topologicalOrdering s /\
                     tempStore a = tempStore s /\ changes a = changes s));
    [|done].
  intros a grp a' (<- & <- & <- & <- & <-) Hstep. by eapply applyGroup_fields.
Qed.

Lemma fillStore_snd (N : list (BushNode D)) order filled :
  fillStore N order = Ret filled -> filled.*2 = order.
Proof.
  revert filled. induction order as [|i order IH]; intros filled; simpl.
  - by intros [= <-].
  - intros (v & _ & (rest & Hrest & [= <-])%bind_Ret)%bind_Ret.
    by rewrite fmap_cons, (IH _ Hrest).
Qed.

Lemma topologicalSort_fields s s' :
  topologicalSort s = Ret s' ->
  origin s' = origin s /\ sharedNodes s' = sharedNodes s /\ bush s' = bush s /\
  graph s' = graph s /\ changes s' = changes s /\
  topologicalOrdering s' ≡ₚ topologicalOrdering s /\
  length (tempStore s') = length (tempStore s).
Proof.
  unfold topologicalSort. case_decide as Hlen; [|done].
  intros (filled & Hfilled & [= <-])%bind_Ret. simpl. split_and!; try done.
  - rewrite <- (fillStore_snd _ _ _ Hfilled). apply fmap_Permutation, stable_sort_perm.
  - rewrite length_app, length_drop.
    rewrite (Permutation_length (stable_sort_perm _ _)).
    rewrite <- (length_fmap snd filled), (fillStore_snd _ _ _ Hfilled). lia.
Qed.

Lemma updateEdges_fields s again s' :
  updateEdges s = Ret (again, s') ->
  origin s' = origin s /\ sharedNodes s' = sharedNodes s /\
  topologicalOrdering s' ≡ₚ topologicalOrdering s /\
  length (tempStore s') = length (tempStore s).
Proof.
  unfold updateEdges. destruct (changes s); [by intros [= <- <-]|].
  intros (s1 & H1%applyBushEdgeChanges_fields & Hrun)%bind_Ret.
  apply bind_Ret in Hrun as (s2 & H2%topologicalSort_fields & [= <- <-]). simpl.
  destruct H1 as (<- & <- & <- & <- & _).
  destruct H2 as (-> & -> & _ & _ & _ & -> & ->). done.
Qed.

Lemma updateEdges_false s s' :
  updateEdges s = Ret (false, s') -> s' = s /\ changes s = [].
Proof.
  unfold updateEdges. destruct (changes s); [by intros [= <-]|].
  intros (s1 & _ & (s2 & _ & [=])%bind_Ret)%bind_Ret.
Qed.

(** X6.  When [fix] returns, no direction change is pending, the gap of no
    destination exceeds the accuracy, and the node labels are those of a tree
    build on the bush as it stands. *)
Theorem fix_converged fuel accuracy s r s' :
  fix_ fuel accuracy s = Ret (r, s') ->
  changes s' = [] /\
  Forall (withinAccuracy accuracy s') (dests (origin s')) /\
  (exists s0, buildTrees s0 = Ret s').
Proof.
  unfold fix_. intros (passes & Hrounds & _)%fixLoop_rounds.
  induction Hrounds as [s changed s1 s2 [fuel' Heq] Hup
                       |s changed s1 s2 passes s' _ _ _ IH]; [|exact IH].
  apply updateEdges_false in Hup as [-> Hnil].
  apply equilibriateFlows_end in Heq as (Hbuilt & Hall & _). done.
Qed.

(** X7.  [fix] keeps the origin with its destinations, the nodes of the
    topological ordering (it permutes them) and the length of the scratch
    buffer. *)
Theorem fix_keeps_the_nodes_of_the_ordering fuel accuracy s r s' :
  fix_ fuel accuracy s = Ret (r, s') ->
  origin s' = origin s /\
  topologicalOrdering s' ≡ₚ topologicalOrdering s /\
  length (tempStore s') = length (tempStore s).
Proof.
  unfold fix_. intros (passes & Hrounds & _)%fixLoop_rounds.
  induction Hrounds as [s changed s1 s2 [fuel' Heq] Hup
                       |s changed s1 s2 passes s' [fuel' Heq] Hup _ IH].
  - apply equilibriateFlows_end in Heq as (_ & _ & <- & <- & <-).
    apply updateEdges_fields in Hup. tauto.
  - apply equilibriateFlows_end in Heq as (_ & _ & <- & <- & <-).
    apply updateEdges_fields in Hup as (<- & _ & <- & <-). exact IH.
Qed.

Lemma topologicallyOrdered_fields s s' :
  origin s' = origin s -> bush s' = bush s ->
  topologicalOrdering s' = topologicalOrdering s ->
  topologicallyOrdered s -> topologicallyOrdered s'.
Proof. unfold topologicallyOrdered. by intros -> -> ->. Qed.

(** A tree build does not read the pending changes it is called with. *)
Lemma buildTrees_setChanges s c : buildTrees (setChanges s c) = buildTrees s.
Proof. done. Qed.

(** On a bush that satisfies the invariant of the data model, the state a
    tree build returns is a fixed point of the tree build, whatever the
    pending changes it is called with. *)
Lemma buildTrees_rebuild s s1 c :
  topologicallyOrdered s -> buildTrees s = Ret s1 ->
  buildTrees (setChanges s1 c) = Ret s1.
Proof.
  intros (Hnodup & Hhead & Hedges) Hbuild. rewrite buildTrees_setChanges.
  pose proof (sameButTrees_fields _ _ (buildTrees_frame _ _ Hbuild))
    as (Horigin & Hbush & Hgraph & Hstore & Horder).
  unfold buildTrees in *. rewrite Horigin, Horder.
  destruct (topologicalOrdering s) as [|o rest] eqn:Hord; [done|].
  injection Hhead as ->. simpl in *.
  apply bind_Ret in Hbuild as (root & Hroot%idx_Ret & Hbuild).
  set (s0 := setChanges
               (setSharedNodes s (<[getOrigin (origin s):=setDistance d0 root]>
                                    (sharedNodes s))) []) in *.
  assert (consistentFrom (bush s0) [getOrigin (origin s)] rest) as Hcons.
  { apply (precedes_consistentFrom _ _ [getOrigin (origin s)]); [done|done|].
    intros v inEdges e Hv. apply Hedges. by right. }
  assert (sharedNodes s1 !! getOrigin (origin s) = Some (setDistance d0 root)) as Ho.
  { rewrite (buildNodes_seen _ _ _ _ _ Hcons Hbuild) by (by left).
    simpl. apply list_lookup_insert_eq. by eapply lookup_lt_Some. }
  rewrite (proj2 (idx_Ret _ _ _) Ho). simpl.
  rewrite setDistance_idem, (list_insert_id _ _ _ Ho).
  pose proof (buildNodes_again _ _ _ _ Hcons Hbuild) as Hagain.
  replace (setChanges (setSharedNodes s1 (sharedNodes s1)) [])
    with (setSharedNodes s0 (sharedNodes s1)); [done|].
  clear -Horigin Hbush Hgraph Hstore Horder Hord. subst s0.
  destruct s, s1. simpl in *. by subst.
Qed.

Lemma scanDests_nothing accuracy l s thisTime :
  Forall (withinAccuracy accuracy s) l ->
  foldM (equilibriateDest accuracy) (thisTime, s) l = Ret (thisTime, s).
Proof.
  induction 1 as [|i l (v & Hi & Hv & Hgap) _ IH]; simpl; [done|].
  rewrite (proj2 (idx_Z_Ret _ _ _) (conj Hi Hv)). simpl. by rewrite Hgap.
Qed.

(** X8.  Calling [fix] again on the bush it has returned, if that bush
    satisfies the invariant of the data model, changes nothing and returns
    [false], after one equilibration of one scan and one restructuring that
    finds nothing pending. *)
Theorem fix_again fuel accuracy s r s' :
  topologicallyOrdered s' ->
  fix_ fuel accuracy s = Ret (r, s') ->
  fix_ 2 accuracy s' = Ret (false, s').
Proof.
  intros Hordered Hrun.
  assert (changes s' = [] /\ Forall (withinAccuracy accuracy s') (dests (origin s')) /\
          exists s0, buildTrees s0 = Ret s') as (Hnil & Hall & s0 & Hbuild).
  { unfold fix_ in Hrun. apply fixLoop_rounds in Hrun as (passes & Hrounds & _).
    induction Hrounds as [s changed s1 s2 [fuel' Heq] Hup
                         |s changed s1 s2 passes s' _ _ _ IH]; [|by apply IH].
    apply updateEdges_false in Hup as [-> Hnil].
    apply equilibriateFlows_end in Heq as (Hbuilt & Hall & _). done. }
  pose proof (sameButTrees_fields _ _ (buildTrees_frame _ _ Hbuild))
    as (Horigin & Hbush & _ & _ & Horder).
  assert (buildTrees s' = Ret s') as Hfixed.
  { replace s' with (setChanges s' (changes s')) at 1 by (by destruct s').
    apply (buildTrees_rebuild s0); [|done].
    by apply (topologicallyOrdered_fields s'). }
  unfold fix_. cbn [fixLoop]. unfold equilibriateFlows. rewrite Hfixed.
  cbn [mbind outcome_bind equilibriateLoop]. unfold scanDests.
  rewrite (scanDests_nothing _ _ _ _ Hall). cbn [mbind outcome_bind negb mret outcome_ret].
  unfold updateEdges. by rewrite Hnil.
Qed.

End Converged.

Lemma equilibriateFlows_converged_diamond :
  exists s',
    @equilibriateFlows Z Z_ops diamondExt 4 0%Z diamondState = Ret (true, s') /\
    Forall (withinAccuracy 0%Z s') (dests (origin diamondState)).
Proof.
  eassert (@equilibriateFlows Z Z_ops diamondExt 4 0%Z diamondState = Ret (true, _))
    as Hrun by (vm_compute; reflexivity).
  eexists. split; [exact Hrun|].
  exact (proj1 (@equilibriateFlows_converged Z Z_ops diamondExt _ _ _ _ _ Hrun)).
Defined.

Lemma equilibriateFlows_false_star :
  exists s',
    @equilibriateFlows Z Z_ops starExt 4 0%Z starState = Ret (false, s') /\
    @buildTrees Z Z_ops starExt starState = Ret s'.
Proof.
  eassert (@equilibriateFlows Z Z_ops starExt 4 0%Z starState = Ret (false, _))
    as Hrun by (vm_compute; reflexivity).
  eexists. split; [exact Hrun|].
  exact (@equilibriateFlows_false Z Z_ops starExt _ _ _ _ Hrun).
Defined.

Lemma fix_converged_diamond :
  exists s',
    @fix_ Z Z_ops diamondExt 4 0%Z diamondState = Ret (true, s') /\
    changes s' = [] /\
    Forall (withinAccuracy 0%Z s') (dests (origin s')).
Proof.
  eassert (@fix_ Z Z_ops diamondExt 4 0%Z diamondState = Ret (true, _))
    as Hrun by (vm_compute; reflexivity).
  eexists. split; [exact Hrun|].
  destruct (@fix_converged Z Z_ops diamondExt _ _ _ _ _ Hrun) as (Hnil & Hall & _).
  by split.
Defined.

Lemma fix_keeps_the_nodes_of_the_ordering_diamond :
  exists s',
    @fix_ Z Z_ops diamondExt 4 0%Z diamondState = Ret (true, s') /\
    origin s' = origin diamondState /\
    topologicalOrdering s' ≡ₚ topologicalOrdering diamondState.
Proof.
  eassert (@fix_ Z Z_ops diamondExt 4 0%Z diamondState = Ret (true, _))
    as Hrun by (vm_compute; reflexivity).
  eexists. split; [exact Hrun|].
  destruct (@fix_keeps_the_nodes_of_the_ordering Z Z_ops diamondExt _ _ _ _ _ Hrun)
    as (Horigin & Horder & _).
  by split.
Defined.

Lemma fix_again_star :
  exists s',
    @fix_ Z Z_ops starExt 4 0%Z starState = Ret (false, s') /\
    @fix_ Z Z_ops starExt 2 0%Z s' = Ret (false, s').
Proof.
  eassert (@fix_ Z Z_ops starExt 4 0%Z starState = Ret (false, _))
    as Hrun by (vm_compute; reflexivity).
  eexists. split; [exact Hrun|].
  apply (@fix_again Z Z_ops starExt 4 0%Z starState false); [|exact Hrun].
  apply (topologicallyOrdered_fields starState); [reflexivity..|].
  exact starState_ordered.
Defined.

(** ** The largest gap *)

Section MaxDifference.
Context {D : Type} {ops : DoubleOps D} {ext : Collaborators D}.
Implicit Types (s : Bush D) (accuracy : D).

Hypothesis dlt_asym : forall a b : D, dlt a b = true -> dlt b a = false.
Hypothesis dlt_negtrans :
  forall a b c : D, dlt a b = false -> dlt b c = false -> dlt a c = false.

Lemma dlt_irrefl (a : D) : dlt a a = false.
Proof using dlt_asym. destruct (dlt a a) eqn:H; [|done]. by rewrite (dlt_asym _ _ H) in H. Qed.

Lemma dlt_trans (a b c : D) : dlt a b = true -> dlt b c = true -> dlt a c = true.
Proof using dlt_asym dlt_negtrans.
  intros Hab Hbc. destruct (dlt a c) eqn:Hac; [done|].
  by rewrite (dlt_negtrans a c b Hac (dlt_asym _ _ Hbc)) in Hab.
Qed.

(** [std::max] is not below either argument, and is one of them. *)
Lemma dmax_ge (a b c : D) :
  dlt a c = false -> dlt (dmax a b) c = false.
Proof using dlt_asym dlt_negtrans.
  unfold dmax. intros Hac. destruct (dlt a b) eqn:Hab; [|done].
  destruct (dlt b c) eqn:Hbc; [|done]. by rewrite (dlt_trans _ _ _ Hab Hbc) in Hac.
Qed.

Lemma dmax_ge_r (a b : D) : dlt (dmax a b) b = false.
Proof using dlt_asym. unfold dmax. destruct (dlt a b) eqn:Hab; [apply dlt_irrefl|done]. Qed.

(** The loop of [maxDifference] over the destinations [l], from [ret]. *)
Lemma maxDifference_loop (N : list (BushNode D)) l : forall ret ret',
  foldM (fun ret (i : Z * D) => v ← idx_Z N i.1; mret (dmax ret (getDifference v))) ret l
  = Ret ret' ->
  dlt ret' ret = false /\
  Forall (fun i : Z * D => exists v, (0 <= i.1)%Z /\ N !! Z.to_nat i.1 = Some v /\
                                     dlt ret' (getDifference v) = false) l /\
  (ret' = ret \/
   exists i v, i ∈ l /\ N !! Z.to_nat i.1 = Some v /\ ret' = getDifference v).
Proof using dlt_asym dlt_negtrans.
  induction l as [|i l IH]; intros ret ret'; simpl.
  - intros [= <-]. split_and!; [apply dlt_irrefl|done|by left].
  - intros (x & (v & [Hi Hv]%idx_Z_Ret & [= <-])%bind_Ret & Hrun)%bind_Ret.
    destruct (IH _ _ Hrun) as (Hge & Hall & Hwhich). split_and!.
    + destruct (dlt ret' ret) eqn:Hlt; [|done].
      assert (dlt (dmax ret (getDifference v)) ret = false) as Hret
        by (apply dmax_ge, dlt_irrefl).
      by rewrite (dlt_negtrans _ _ _ Hge Hret) in Hlt.
    + constructor; [|done]. exists v. split_and!; [done..|].
      eapply dlt_negtrans; [exact Hge|apply dmax_ge_r].
    + destruct Hwhich as [->|(j & w & Hj & Hw & ->)].
      * unfold dmax. destruct (dlt ret (getDifference v)); [|by left].
        right. exists i, v. split_and!; [by left|done..].
      * right. exists j, w. split_and!; [by right|done..].
Qed.

(** X9.  Where [<] is a strict weak order on the distances, [maxDifference]
    returns a value that is not below [0.0] nor below the gap of any
    destination, and that is [0.0] or the gap of a destination: the largest
    gap, or [0.0] when no gap is above it; the gaps are those the tree build
    of the call leaves. *)
Theorem maxDifference_greatest s ret s' :
  maxDifference s = Ret (ret, s') ->
  dlt ret d0 = false /\
  Forall (fun i : Z * D => exists v, (0 <= i.1)%Z /\
                             sharedNodes s' !! Z.to_nat i.1 = Some v /\
                             dlt ret (getDifference v) = false) (dests (origin s)) /\
  (ret = d0 \/
   exists i v, i ∈ dests (origin s) /\ sharedNodes s' !! Z.to_nat i.1 = Some v /\
               ret = getDifference v).
Proof using dlt_asym dlt_negtrans.
  unfold maxDifference. intros (s1 & Hbuild & (x & Hloop & [= <- <-])%bind_Ret)%bind_Ret.
  pose proof (sameButTrees_fields _ _ (buildTrees_frame _ _ Hbuild)) as (<- & _).
  by apply maxDifference_loop.
Qed.

(** X10.  [equilibriateFlows] against [maxDifference], where [<] is a strict
    weak order on the distances: when the value [maxDifference] returns does
    not exceed the accuracy, [equilibriateFlows] returns [false] after one
    scan, in the state [maxDifference] leaves; when it exceeds an accuracy
    that is not negative, an [equilibriateFlows] that returns returns
    [true]. *)
Theorem equilibriateFlows_iff_maxDifference fuel accuracy s m s1 :
  maxDifference s = Ret (m, s1) ->
  (dlt accuracy m = false ->
   equilibriateFlows (S fuel) accuracy s = Ret (false, s1)) /\
  (dlt accuracy m = true -> dlt accuracy d0 = false ->
   forall r s', equilibriateFlows fuel accuracy s = Ret (r, s') -> r = true).
Proof using dlt_asym dlt_negtrans.
  unfold maxDifference. intros (s1' & Hbuild & (x & Hloop & [= <- <-])%bind_Ret)%bind_Ret.
  apply maxDifference_loop in Hloop as (Hge & Hall & Hwhich).
  unfold equilibriateFlows. rewrite Hbuild. cbn [mbind outcome_bind]. split.
  - intros Hwithin. rewrite equilibriateLoop_S. unfold scanDests.
    rewrite scanDests_nothing; [done|].
    eapply Forall_impl; [exact Hall|]. intros i (v & Hi & Hv & Hgap). exists v.
    split_and!; [done..|]. unfold dgt. by eapply dlt_negtrans.
  - intros Hbeyond Hpos r s' Hloop.
    destruct Hwhich as [->|(i & v & Hin & Hv & ->)]; [congruence|].
    apply equilibriateLoop_scans in Hloop as (shifts & Hscans & ->). simpl.
    destruct shifts as [|shifted shifts]; [|done].
    inversion Hscans as [? ? Hscan|]; subst.
    apply scan_nothing in Hscan as [-> Hnone]; [|done].
    rewrite Forall_forall in Hnone. destruct (Hnone i Hin) as (w & _ & Hw & Hgap).
    unfold dgt in Hgap. congruence.
Qed.

End MaxDifference.

Lemma maxDifference_greatest_diamond :
  exists ret s',
    @maxDifference Z Z_ops diamondExt diamondState = Ret (ret, s') /\
    (ret <? 0)%Z = false.
Proof.
  eassert (@maxDifference Z Z_ops diamondExt diamondState = Ret (_, _)) as Hrun
    by (vm_compute; reflexivity).
  eexists _, _. split; [exact Hrun|].
  refine (proj1 (@maxDifference_greatest Z Z_ops diamondExt _ _ _ _ _ Hrun)).
  - intros a b. simpl. rewrite Z.ltb_lt, Z.ltb_ge. lia.
  - intros a b c. simpl. rewrite !Z.ltb_ge. lia.
Defined.

Lemma equilibriateFlows_iff_maxDifference_diamond :
  exists m s1,
    @maxDifference Z Z_ops diamondExt diamondState = Ret (m, s1) /\
    @equilibriateFlows Z Z_ops diamondExt 1 100%Z diamondState = Ret (false, s1).
Proof.
  eassert (@maxDifference Z Z_ops diamondExt diamondState = Ret (_, _)) as Hrun
    by (vm_compute; reflexivity).
  eexists _, _. split; [exact Hrun|].
  refine (proj1 (@equilibriateFlows_iff_maxDifference Z Z_ops diamondExt _ _
                   0 100%Z _ _ _ Hrun) _).
  - intros a b. simpl. rewrite Z.ltb_lt, Z.ltb_ge. lia.
  - intros a b c. simpl. rewrite !Z.ltb_ge. lia.
  - reflexivity.
Defined.

(** ** The sort, its scratch buffer, and sorting again *)

Lemma stable_sort_sorted_id {A} (comp : A -> A -> bool) (l : list A) :
  StronglySorted (fun a b => comp b a = false) l -> stable_sort comp l = l.
Proof.
  induction 1 as [|x l Hl IH Hx]; [done|].
  unfold stable_sort in *. simpl. rewrite IH.
  destruct l as [|y l]; [done|]. simpl.
  apply Forall_cons in Hx as [-> _]. done.
Qed.

Lemma stable_sort_head {A} (comp : A -> A -> bool) (x : A) (l : list A) :
  (forall y, y ∈ l -> comp y x = false) ->
  stable_sort comp (x :: l) = x :: stable_sort comp l.
Proof.
  intros Hx. unfold stable_sort. simpl. fold (stable_sort comp l).
  assert (forall y, y ∈ stable_sort comp l -> comp y x = false) as Hx'.
  { intros y Hy. apply Hx. by rewrite <- (stable_sort_perm comp l). }
  destruct (stable_sort comp l) as [|y l']; [done|]. simpl.
  by rewrite Hx' by (by left).
Qed.

Section SortAgain.
Context {D : Type} {ops : DoubleOps D} {ext : Collaborators D}.
Implicit Types (s : Bush D) (N : list (BushNode D)).

(** The scratch pairs [fillStore] writes: each node id with the max distance
    of its node. *)
Lemma fillStore_pairs N order filled :
  fillStore N order = Ret filled ->
  Forall (fun p : D * nat => exists v, N !! p.2 = Some v /\ p.1 = maxDist v) filled.
Proof.
  revert filled. induction order as [|i order IH]; intros filled; simpl.
  - by intros [= <-].
  - intros (v & Hv%idx_Ret & (rest & Hrest & [= <-])%bind_Ret)%bind_Ret.
    constructor; [by exists v|by apply IH].
Qed.

Lemma fillStore_of_pairs N (l : list (D * nat)) :
  Forall (fun p : D * nat => exists v, N !! p.2 = Some v /\ p.1 = maxDist v) l ->
  fillStore N l.*2 = Ret l.
Proof.
  induction 1 as [|[d i] l (v & Hv & Hd) _ IH]; [done|].
  simpl in Hv, Hd. rewrite fmap_cons. cbn [fillStore snd].
  rewrite (proj2 (idx_Ret _ _ _) Hv), IH. simpl. by rewrite Hd.
Qed.

Lemma pairs_of_ids s (l : list (D * nat)) :
  Forall (fun p : D * nat => exists v, sharedNodes s !! p.2 = Some v /\ p.1 = maxDist v) l ->
  l = (fun i => (maxDistOf s i, i)) <$> l.*2.
Proof.
  induction 1 as [|[d i] l (v & Hv & Hd) _ IH]; [done|].
  simpl in Hv, Hd. rewrite !fmap_cons, <- IH. simpl.
  unfold maxDistOf. by rewrite Hv, Hd.
Qed.

Lemma fillStore_cases N order :
  (Forall (fun i => i < length N) order /\ exists filled, fillStore N order = Ret filled) \/
  (~ Forall (fun i => i < length N) order /\ fillStore N order = Undefined).
Proof.
  induction order as [|i order IH]; [left; split; [done|by eexists]|].
  cbn [fillStore]. destruct (N !! i) as [v|] eqn:Hv.
  - rewrite (proj2 (idx_Ret _ _ _) Hv). cbn [mbind outcome_bind].
    apply lookup_lt_Some in Hv.
    destruct IH as [[Hall [filled Hfilled]]|[Hnot Hundef]].
    + left. split; [by constructor|]. rewrite Hfilled. by eexists.
    + right. split; [by intros [_ ?]%Forall_cons|]. by rewrite Hundef.
  - right. split.
    + intros [Hi _]%Forall_cons. apply lookup_ge_None in Hv. lia.
    + unfold idx. by rewrite Hv.
Qed.

(** X11.  [topologicalSort] and its scratch buffer, [n] being the length of
    the ordering: the behaviour is undefined when the buffer has fewer than
    [n] pairs or the ordering names a node outside the node array; a call
    that returns leaves in the first [n] pairs the new ordering, every node
    id with the max distance of its node, and leaves the other pairs, the
    origin, the nodes, the bush, the graph and the pending changes as they
    were. *)
Theorem topologicalSort_scratch s :
  let n := length (topologicalOrdering s) in
  (~ (n <= length (tempStore s) /\
      Forall (fun i => i < length (sharedNodes s)) (topologicalOrdering s)) ->
   topologicalSort s = Undefined) /\
  (forall s', topologicalSort s = Ret s' ->
     take n (tempStore s') = (fun i => (maxDistOf s i, i)) <$> topologicalOrdering s' /\
     drop n (tempStore s') = drop n (tempStore s) /\
     origin s' = origin s /\ sharedNodes s' = sharedNodes s /\ bush s' = bush s /\
     graph s' = graph s /\ changes s' = changes s).
Proof.
  intros n. subst n. split.
  - intros Hnot. unfold topologicalSort. case_decide as Hlen; [|done].
    destruct (fillStore_cases (sharedNodes s) (topologicalOrdering s))
      as [[Hall _]|[_ ->]]; [|done].
    by destruct Hnot.
  - intros s' Hrun.
    pose proof (topologicalSort_fields _ _ Hrun) as (Ho & HN & Hb & Hg & Hc & _).
    split_and!; try done.
    + unfold topologicalSort in Hrun. case_decide as Hlen; [|done].
      apply bind_Ret in Hrun as (filled & Hfilled & [= <-]). simpl.
      assert (length (stable_sort pairComparator filled)
              = length (topologicalOrdering s)) as Hsorted.
      { rewrite (Permutation_length (stable_sort_perm _ _)).
        by rewrite <- (length_fmap snd filled), (fillStore_snd _ _ _ Hfilled). }
      rewrite take_app_length' by done.
      apply fillStore_pairs in Hfilled.
      rewrite <- (stable_sort_perm pairComparator filled) in Hfilled.
      by apply pairs_of_ids.
    + unfold topologicalSort in Hrun. case_decide as Hlen; [|done].
      apply bind_Ret in Hrun as (filled & Hfilled & [= <-]). simpl.
      rewrite drop_app_length'; [done|].
      rewrite (Permutation_length (stable_sort_perm _ _)).
      by rewrite <- (length_fmap snd filled), (fillStore_snd _ _ _ Hfilled).
Qed.

(** X12.  Where [<] is a strict weak order on the distances, sorting again
    changes nothing: [topologicalSort] returns the state it is called in when
    that state is one it has returned. *)
Theorem topologicalSort_again s s1 :
  (forall a b : D, dlt a b = true -> dlt b a = false) ->
  (forall a b c : D, dlt a b = false -> dlt b c = false -> dlt a c = false) ->
  topologicalSort s = Ret s1 ->
  topologicalSort s1 = Ret s1.
Proof.
  intros Hasym Hnegtrans. unfold topologicalSort at 1. case_decide as Hlen; [|done].
  intros (filled & Hfilled & [= <-])%bind_Ret.
  set (sorted := stable_sort pairComparator filled).
  assert (length sorted = length (topologicalOrdering s)) as Hsorted.
  { unfold sorted. rewrite (Permutation_length (stable_sort_perm _ _)).
    by rewrite <- (length_fmap snd filled), (fillStore_snd _ _ _ Hfilled). }
  unfold topologicalSort. cbn [topologicalOrdering tempStore sharedNodes
                               setTopologicalOrdering setTempStore].
  rewrite decide_True by (rewrite length_fmap, length_app, length_drop; lia).
  rewrite fillStore_of_pairs.
  2:{ unfold sorted. rewrite (stable_sort_perm pairComparator filled).
      by eapply fillStore_pairs. }
  cbn [mbind outcome_bind mret outcome_ret].
  rewrite (stable_sort_sorted_id pairComparator sorted).
  2:{ apply stable_sort_sorted; unfold pairComparator; eauto. }
  rewrite length_fmap, Hsorted, drop_app_length' by done.
  by destruct s.
Qed.

(** X13.  [topologicalSort] keeps the first entry of the ordering first when
    no node of the ordering has a max distance below that of the first entry:
    the origin stays where [buildTrees] skips it. *)
Theorem topologicalSort_keeps_head s s' o :
  head (topologicalOrdering s) = Some o ->
  (forall i, i ∈ topologicalOrdering s -> dlt (maxDistOf s i) (maxDistOf s o) = false) ->
  topologicalSort s = Ret s' ->
  head (topologicalOrdering s') = Some o.
Proof.
  intros Hhead Hleast. unfold topologicalSort. case_decide as Hlen; [|done].
  intros (filled & Hfilled & [= <-])%bind_Ret. simpl.
  pose proof (fillStore_pairs _ _ _ Hfilled) as Hpairs.
  apply pairs_of_ids in Hpairs. rewrite (fillStore_snd _ _ _ Hfilled) in Hpairs.
  destruct (topologicalOrdering s) as [|o' order]; [done|]. injection Hhead as ->.
  rewrite Hpairs, fmap_cons, stable_sort_head; [done|].
  intros [d i] (j & [= -> ->] & Hj)%list_elem_of_fmap. unfold pairComparator. simpl.
  apply Hleast. by right.
Qed.

End SortAgain.

Lemma topologicalSort_scratch_shuffled :
  @topologicalSort Z Z_ops (setTempStore shuffledState []) = Undefined /\
  exists s',
    @topologicalSort Z Z_ops shuffledState = Ret s' /\
    drop 4 (tempStore s') = drop 4 (tempStore shuffledState).
Proof.
  split.
  - apply (proj1 (@topologicalSort_scratch Z Z_ops (setTempStore shuffledState []))).
    intros [Hlen _]. simpl in Hlen. lia.
  - eassert (@topologicalSort Z Z_ops shuffledState = Ret _) as Hrun
      by (vm_compute; reflexivity).
    eexists. split; [exact Hrun|].
    destruct (proj2 (@topologicalSort_scratch Z Z_ops shuffledState) _ Hrun)
      as (_ & Hdrop & _).
    exact Hdrop.
Defined.

Lemma topologicalSort_again_shuffled :
  exists s1,
    @topologicalSort Z Z_ops shuffledState = Ret s1 /\
    @topologicalSort Z Z_ops s1 = Ret s1.
Proof.
  eassert (@topologicalSort Z Z_ops shuffledState = Ret _) as Hrun
    by (vm_compute; reflexivity).
  eexists. split; [exact Hrun|].
  apply (@topologicalSort_again Z Z_ops shuffledState); [| |exact Hrun].
  - intros a b. simpl. rewrite Z.ltb_lt, Z.ltb_ge. lia.
  - intros a b c. simpl. rewrite !Z.ltb_ge. lia.
Defined.

Lemma topologicalSort_keeps_head_shuffled :
  exists s',
    @topologicalSort Z Z_ops shuffledState = Ret s' /\
    head (topologicalOrdering s') = Some 0.
Proof.
  eassert (@topologicalSort Z Z_ops shuffledState = Ret _) as Hrun
    by (vm_compute; reflexivity).
  eexists. split; [exact Hrun|].
  apply (@topologicalSort_keeps_head Z Z_ops shuffledState); [reflexivity| |exact Hrun].
  intros i Hi. repeat (apply elem_of_cons in Hi as [->|Hi]; [reflexivity|]).
  by apply elem_of_nil in Hi.
Defined.

(** ** Restructuring conserves the flows *)

Lemma concat_insert_Permutation {A} (b : list (list A)) i old x :
  b !! i = Some old -> concat (<[i:=x]> b) ++ old ≡ₚ concat b ++ x.
Proof.
  intros Hi. rewrite insert_take_drop by (by eapply lookup_lt_Some).
  rewrite <- (take_drop_middle b i old Hi) at 3.
  rewrite !concat_app, !concat_cons, <- !(assoc_L (++)).
  apply Permutation_app_head. rewrite (comm (++) old).
  rewrite !(assoc_L (++)). apply Permutation_app_tail, Permutation_app_comm.
Qed.

Section Conserve.
Context {D : Type} {ops : DoubleOps D} {ext : Collaborators D}.
Implicit Types (s : Bush D) (b : list (EdgeVector D)) (es : EdgeVector D).

Lemma arcsAndFlows_insert b i old x :
  b !! i = Some old ->
  arcsAndFlows (<[i:=x]> b) ++ (arcAndFlow <$> old) ≡ₚ arcsAndFlows b ++ (arcAndFlow <$> x).
Proof.
  intros Hi. unfold arcsAndFlows. rewrite <- !fmap_app.
  by apply fmap_Permutation, concat_insert_Permutation.
Qed.

Lemma arcsAndFlows_push b i old (e : BushEdge D) :
  b !! i = Some old ->
  arcsAndFlows (<[i:=old ++ [e]]> b) ≡ₚ arcsAndFlows b ++ [arcAndFlow e].
Proof.
  intros Hi. pose proof (arcsAndFlows_insert b i old (old ++ [e]) Hi) as Hins.
  rewrite fmap_app in Hins. apply (Permutation_app_inv_r (arcAndFlow <$> old)).
  rewrite Hins, <- !(assoc_L (++)). apply Permutation_app_head, Permutation_app_comm.
Qed.

(** The swaps permute the vector. *)
Lemma swapToTail_Permutation rks : forall es hi moved,
  swapToTail es hi rks = Ret moved -> moved ≡ₚ es /\ length rks <= hi.
Proof.
  induction rks as [|m rks IH]; intros es hi moved; simpl.
  - intros [= <-]. split; [done|lia].
  - destruct hi as [|k]; [done|].
    intros (a & Ha%idx_Ret & (c & Hc%idx_Ret & Hrun)%bind_Ret)%bind_Ret.
    apply IH in Hrun as [Hperm Hlen]. split; [|lia].
    rewrite Hperm. by apply swap_Permutation.
Qed.

(** The reversals push every edge onto the vector of another node. *)
Lemma reverseEdges_conserve node (F : list (BushEdge D)) : forall b g b' g',
  foldM (reverseEdge node) (b, g) F = Ret (b', g') ->
  length b' = length b /\ b' !! node = b !! node /\
  arcsAndFlows b' ≡ₚ arcsAndFlows b ++ (arcAndFlow <$> F).
Proof.
  induction F as [|e F IH]; intros b g b' g'; simpl.
  - intros [= <- <-]. by rewrite app_nil_r.
  - intros ([b1 g1] & Hstep & Hrun)%bind_Ret.
    apply IH in Hrun as (Hlen & Hnode & Hperm).
    unfold reverseEdge in Hstep.
    apply bind_Ret in Hstep as ([e' g0] & Hswap & Hstep).
    apply bind_Ret in Hstep as (target & Htarget%idx_Ret & Hstep).
    case_decide as Hfrom; [done|]. injection Hstep as <- <-.
    unfold swapDirection in Hswap. apply bind_Ret in Hswap as (a & _ & [= <- _]).
    rewrite length_insert in Hlen. rewrite list_lookup_insert_ne in Hnode by done.
    split_and!; [done..|]. rewrite Hperm, (arcsAndFlows_push _ _ _ _ Htarget).
    by rewrite <- (assoc_L (++)).
Qed.

Lemma applyGroup_conserves s grp s' :
  applyGroup s grp = Ret s' ->
  length (bush s') = length (bush s) /\ arcsAndFlows (bush s') ≡ₚ arcsAndFlows (bush s).
Proof.
  destruct grp as [node ks]. unfold applyGroup. intros Hrun.
  apply bind_Ret in Hrun as (es & Hes%idx_Ret & Hrun).
  apply bind_Ret in Hrun as (moved & [Hmoved _]%swapToTail_Permutation & Hrun).
  apply bind_Ret in Hrun as ([b g] & Hfold & [= <-]). simpl.
  apply reverseEdges_conserve in Hfold as (Hlen & Hnode & Hperm).
  pose proof (lookup_lt_Some _ _ _ Hes) as Hlt.
  rewrite length_insert in Hlen. rewrite list_lookup_insert_eq in Hnode by done.
  rewrite length_insert. split; [done|].
  set (l := length es - length ks) in *.
  apply (Permutation_app_inv_r (arcAndFlow <$> moved)).
  rewrite (arcsAndFlows_insert b node moved (take l moved) Hnode), Hperm.
  pose proof (arcsAndFlows_insert (bush s) node es moved Hes) as Hins.
  rewrite <- (assoc_L (++)), <- fmap_app.
  rewrite (Permutation_app_comm (drop l moved)), take_drop.
  apply (Permutation_app_inv_r (arcAndFlow <$> es)).
  rewrite <- (assoc_L (++)), (Permutation_app_comm (arcAndFlow <$> moved)), (assoc_L (++)).
  rewrite Hins, <- !(assoc_L (++)). apply Permutation_app_head.
  by rewrite Hmoved.
Qed.

Lemma applyBushEdgeChanges_Ret_conserves s s' :
  applyBushEdgeChanges s = Ret s' ->
  length (bush s') = length (bush s) /\ arcsAndFlows (bush s') ≡ₚ arcsAndFlows (bush s).
Proof.
  unfold applyBushEdgeChanges.
  apply (foldM_invariant
           (fun a => length (bush a) = length (bush s) /\
                     arcsAndFlows (bush a) ≡ₚ arcsAndFlows (bush s))); [|done].
  intros a grp a' [<- <-] Hstep. by eapply applyGroup_conserves.
Qed.

Lemma swapDirection_flows g (e : BushEdge D) e' g' :
  swapDirection g e = Ret (e', g') -> flowsAndLengths g' = flowsAndLengths g.
Proof.
  unfold swapDirection. intros (a & Ha%idx_Ret & [= _ <-])%bind_Ret.
  unfold flowsAndLengths. simpl. rewrite list_fmap_insert.
  apply list_insert_id. by rewrite list_lookup_fmap, Ha.
Qed.

Lemma applyGroup_flows s grp s' :
  applyGroup s grp = Ret s' -> flowsAndLengths (graph s') = flowsAndLengths (graph s).
Proof.
  destruct grp as [node ks]. unfold applyGroup. intros Hrun.
  apply bind_Ret in Hrun as (es & _ & Hrun).
  apply bind_Ret in Hrun as (moved & _ & Hrun).
  apply bind_Ret in Hrun as ([b g] & Hfold & [= <-]). simpl.
  apply (foldM_invariant
           (fun st : list (EdgeVector D) * ABGraph D =>
              flowsAndLengths st.2 = flowsAndLengths (graph s))) in Hfold; [done| |done].
  intros [b0 g0] e [b1 g1] Hg0 Hstep. simpl in *. unfold reverseEdge in Hstep.
  apply bind_Ret in Hstep as ([e' g'] & Hswap%swapDirection_flows & Hstep).
  apply bind_Ret in Hstep as (target & _ & Hstep).
  case_decide; [done|]. injection Hstep as _ <-. congruence.
Qed.

Lemma applyBushEdgeChanges_flows s s' :
  applyBushEdgeChanges s = Ret s' ->
  flowsAndLengths (graph s') = flowsAndLengths (graph s).
Proof.
  unfold applyBushEdgeChanges.
  apply (foldM_invariant
           (fun a => flowsAndLengths (graph a) = flowsAndLengths (graph s))); [|done].
  intros a grp a' <- Hstep. by eapply applyGroup_flows.
Qed.

(** X14.  An [applyBushEdgeChanges] that returns has lost no bush edge and
    made none: the bush has as many in-edge vectors as before, its edges
    carry, arc by arc, the flows they carried, and every arc of the graph has
    the flow and the cached length it had. *)
Theorem applyBushEdgeChanges_conserves s s' :
  applyBushEdgeChanges s = Ret s' ->
  length (bush s') = length (bush s) /\
  arcsAndFlows (bush s') ≡ₚ arcsAndFlows (bush s) /\
  flowsAndLengths (graph s') = flowsAndLengths (graph s).
Proof.
  intros Hrun. destruct (applyBushEdgeChanges_Ret_conserves _ _ Hrun) as [Hlen Hperm].
  split_and!; [done..|]. by apply applyBushEdgeChanges_flows.
Qed.

(** A restructuring pass conserves the flows. *)
Lemma updateEdges_Ret_conserves s again s' :
  updateEdges s = Ret (again, s') ->
  arcsAndFlows (bush s') ≡ₚ arcsAndFlows (bush s) /\
  flowsAndLengths (graph s') = flowsAndLengths (graph s).
Proof.
  unfold updateEdges. destruct (changes s); [by intros [= _ <-]|].
  intros (s1 & H1 & (s2 & H2%topologicalSort_fields & [= _ <-])%bind_Ret)%bind_Ret.
  destruct H2 as (_ & _ & Hb & Hg & _). simpl. rewrite Hb, Hg.
  destruct (applyBushEdgeChanges_Ret_conserves _ _ H1) as [_ Hperm].
  split; [done|]. by apply applyBushEdgeChanges_flows.
Qed.

(** X15.  A [fix] that returns [false] has changed no flow: whatever
    directions it has reversed, the edges of the bush carry, arc by arc, the
    flows they carried, and every arc of the graph has the flow and the
    cached length it had. *)
Theorem fix_false fuel accuracy s s' :
  fix_ fuel accuracy s = Ret (false, s') ->
  arcsAndFlows (bush s') ≡ₚ arcsAndFlows (bush s) /\
  flowsAndLengths (graph s') = flowsAndLengths (graph s).
Proof.
  unfold fix_. intros (passes & Hrounds & Hr)%fixLoop_rounds. simpl in Hr.
  symmetry in Hr. apply bool_decide_eq_false in Hr.
  assert (forall s s1 fuel', equilibriateFlows fuel' accuracy s = Ret (false, s1) ->
            bush s1 = bush s /\ graph s1 = graph s) as Hsame.
  { intros a a1 fuel'. unfold equilibriateFlows.
    intros (a0 & Hbuild & ->%equilibriateLoop_false)%bind_Ret.
    pose proof (sameButTrees_fields _ _ (buildTrees_frame _ _ Hbuild)). tauto. }
  induction Hrounds as [s changed s1 s2 [fuel' Heq] Hup
                       |s changed s1 s2 passes s' [fuel' Heq] Hup _ IH].
  - destruct changed; [by destruct Hr; left|].
    destruct (Hsame _ _ _ Heq) as [<- <-]. by eapply updateEdges_Ret_conserves.
  - destruct changed; [by destruct Hr; left|].
    destruct (Hsame _ _ _ Heq) as [<- <-].
    destruct (updateEdges_Ret_conserves _ _ _ Hup) as [<- <-].
    apply IH. intros Hin. apply Hr. by right.
Qed.

(** X16.  "Move edges to be inverted to the end": on flagged positions that
    increase and lie within the vector, the swap loop of
    [applyBushEdgeChanges], which takes the last flagged position first,
    returns a permutation of the vector whose last entries are the flagged
    edges, in the order of their positions. *)
Theorem swapToTail_gathers es (ks : list nat) :
  StronglySorted lt ks -> Forall (fun k => k < length es) ks ->
  exists moved,
    swapToTail es (length es) (reverse ks) = Ret moved /\
    moved ≡ₚ es /\
    Forall2 (fun k e => es !! k = Some e) ks (drop (length es - length ks) moved).
Proof.
  intros Hsorted Hlt.
  destruct (swapToTail_Ret (reverse ks) es (length es))
    as (moved & Hrun & Hperm & Hlen & Hc & _ & Hpos); [done|by apply Forall_reverse| |].
  { by apply StronglySorted_reverse in Hsorted. }
  rewrite length_reverse in Hc. exists moved. split_and!; [done..|].
  apply Forall2_same_length_lookup_2.
  - rewrite length_drop. lia.
  - intros p k e Hk He. rewrite lookup_drop in He.
    pose proof (lookup_lt_Some _ _ _ Hk) as Hp.
    rewrite <- (Hpos (length ks - S p) k).
    + rewrite <- He. f_equal. lia.
    + rewrite reverse_lookup by lia. rewrite <- Hk. f_equal. lia.
Qed.

End Conserve.

Lemma applyBushEdgeChanges_conserves_detour :
  exists s',
    applyBushEdgeChanges detourPending = Ret s' /\
    length (bush s') = 3 /\
    arcsAndFlows (bush s') ≡ₚ arcsAndFlows (bush detourPending).
Proof.
  eassert (applyBushEdgeChanges detourPending = Ret _) as Hrun
    by (vm_compute; reflexivity).
  eexists. split; [exact Hrun|].
  destruct (applyBushEdgeChanges_conserves _ _ Hrun) as (Hlen & Hperm & _).
  by split.
Defined.

Lemma fix_false_star :
  exists s',
    @fix_ Z Z_ops starExt 4 0%Z starState = Ret (false, s') /\
    flowsAndLengths (graph s') = flowsAndLengths (graph starState).
Proof.
  eassert (@fix_ Z Z_ops starExt 4 0%Z starState = Ret (false, _))
    as Hrun by (vm_compute; reflexivity).
  eexists. split; [exact Hrun|].
  exact (proj2 (@fix_false Z Z_ops starExt _ _ _ _ Hrun)).
Defined.

Lemma swapToTail_gathers_three :
  let es := [newBushEdge (ops := Z_ops) 0 (arc 0 3 1);
             newBushEdge (ops := Z_ops) 1 (arc 1 3 1);
             newBushEdge (ops := Z_ops) 2 (arc 2 3 1)] in
  exists moved,
    swapToTail es 3 [1; 0] = Ret moved /\
    moved ≡ₚ es /\
    Forall2 (fun k e => es !! k = Some e) [0; 1] (drop 1 moved).
Proof.
  intros es. apply (swapToTail_gathers es [0; 1]).
  - repeat constructor.
  - repeat constructor.
Defined.

(** ** The constructed bush *)

Section SetUpMore.
Context {D : Type} {ops : DoubleOps D} {ext : Collaborators D}.
Implicit Types (s : Bush D) (b : list (EdgeVector D)).

Lemma reportUnreachable_all o distanceMap l : forall out out',
  foldM (reportUnreachable (D := D) o distanceMap) out l = Ret out' ->
  out' = out ++ ((fun i => (o, i.1)) <$> unreached distanceMap l).
Proof.
  unfold unreached. induction l as [|i l IH]; intros out out'; simpl.
  - intros [= <-]. by rewrite app_nil_r.
  - intros (out1 & (p & [Hi Hp]%at_Z_Ret & [= <-])%bind_Ret & Hrun)%bind_Ret.
    rewrite (IH _ _ Hrun). destruct (Z.eqb_spec p NOPOS) as [->|Hne].
    + rewrite filter_cons_True by done. by rewrite fmap_cons, <- (assoc_L (++)).
    + rewrite filter_cons_False; [done|]. congruence.
Qed.

(** X17.  The diagnostics of [setUpGraph]: one line for every destination
    whose position in the distance map of the shortest-path search is [-1],
    in the order of the destination list, each with the origin and the
    destination, and no other line. *)
Theorem setUpGraph_diagnostics s s' out :
  setUpGraph s = Ret (s', out) ->
  out = (fun i => (getOrigin (origin s), i.1))
        <$> unreached (dijkstra (graph s) (getOrigin (origin s))
                         (replicate (numVertices (graph s)) NOPOS)
                         (topologicalOrdering s)).1
                      (dests (origin s)).
Proof.
  unfold setUpGraph. destruct (dijkstra _ _ _ _) as [distanceMap order].
  intros (out' & Hout & (b & _ & [= _ <-])%bind_Ret)%bind_Ret.
  by apply reportUnreachable_all in Hout.
Qed.

(** What [setUpGraph] leaves: the ordering of the shortest-path search, and
    on every in-edge vector the arcs it accepts into the node, in the order of
    the arc vector. *)
Lemma setUpGraph_Ret s s' out :
  setUpGraph s = Ret (s', out) ->
  topologicalOrdering s'
  = (dijkstra (graph s) (getOrigin (origin s))
       (replicate (numVertices (graph s)) NOPOS) (topologicalOrdering s)).2 /\
  origin s' = origin s /\ sharedNodes s' = sharedNodes s /\ graph s' = graph s /\
  changes s' = changes s /\ tempStore s' = tempStore s /\
  length (bush s') = length (bush s) /\
  forall v,
    bush s' !! v
    = (fun inEdges =>
         inEdges ++ ((fun ka => newBushEdge ka.1 ka.2)
                     <$> filter (fun ka =>
                           pushedOnto (dijkstra (graph s) (getOrigin (origin s))
                                         (replicate (numVertices (graph s)) NOPOS)
                                         (topologicalOrdering s)).1 v ka = true)
                                (imap pair (arcs (graph s)))))
      <$> bush s !! v.
Proof.
  unfold setUpGraph. destruct (dijkstra _ _ _ _) as [distanceMap order].
  intros (out' & Hout & (b & [_ Hb]%addArcs_Ret & [= <- _])%bind_Ret)%bind_Ret.
  simpl. split_and!; try done. exact (fmap_lookup_length _ _ _ Hb).
Qed.

Lemma setUpGraph_fuel s : setUpGraph s <> OutOfFuel.
Proof.
  unfold setUpGraph. destruct (dijkstra _ _ _ _) as [distanceMap order].
  assert (foldM (reportUnreachable (D := D) (getOrigin (origin s)) distanceMap) []
                (dests (origin s)) <> OutOfFuel) as Hout.
  { apply foldM_not; [done|]. intros out i. unfold reportUnreachable.
    by destruct (at_Z_cases distanceMap i.1) as [[_ [p ->]]|[_ ->]]. }
  destruct (foldM _ [] _) as [out| | |]; simpl; try done.
  assert (foldM (addArc distanceMap) (bush s) (imap pair (arcs (graph s))) <> OutOfFuel)
    as Hb.
  { apply foldM_not; [done|]. intros b ka.
    by destruct (addArc_cases distanceMap b ka) as [[b' ->]| ->]. }
  by destruct (foldM (addArc distanceMap) _ _).
Qed.

End SetUpMore.

Section InitialFlows.
Context {D : Type} {ops : DoubleOps D} {ext : Collaborators D}.
Implicit Types (s : Bush D) (b : list (EdgeVector D)).

Lemma sameButFlows_refl s : sameButFlows s s.
Proof. split_and!; [by destruct s|done|done|]. intros k a' Hk. by left. Qed.

Lemma sameButFlows_trans s1 s2 s3 :
  sameButFlows s1 s2 -> sameButFlows s2 s3 -> sameButFlows s1 s3.
Proof.
  intros (H12 & Hshape12 & Hlayout12 & Hcost12) (H23 & Hshape23 & Hlayout23 & Hcost23).
  split_and!.
  - rewrite H23 at 1. rewrite H12 at 1. by destruct s1.
  - congruence.
  - congruence.
  - intros k a' Hk. destruct (Hcost23 k a' Hk) as [Hk2|Hcost]; [|by right].
    by apply Hcost12.
Qed.

Lemma sameButFlows_fields s s' :
  sameButFlows s s' ->
  origin s' = origin s /\ sharedNodes s' = sharedNodes s /\
  tempStore s' = tempStore s /\ topologicalOrdering s' = topologicalOrdering s /\
  changes s' = changes s.
Proof. intros (-> & _). by destruct s. Qed.

(** One step of the walk: the flow on a bush edge and on its arc. *)
Lemma loadEdge_sameButFlows s n k inEdges be fge demand :
  bush s !! n = Some inEdges -> inEdges !! k = Some be ->
  arcs (graph s) !! underlyingEdge be = Some fge ->
  sameButFlows s
    (setGraph (setBush s (<[n := <[k := addFlow demand be]> inEdges]> (bush s)))
              (setArcs (graph s)
                       (<[underlyingEdge be := loadArc demand fge]> (arcs (graph s))))).
Proof.
  intros Hn Hk Harc. split_and!.
  - by destruct s.
  - simpl. unfold shape. rewrite list_fmap_insert. apply list_insert_id.
    rewrite list_lookup_fmap, Hn. simpl. f_equal. rewrite list_fmap_insert.
    symmetry. apply list_insert_id. by rewrite list_lookup_fmap, Hk.
  - simpl. unfold layout. simpl. f_equal. rewrite list_fmap_insert.
    apply list_insert_id. by rewrite list_lookup_fmap, Harc.
  - simpl. intros j a' Hj.
    destruct (decide (j = underlyingEdge be)) as [->|Hne].
    + rewrite list_lookup_insert_eq in Hj by (by eapply lookup_lt_Some).
      injection Hj as <-. by right.
    + rewrite list_lookup_insert_ne in Hj by done. by left.
Qed.

Lemma walkFlow_sameButFlows fuel : forall s root demand node s',
  walkFlow fuel s root demand node = Ret s' -> sameButFlows s s'.
Proof.
  induction fuel as [|fuel IH]; intros s root demand node s'; simpl;
    destruct (decide (node = root)); try (intros [= <-]; apply sameButFlows_refl).
  intros Hrun. apply bind_Ret in Hrun as (v & _ & Hrun).
  destruct (minPredecessor v) as [[slot k]|]; [|done].
  apply bind_Ret in Hrun as (inEdges & Hin%idx_Ret & Hrun).
  apply bind_Ret in Hrun as (be & Hbe%idx_Ret & Hrun).
  apply bind_Ret in Hrun as (fge & Hfge%idx_Ret & Hrun).
  eapply sameButFlows_trans; [|by eapply IH]. by apply loadEdge_sameButFlows.
Qed.

Lemma sendToDests_sameButFlows fuel root l s s' :
  foldM (sendToDest fuel root) s l = Ret s' -> sameButFlows s s'.
Proof.
  apply (foldM_invariant (sameButFlows s)); [|apply sameButFlows_refl].
  intros a i a' Ha (x & _ & Hwalk)%bind_Ret.
  eapply sameButFlows_trans; [exact Ha|]. by eapply walkFlow_sameButFlows.
Qed.

(** X18.  [sendInitialFlows] changes flows and cached lengths only: the
    nodes, the ordering, the pending changes and the scratch buffer are as
    they were, every bush edge has the ends and the arc it had, every arc the
    ends and the cost function it had, and the cached length of every arc
    that is not as it was is the cost of the arc at its new flow. *)
Theorem sendInitialFlows_sameButFlows fuel s s' :
  sendInitialFlows fuel s = Ret s' -> sameButFlows s s'.
Proof.
  unfold sendInitialFlows. intros (root & _ & Hrun)%bind_Ret.
  by eapply sendToDests_sameButFlows.
Qed.

End InitialFlows.

Section Constructed.
Context {D : Type} {ops : DoubleOps D} {ext : Collaborators D}.
Implicit Types (s : Bush D) (b : list (EdgeVector D)).

(** The shape [setUpGraph] gives an empty bush. *)
Lemma setUpGraph_shape (o : Origin D) g nodes store s1 out :
  setUpGraph (initialBush o g nodes store) = Ret (s1, out) ->
  shape (bush s1)
  = forwardArcs (dijkstra g (getOrigin o) (replicate (numVertices g) NOPOS) []).1 g
    <$> seq 0 (numVertices g).
Proof.
  intros Hsetup.
  pose proof (setUpGraph_Ret _ _ _ Hsetup) as (_ & _ & _ & _ & _ & _ & _ & Hbush).
  simpl in Hbush. apply list_eq. intros v. unfold shape.
  rewrite !list_lookup_fmap, Hbush. destruct (decide (v < numVertices g)) as [Hv|Hv].
  - rewrite lookup_replicate_2, lookup_seq_lt by done. simpl. f_equal.
    unfold forwardArcs. by rewrite <- list_fmap_compose.
  - rewrite (proj1 (lookup_replicate_None _ _ _)) by lia.
    by rewrite lookup_seq_ge by lia.
Qed.

(** The steps of the constructor; the bush it returns has the origin, the
    ordering and the shape [setUpGraph] left. *)
Lemma newBush_steps fuel (o : Origin D) g nodes store s out :
  newBush fuel o g nodes store = Ret (s, out) ->
  exists s1 s2 s3,
    setUpGraph (initialBush o g nodes store) = Ret (s1, out) /\
    buildTrees s1 = Ret s2 /\ sameButFlows s2 s3 /\ s = setChanges s3 [] /\
    origin s = origin s1 /\ topologicalOrdering s = topologicalOrdering s1 /\
    shape (bush s) = shape (bush s1).
Proof.
  unfold newBush. intros ([s1 out'] & Hsetup & Hrun)%bind_Ret.
  apply bind_Ret in Hrun as (s2 & Hbuild & Hrun).
  apply bind_Ret in Hrun as (s3 & Hsend & [= <- <-]).
  assert (sameButFlows s2 s3) as Hflows.
  { unfold sendInitialFlows in Hsend. apply bind_Ret in Hsend as (root & _ & Hsend).
    by eapply sendToDests_sameButFlows. }
  exists s1, s2, s3. split_and!; try done.
  all: pose proof (sameButTrees_fields _ _ (buildTrees_frame _ _ Hbuild))
         as (Horigin2 & Hbush2 & _ & _ & Horder2);
       pose proof (sameButFlows_fields _ _ Hflows) as (Horigin3 & _ & _ & Horder3 & _);
       destruct Hflows as (_ & Hshape & _); simpl; congruence.
Qed.

(** X19.  What the constructor leaves when it returns: the origin it was
    given, no pending change, the scratch buffer and the length of the node
    array as they were, the ordering of the shortest-path search, the network
    with the ends and the cost functions of its arcs, one in-edge vector per
    vertex that holds the arcs into the vertex whose ends the search has
    reached, the tail before the head, in the order of the arc vector, and
    the diagnostics of the unreached destinations. *)
Theorem newBush_Ret fuel (o : Origin D) g nodes store s out :
  newBush fuel o g nodes store = Ret (s, out) ->
  origin s = o /\ changes s = [] /\ tempStore s = store /\
  topologicalOrdering s
  = (dijkstra g (getOrigin o) (replicate (numVertices g) NOPOS) []).2 /\
  length (sharedNodes s) = length nodes /\
  layout (graph s) = layout g /\
  shape (bush s)
  = forwardArcs (dijkstra g (getOrigin o) (replicate (numVertices g) NOPOS) []).1 g
    <$> seq 0 (numVertices g) /\
  out = (fun i => (getOrigin o, i.1))
        <$> unreached (dijkstra g (getOrigin o) (replicate (numVertices g) NOPOS) []).1
                      (dests o).
Proof.
  intros Hrun.
  destruct (newBush_steps _ _ _ _ _ _ _ Hrun)
    as (s1 & s2 & s3 & Hsetup & Hbuild & Hflows & -> & Horigin & Horder & Hshape).
  pose proof (setUpGraph_shape _ _ _ _ _ _ Hsetup) as Hshape1.
  pose proof (setUpGraph_Ret _ _ _ Hsetup)
    as (Horder1 & Horigin1 & Hnodes & Hgraph & _ & Hstore & _).
  pose proof (sameButTrees_fields _ _ (buildTrees_frame _ _ Hbuild))
    as (_ & _ & Hgraph2 & Hstore2 & _).
  pose proof (buildTrees_length _ _ Hbuild) as Hnodes2.
  pose proof (sameButFlows_fields _ _ Hflows) as (_ & Hnodes3 & Hstore3 & _).
  destruct Hflows as (_ & _ & Hlayout & _). simpl in *.
  split_and!; try done; try congruence.
  unfold setUpGraph, initialBush in Hsetup. simpl in Hsetup.
  destruct (dijkstra _ _ _ _) as [distanceMap order].
  apply bind_Ret in Hsetup as (out' & Hout & (b & _ & [= _ <-])%bind_Ret).
  by apply reportUnreachable_all in Hout.
Qed.

Lemma shape_elem b b' v inEdges' e' :
  shape b' = shape b -> b' !! v = Some inEdges' -> e' ∈ inEdges' ->
  exists inEdges e, b !! v = Some inEdges /\ e ∈ inEdges /\ ends e = ends e'.
Proof.
  unfold shape. intros Hshape Hv He.
  assert (((fun es : EdgeVector D => ends <$> es) <$> b) !! v = Some (ends <$> inEdges'))
    as Hb by (by rewrite <- Hshape, list_lookup_fmap, Hv).
  rewrite list_lookup_fmap in Hb. destruct (b !! v) as [inEdges|]; [|done].
  injection Hb as Hb. exists inEdges.
  assert (ends e' ∈ ends <$> inEdges) as (e & Hends & Hin)%list_elem_of_fmap.
  { rewrite Hb. by apply list_elem_of_fmap_2. }
  by exists e.
Qed.

Lemma shape_lookup (b b' : list (EdgeVector D)) n k inEdges' be' :
  shape b' = shape b -> b' !! n = Some inEdges' -> inEdges' !! k = Some be' ->
  exists inEdges be, b !! n = Some inEdges /\ inEdges !! k = Some be /\ ends be = ends be'.
Proof.
  unfold shape. intros Hshape Hn Hk.
  assert (((fun es : EdgeVector D => ends <$> es) <$> b) !! n = Some (ends <$> inEdges'))
    as Hb by (by rewrite <- Hshape, list_lookup_fmap, Hn).
  rewrite list_lookup_fmap in Hb. destruct (b !! n) as [inEdges|]; [|done].
  injection Hb as Hb. exists inEdges.
  assert ((ends <$> inEdges) !! k = Some (ends be')) as Hbe
    by (by rewrite Hb, list_lookup_fmap, Hk).
  rewrite list_lookup_fmap in Hbe. destruct (inEdges !! k) as [be|]; [|done].
  simpl in Hbe. exists be. split_and!; [done..|congruence].
Qed.

(** With a coherent answer of the shortest-path search, every in-edge
    [setUpGraph] gives an empty bush comes from a node that stands before
    its target in the ordering. *)
Lemma setUpGraph_ordered (o : Origin D) g nodes store s1 out :
  positionsOf (dijkstra g (getOrigin o) (replicate (numVertices g) NOPOS) []).1
              (dijkstra g (getOrigin o) (replicate (numVertices g) NOPOS) []).2 ->
  setUpGraph (initialBush o g nodes store) = Ret (s1, out) ->
  validOrdering s1.
Proof.
  intros Hpos Hsetup.
  pose proof (setUpGraph_Ret _ _ _ Hsetup) as (Horder & _ & _ & _ & _ & _ & _ & Hbush).
  simpl in Horder, Hbush.
  intros v inEdges e Hv He. rewrite Horder. rewrite Hbush in Hv.
  destruct (replicate (numVertices g) [] !! v) as [es|] eqn:Hes; [|done].
  apply lookup_replicate in Hes as [-> _]. injection Hv as <-.
  apply list_elem_of_fmap in He as ([k a] & -> & [Hacc _]%list_elem_of_filter).
  unfold pushedOnto, accepted in Hacc. simpl in *.
  destruct (_ !! arcFrom a) as [fp|] eqn:Hfp; [|done].
  destruct (_ !! arcTo a) as [tp|] eqn:Htp; [|done].
  apply andb_true_iff in Hacc as [Hacc Hv'%bool_decide_eq_true].
  apply andb_true_iff in Hacc as [Hreached Hlt%Z.ltb_lt].
  apply negb_true_iff, orb_false_iff in Hreached as [Htp'%Z.eqb_neq Hfp'%Z.eqb_neq].
  destruct (Hpos _ _ Hfp Hfp') as [Hfp0 Hfrom'].
  destruct (Hpos _ _ Htp Htp') as [Htp0 Hto'].
  exists (Z.to_nat fp), (Z.to_nat tp). split_and!; [lia|congruence..].
Qed.

(** A valid ordering stays valid when the flows change. *)
Lemma validOrdering_shape s s' :
  shape (bush s') = shape (bush s) ->
  topologicalOrdering s' = topologicalOrdering s ->
  validOrdering s -> validOrdering s'.
Proof.
  intros Hshape Horder Hvalid v inEdges' e' Hv He'. rewrite Horder.
  destruct (shape_elem _ _ _ _ _ Hshape Hv He') as (inEdges & e & Hv0 & He & Hends).
  injection Hends as <- _ _. by eapply Hvalid.
Qed.

(** X20.  A constructor that returns leaves a bush that satisfies the
    invariant of the data model, when the answer of the shortest-path search
    is coherent: its distance map gives every reached node its position in
    its ordering, and the ordering names no node twice and starts with the
    origin. *)
Theorem newBush_ordered fuel (o : Origin D) g nodes store s out :
  positionsOf (dijkstra g (getOrigin o) (replicate (numVertices g) NOPOS) []).1
              (dijkstra g (getOrigin o) (replicate (numVertices g) NOPOS) []).2 ->
  NoDup (dijkstra g (getOrigin o) (replicate (numVertices g) NOPOS) []).2 ->
  head (dijkstra g (getOrigin o) (replicate (numVertices g) NOPOS) []).2
  = Some (getOrigin o) ->
  newBush fuel o g nodes store = Ret (s, out) ->
  validOrdering s /\ topologicallyOrdered s.
Proof.
  intros Hpos Hnodup Hhead Hrun.
  destruct (newBush_steps _ _ _ _ _ _ _ Hrun)
    as (s1 & s2 & s3 & Hsetup & _ & _ & _ & Horigin & Horder & Hshape).
  pose proof (setUpGraph_Ret _ _ _ Hsetup) as (Horder1 & Horigin1 & _).
  simpl in Horder1, Horigin1.
  assert (validOrdering s) as Hvalid
    by (apply (validOrdering_shape s1); [done..|by eapply setUpGraph_ordered]).
  split; [done|]. rewrite <- Horder1, <- Horder in Hnodup, Hhead.
  split_and!; [done|by rewrite Horigin, Horigin1|].
  intros v inEdges e _. apply Hvalid.
Qed.

End Constructed.

Lemma setUpGraph_diagnostics_stranded :
  exists s out,
    @setUpGraph Z Z_ops strandedExt
       (initialBush strandedOrigin strandedGraph (replicate 6 freshNode)
                    (replicate 6 (0%Z, 0))) = Ret (s, out) /\
    out = [(0, 5%Z)].
Proof.
  eassert (@setUpGraph Z Z_ops strandedExt
             (initialBush strandedOrigin strandedGraph (replicate 6 freshNode)
                          (replicate 6 (0%Z, 0))) = Ret (_, _)) as Hsetup
    by (vm_compute; reflexivity).
  eexists _, _. split; [exact Hsetup|].
  exact (@setUpGraph_diagnostics Z Z_ops strandedExt _ _ _ Hsetup).
Defined.

Lemma sendInitialFlows_sameButFlows_star :
  exists s',
    @sendInitialFlows Z Z_ops 4 starState = Ret s' /\ sameButFlows starState s'.
Proof.
  eassert (@sendInitialFlows Z Z_ops 4 starState = Ret _) as Hrun
    by (vm_compute; reflexivity).
  eexists. split; [exact Hrun|].
  exact (sendInitialFlows_sameButFlows _ _ _ Hrun).
Defined.

Lemma newBush_Ret_star :
  exists out,
    newBush (ext := starExt) 4 starOrigin starGraph (replicate 4 freshNode)
            (replicate 4 (0%Z, 0)) = Ret (starState, out) /\
    origin starState = starOrigin /\ changes starState = [] /\
    shape (bush starState) = [[]; [(0, 1, 0)]; [(0, 2, 1)]; [(0, 3, 2)]].
Proof.
  eassert (newBush (ext := starExt) 4 starOrigin starGraph (replicate 4 freshNode)
                   (replicate 4 (0%Z, 0)) = Ret (starState, _)) as Hrun
    by (vm_compute; reflexivity).
  eexists. split; [exact Hrun|].
  destruct (newBush_Ret (ext := starExt) _ _ _ _ _ _ _ Hrun)
    as (Horigin & Hchanges & _ & _ & _ & _ & Hshape & _).
  split_and!; [exact Horigin|exact Hchanges|exact Hshape].
Defined.

Lemma starExt_positions :
  positionsOf
    (dijkstra (Collaborators := starExt) starGraph (getOrigin starOrigin)
              (replicate (numVertices starGraph) NOPOS) []).1
    (dijkstra (Collaborators := starExt) starGraph (getOrigin starOrigin)
              (replicate (numVertices starGraph) NOPOS) []).2.
Proof.
  intros v p Hv Hp. simpl in Hv.
  destruct v as [|[|[|[|v]]]]; simpl in Hv; [| | | |done]; injection Hv as <-;
    (split; [lia|reflexivity]).
Qed.

Lemma newBush_ordered_star :
  exists out,
    newBush (ext := starExt) 4 starOrigin starGraph (replicate 4 freshNode)
            (replicate 4 (0%Z, 0)) = Ret (starState, out) /\
    validOrdering starState /\ topologicallyOrdered starState.
Proof.
  eassert (newBush (ext := starExt) 4 starOrigin starGraph (replicate 4 freshNode)
                   (replicate 4 (0%Z, 0)) = Ret (starState, _)) as Hrun
    by (vm_compute; reflexivity).
  eexists. split; [exact Hrun|].
  refine (newBush_ordered (ext := starExt) _ _ _ _ _ _ _ starExt_positions _ _ Hrun);
    [|reflexivity].
  apply (bool_decide_unpack _). by vm_compute.
Defined.

(** ** The flows of the bush and of the graph *)

Section Buckets.
Context {A : Type} (f : A -> nat).

Lemma filter_lt_S (l : list A) n :
  filter (fun x => f x < S n) l ≡ₚ filter (fun x => f x < n) l ++ filter (fun x => f x = n) l.
Proof.
  induction l as [|x l IH]; [done|].
  destruct (lt_eq_lt_dec (f x) n) as [[Hlt|Heq]|Hgt].
  - rewrite (filter_cons_True (fun x => f x < S n)) by lia.
    rewrite (filter_cons_True (fun x => f x < n)) by lia.
    rewrite (filter_cons_False (fun x => f x = n)) by lia. by rewrite IH.
  - rewrite (filter_cons_True (fun x => f x < S n)) by lia.
    rewrite (filter_cons_False (fun x => f x < n)) by lia.
    rewrite (filter_cons_True (fun x => f x = n)) by lia.
    by rewrite IH, <- Permutation_middle.
  - rewrite (filter_cons_False (fun x => f x < S n)) by lia.
    rewrite (filter_cons_False (fun x => f x < n)) by lia.
    by rewrite (filter_cons_False (fun x => f x = n)) by lia.
Qed.

Lemma buckets_Permutation (l : list A) n :
  concat ((fun v => filter (fun x => f x = v) l) <$> seq 0 n)
  ≡ₚ filter (fun x => f x < n) l.
Proof.
  induction n as [|n IH].
  - simpl. symmetry. induction l as [|x l IHl]; [done|].
    rewrite filter_cons. case_decide; [lia|done].
  - rewrite seq_S, fmap_app, concat_app, IH, filter_lt_S. simpl.
    by rewrite app_nil_r.
Qed.

End Buckets.

(** In a list of lists without duplicates under [f], equal images come from
    the same slot. *)
Lemma NoDup_concat_slot {A B} (f : A -> B) (b : list (list A)) :
  NoDup (f <$> concat b) ->
  forall v v' es es' j j' x x',
    b !! v = Some es -> es !! j = Some x ->
    b !! v' = Some es' -> es' !! j' = Some x' ->
    f x = f x' -> v = v' /\ j = j'.
Proof.
  induction b as [|l b IH]; intros Hnodup v v' es es' j j' x x' Hv Hj Hv' Hj' Hf;
    [done|].
  simpl in Hnodup. rewrite fmap_app in Hnodup.
  apply NoDup_app in Hnodup as (Hl & Hdisj & Hb).
  assert (forall w ws k y, b !! w = Some ws -> ws !! k = Some y -> f y ∈ f <$> concat b)
    as Hin.
  { intros w ws k y Hw Hk. apply list_elem_of_fmap_2, list_elem_of_In, in_concat.
    exists ws. split; apply list_elem_of_In; by eapply list_elem_of_lookup_2. }
  destruct v as [|v], v' as [|v']; simpl in Hv, Hv'.
  - injection Hv as <-. injection Hv' as <-. split; [done|].
    apply (NoDup_lookup _ _ _ (f x) Hl); rewrite list_lookup_fmap.
    + by rewrite Hj.
    + by rewrite Hj', Hf.
  - injection Hv as <-. destruct (Hdisj (f x)).
    + apply list_elem_of_fmap_2. by eapply list_elem_of_lookup_2.
    + rewrite Hf. by eapply Hin.
  - injection Hv' as <-. destruct (Hdisj (f x')).
    + apply list_elem_of_fmap_2. by eapply list_elem_of_lookup_2.
    + rewrite <- Hf. by eapply Hin.
  - destruct (IH Hb v v' es es' j j' x x') as [-> ->]; done.
Qed.

Lemma imap_pair_fst {A} (l : list A) : (imap pair l).*1 = seq 0 (length l).
Proof.
  induction l as [|x l IH] using rev_ind; [done|].
  rewrite imap_app, fmap_app, IH, length_app, seq_app. simpl.
  by rewrite Nat.add_0_r.
Qed.

Section InSync.
Context {D : Type} {ops : DoubleOps D} {ext : Collaborators D}.
Implicit Types (s : Bush D) (b : list (EdgeVector D)).

Lemma arcsOnce_shape b b' : shape b' = shape b -> arcsOnce b -> arcsOnce b'.
Proof.
  unfold arcsOnce, shape. intros Hshape.
  assert (forall c : list (EdgeVector D),
            underlyingEdge <$> concat c
            = snd <$> concat ((fun es : EdgeVector D => ends <$> es) <$> c)) as Hc.
  { induction c as [|es c IH]; [done|]. simpl.
    rewrite !fmap_app, IH. f_equal. rewrite <- list_fmap_compose.
    by apply list_fmap_ext. }
  by rewrite !Hc, Hshape.
Qed.

(** One step of the walk keeps the flows of the bush edges and of their arcs
    together. *)
Lemma loadEdge_inSync s n k inEdges be fge demand :
  arcsOnce (bush s) -> inSync s ->
  bush s !! n = Some inEdges -> inEdges !! k = Some be ->
  arcs (graph s) !! underlyingEdge be = Some fge ->
  inSync (setGraph (setBush s (<[n := <[k := addFlow demand be]> inEdges]> (bush s)))
                   (setArcs (graph s)
                            (<[underlyingEdge be := loadArc demand fge]> (arcs (graph s))))).
Proof.
  intros Honce Hsync Hn Hk Harc v es' e' Hv He'. simpl in *.
  apply list_elem_of_lookup_1 in He' as [j Hj].
  pose proof (lookup_lt_Some _ _ _ Hn) as Hnlt.
  pose proof (lookup_lt_Some _ _ _ Hk) as Hklt.
  pose proof (lookup_lt_Some _ _ _ Harc) as Harclt.
  assert (arcFlow fge = flow be) as Hbe.
  { destruct (Hsync n inEdges be Hn) as (a & Ha & Hflow);
      [by eapply list_elem_of_lookup_2|]. congruence. }
  destruct (decide (v = n /\ j = k)) as [[-> ->]|Hslot].
  - rewrite list_lookup_insert_eq in Hv by done. injection Hv as <-.
    rewrite list_lookup_insert_eq in Hj by done. injection Hj as <-. simpl.
    rewrite list_lookup_insert_eq by done. eexists. split; [done|]. simpl.
    by rewrite Hbe.
  - assert (exists es, bush s !! v = Some es /\ es !! j = Some e') as (es & Hes & He).
    { destruct (decide (v = n)) as [->|Hvn].
      - rewrite list_lookup_insert_eq in Hv by done. injection Hv as <-.
        exists inEdges. split; [done|].
        rewrite list_lookup_insert_ne in Hj; [done|]. intros <-. by apply Hslot.
      - rewrite list_lookup_insert_ne in Hv by done. by exists es'. }
    destruct (Hsync v es e' Hes) as (a & Ha & Hflow); [by eapply list_elem_of_lookup_2|].
    exists a. split; [|done]. rewrite list_lookup_insert_ne; [done|].
    intros Heq. apply Hslot.
    destruct (NoDup_concat_slot underlyingEdge (bush s) Honce n v inEdges es k j be e')
      as [-> ->]; done.
Qed.

Lemma walkFlow_inSync fuel : forall s root demand node s',
  arcsOnce (bush s) -> inSync s ->
  walkFlow fuel s root demand node = Ret s' -> inSync s'.
Proof.
  induction fuel as [|fuel IH]; intros s root demand node s' Honce Hsync; simpl;
    destruct (decide (node = root)); try (by intros [= <-]).
  intros Hrun. apply bind_Ret in Hrun as (v & _ & Hrun).
  destruct (minPredecessor v) as [[slot k]|]; [|done].
  apply bind_Ret in Hrun as (inEdges & Hin%idx_Ret & Hrun).
  apply bind_Ret in Hrun as (be & Hbe%idx_Ret & Hrun).
  apply bind_Ret in Hrun as (fge & Hfge%idx_Ret & Hrun).
  eapply IH; [| |exact Hrun].
  - eapply arcsOnce_shape; [|exact Honce].
    by destruct (loadEdge_sameButFlows s slot k inEdges be fge demand Hin Hbe Hfge)
      as (_ & ? & _).
  - by apply loadEdge_inSync.
Qed.

Lemma sendToDests_inSync fuel root l s s' :
  arcsOnce (bush s) -> inSync s ->
  foldM (sendToDest fuel root) s l = Ret s' -> arcsOnce (bush s') /\ inSync s'.
Proof.
  intros Honce Hsync.
  apply (foldM_invariant (fun a => arcsOnce (bush a) /\ inSync a)); [|done].
  intros a i a' [Ha Hs] (x & _ & Hwalk)%bind_Ret. split.
  - eapply arcsOnce_shape; [|exact Ha].
    by destruct (walkFlow_sameButFlows _ _ _ _ _ _ Hwalk) as (_ & ? & _).
  - by eapply walkFlow_inSync.
Qed.

(** The in-edge vectors [setUpGraph] gives an empty bush. *)
Lemma setUpGraph_bush (o : Origin D) g nodes store s1 out :
  setUpGraph (initialBush o g nodes store) = Ret (s1, out) ->
  bush s1
  = (fun v => (fun ka : nat * GraphEdge D => newBushEdge ka.1 ka.2)
              <$> filter (fun ka =>
                    pushedOnto (dijkstra g (getOrigin o)
                                  (replicate (numVertices g) NOPOS) []).1 v ka = true)
                         (imap pair (arcs g)))
    <$> seq 0 (numVertices g).
Proof.
  intros Hsetup.
  pose proof (setUpGraph_Ret _ _ _ Hsetup) as (_ & _ & _ & _ & _ & _ & _ & Hbush).
  simpl in Hbush. apply list_eq. intros v.
  rewrite Hbush, list_lookup_fmap. destruct (decide (v < numVertices g)) as [Hv|Hv].
  - by rewrite lookup_replicate_2, lookup_seq_lt by done.
  - rewrite (proj1 (lookup_replicate_None _ _ _)) by lia.
    by rewrite lookup_seq_ge by lia.
Qed.

(** X27.  On a network none of whose arcs has any flow yet, the constructor
    returns a bush no two edges of which lie over the same arc and every
    edge of which carries the flow of its arc. *)
Theorem newBush_inSync fuel (o : Origin D) g nodes store s out :
  Forall (fun a => arcFlow a = d0) (arcs g) ->
  newBush fuel o g nodes store = Ret (s, out) ->
  arcsOnce (bush s) /\ inSync s.
Proof.
  intros Hfresh Hrun. unfold newBush in Hrun.
  apply bind_Ret in Hrun as ([s1 out'] & Hsetup & Hrun).
  apply bind_Ret in Hrun as (s2 & Hbuild & Hrun).
  apply bind_Ret in Hrun as (s3 & Hsend & [= <- <-]).
  pose proof (setUpGraph_bush _ _ _ _ _ _ Hsetup) as Hbush.
  pose proof (setUpGraph_Ret _ _ _ Hsetup) as (_ & _ & _ & Hgraph & _).
  pose proof (sameButTrees_fields _ _ (buildTrees_frame _ _ Hbuild))
    as (_ & Hbush2 & Hgraph2 & _).
  simpl in Hgraph.
  set (dm := (dijkstra g (getOrigin o) (replicate (numVertices g) NOPOS) []).1) in *.
  assert (arcsOnce (bush s2)) as Honce.
  { unfold arcsOnce. rewrite Hbush2, Hbush.
    set (l := filter (fun ka : nat * GraphEdge D => accepted dm ka = true)
                     (imap pair (arcs g))).
    assert (underlyingEdge
            <$> concat ((fun v => (fun ka : nat * GraphEdge D => newBushEdge ka.1 ka.2)
                                  <$> filter (fun ka => pushedOnto dm v ka = true)
                                             (imap pair (arcs g)))
                        <$> seq 0 (numVertices g))
            = (concat ((fun v => filter (fun ka : nat * GraphEdge D => arcTo ka.2 = v) l)
                       <$> seq 0 (numVertices g))).*1) as ->.
    { clear Hbush. induction (seq 0 (numVertices g)) as [|v vs IH]; [done|].
      rewrite !fmap_cons. cbn [concat]. rewrite !fmap_app, IH. f_equal.
      rewrite <- list_fmap_compose. unfold l. rewrite list_filter_filter.
      rewrite (list_filter_iff (fun ka : nat * GraphEdge D => pushedOnto dm v ka = true)
                 (fun ka => arcTo ka.2 = v /\ accepted dm ka = true)); [done|].
      intros ka. unfold pushedOnto.
      rewrite andb_true_iff, bool_decide_eq_true. tauto. }
    rewrite (buckets_Permutation (fun ka : nat * GraphEdge D => arcTo ka.2)).
    eapply sublist_NoDup; [|apply fmap_sublist; etrans; apply sublist_filter].
    rewrite imap_pair_fst. apply NoDup_seq. }
  assert (inSync s2) as Hsync.
  { intros v es e Hv He. rewrite Hbush2, Hbush, list_lookup_fmap in Hv.
    destruct (seq 0 (numVertices g) !! v) as [v'|]; [|done]. injection Hv as <-.
    apply list_elem_of_fmap in He as ([k a] & -> & [_ Hka]%list_elem_of_filter).
    apply elem_of_lookup_imap in Hka as (k' & a' & [= <- <-] & Hk).
    rewrite Hgraph2, Hgraph. exists a. split; [done|]. simpl.
    rewrite Forall_forall in Hfresh. apply Hfresh. by eapply list_elem_of_lookup_2. }
  unfold sendInitialFlows in Hsend. apply bind_Ret in Hsend as (root & _ & Hsend).
  by apply (sendToDests_inSync _ _ _ _ _ Honce Hsync) in Hsend.
Qed.

End InSync.

Lemma newBush_inSync_star :
  exists out,
    newBush (ext := starExt) 4 starOrigin starGraph (replicate 4 freshNode)
            (replicate 4 (0%Z, 0)) = Ret (starState, out) /\
    arcsOnce (bush starState) /\ inSync starState.
Proof.
  eassert (newBush (ext := starExt) 4 starOrigin starGraph (replicate 4 freshNode)
                   (replicate 4 (0%Z, 0)) = Ret (starState, _)) as Hrun
    by (vm_compute; reflexivity).
  eexists. split; [exact Hrun|].
  refine (newBush_inSync (ext := starExt) _ _ _ _ _ _ _ _ Hrun).
  repeat constructor.
Defined.

(** ** The walks back to the root *)

Section Trees.
Context {D : Type} {ops : DoubleOps D} {ext : Collaborators D}.
Implicit Types (s : Bush D) (N : list (BushNode D)) (es : EdgeVector D).

(** The min predecessor [updateInDistances] records is an in-edge of the
    node, and the min distance is the one along it. *)
Lemma updateInDistances_pred N g v es : forall nv,
  updateInDistances N g v es = Ret nv ->
  match minPredecessor nv with
  | Some (n, k) =>
      n = v /\ exists e u a,
        es !! k = Some e /\ N !! fromNode e = Some u /\
        arcs g !! underlyingEdge e = Some a /\
        minDist nv = dadd (minDist u) (distance a)
  | None => True
  end.
Proof.
  unfold updateInDistances. induction es as [|e es IH] using rev_ind; intros nv Hrun.
  - by injection Hrun as <-.
  - rewrite imap_app, foldM_app in Hrun.
    apply bind_Ret in Hrun as (nv0 & Hrun0 & Hrun). specialize (IH _ Hrun0).
    simpl in Hrun. apply bind_Ret in Hrun as (nv1 & Hstep & [= <-]).
    unfold examineInEdge, length_ in Hstep.
    apply bind_Ret in Hstep as (u & Hu%idx_Ret & Hstep).
    apply bind_Ret in Hstep as (len & (a & Ha%idx_Ret & [= <-])%bind_Ret & [= <-]).
    simpl. rewrite Nat.add_0_r.
    destruct (dlt (dadd (minDist u) (distance a)) (minDist nv0)).
    + split; [done|]. exists e, u, a. split_and!; try done.
      by rewrite lookup_app_r, Nat.sub_diag.
    + destruct (minPredecessor nv0) as [[n k]|]; [|done].
      destruct IH as (-> & e' & u' & a' & He' & Hrest). split; [done|].
      exists e', u', a'. split; [|done]. by apply lookup_app_l_Some.
Qed.

(** The labels the loop of [buildTrees] leaves on the nodes it visits are
    those [updateInDistances] computes from the labels it leaves. *)
Lemma buildNodes_labels rest : forall seen s s',
  consistentFrom (bush s) seen rest ->
  foldM buildNode s rest = Ret s' ->
  forall v, v ∈ rest ->
    exists nv es, sharedNodes s' !! v = Some nv /\ bush s !! v = Some es /\
                  updateInDistances (sharedNodes s') (graph s) v es = Ret nv.
Proof.
  induction rest as [|w rest IH]; intros seen s s'; simpl.
  - intros _ _ v Hv. by apply elem_of_nil in Hv.
  - intros (Hw & Hsources & Hrest) Hrun v Hv.
    apply bind_Ret in Hrun as (s1 & Hstep & Hrun).
    pose proof (sameButTrees_fields _ _ (buildNode_frame _ _ _ Hstep))
      as (_ & Hbush & Hgraph & _).
    rewrite <- Hbush in Hrest.
    pose proof (buildNodes_seen _ _ _ _ _ Hrest Hrun) as Hseen.
    apply elem_of_cons in Hv as [->|Hv].
    + unfold buildNode in Hstep.
      apply bind_Ret in Hstep as (old & Hold%idx_Ret & Hstep).
      apply bind_Ret in Hstep as (es & Hes%idx_Ret & Hstep).
      apply bind_Ret in Hstep as (nv & Hnv & Hstep).
      apply bind_Ret in Hstep as (chg & _ & [= <-]). simpl in *.
      exists nv, es. split_and!; [|done|].
      * rewrite Hseen by (by left).
        apply list_lookup_insert_eq. by eapply lookup_lt_Some.
      * rewrite <- Hnv. apply updateInDistances_agree. intros e He.
        pose proof (Hsources _ _ Hes He) as Hfrom.
        rewrite Hseen by (by right). apply list_lookup_insert_ne. by intros ->.
    + rewrite <- Hbush, <- Hgraph. by eapply IH.
Qed.

End Trees.

Section Walks.
Context {D : Type} {ops : DoubleOps D} {ext : Collaborators D}.
Implicit Types (s : Bush D).

(** After a tree build on a bush that satisfies the invariant of the data
    model, the origin has the min distance [0.0], and the min predecessor of
    a node of the ordering, if it has one, comes from a node that stands
    before it, along an in-edge of the node whose length makes up the
    difference of the min distances. *)
Lemma buildTrees_tree s s1 :
  topologicallyOrdered s -> buildTrees s = Ret s1 ->
  minDistOf s1 (getOrigin (origin s)) = d0 /\
  forall j node nv be,
    topologicalOrdering s !! j = Some node -> node <> getOrigin (origin s) ->
    sharedNodes s1 !! node = Some nv ->
    deref (bush s1) (minPredecessor nv) = Ret be ->
    exists j' u a,
      j' < j /\ topologicalOrdering s !! j' = Some (fromNode be) /\
      sharedNodes s1 !! fromNode be = Some u /\
      arcs (graph s1) !! underlyingEdge be = Some a /\
      minDist nv = dadd (minDist u) (distance a).
Proof.
  intros (Hnodup & Hhead & Hedges) Hbuild.
  pose proof (sameButTrees_fields _ _ (buildTrees_frame _ _ Hbuild))
    as (Horigin & Hbush & Hgraph & _ & Horder).
  unfold buildTrees in Hbuild.
  destruct (topologicalOrdering s) as [|o rest] eqn:Hord; [done|].
  injection Hhead as ->. simpl in Hbuild.
  apply bind_Ret in Hbuild as (root & Hroot%idx_Ret & Hbuild).
  set (s0 := setChanges
               (setSharedNodes s (<[getOrigin (origin s):=setDistance d0 root]>
                                    (sharedNodes s))) []) in *.
  assert (consistentFrom (bush s0) [getOrigin (origin s)] rest) as Hcons.
  { apply (precedes_consistentFrom _ _ [getOrigin (origin s)]); [done|done|].
    intros v inEdges e Hv. apply Hedges. by right. }
  split.
  - unfold minDistOf. rewrite (buildNodes_seen _ _ _ _ _ Hcons Hbuild) by (by left).
    simpl. by rewrite list_lookup_insert_eq by (by eapply lookup_lt_Some).
  - intros j node nv be Hj Hnode Hnv Hderef.
    assert (node ∈ rest) as Hrest.
    { apply list_elem_of_lookup_2 in Hj. by apply elem_of_cons in Hj as [->|Hj]. }
    destruct (buildNodes_labels _ _ _ _ Hcons Hbuild node Hrest)
      as (nv' & es & Hnv' & Hes & Hlabel).
    rewrite Hnv in Hnv'. injection Hnv' as <-. simpl in Hes, Hlabel.
    apply updateInDistances_pred in Hlabel.
    destruct (minPredecessor nv) as [[n k]|]; [|done].
    destruct Hlabel as (-> & e & u & a & He & Hu & Ha & Hmin).
    simpl in Hderef. rewrite Hbush in Hderef.
    rewrite (proj2 (idx_Ret _ _ _) Hes) in Hderef. simpl in Hderef.
    apply idx_Ret in Hderef. rewrite He in Hderef. injection Hderef as <-.
    destruct (Hedges node es e) as (i & j0 & Hij & Hi & Hj0);
      [by eapply list_elem_of_lookup_2|done|by eapply list_elem_of_lookup_2|].
    rewrite (NoDup_lookup _ _ _ _ Hnodup Hj0 Hj) in Hij.
    exists i, u, a. rewrite Hgraph. by split_and!.
Qed.

Lemma walkCost_ends s s1 demand :
  topologicallyOrdered s -> buildTrees s = Ret s1 ->
  forall fuel j node cost,
    topologicalOrdering s !! j = Some node -> j <= fuel ->
    walkCost fuel s1 (getOrigin (origin s)) demand node cost <> OutOfFuel.
Proof.
  intros Hordered Hbuild.
  destruct (buildTrees_tree _ _ Hordered Hbuild) as [_ Hstep].
  destruct Hordered as (Hnodup & Hhead & _).
  induction fuel as [|fuel IH]; intros j node cost Hj Hfuel; simpl;
    destruct (decide (node = getOrigin (origin s))) as [->|Hnode]; try done.
  - destruct j; [|lia]. rewrite <- head_lookup in Hj. congruence.
  - destruct (idx_unchecked (sharedNodes s1) node) as [_ Hnode'].
    destruct (idx (sharedNodes s1) node) as [nv| | |] eqn:Hnv; simpl; try done.
    apply idx_Ret in Hnv.
    assert (deref (bush s1) (minPredecessor nv) <> OutOfFuel) as Hderef.
    { unfold deref. destruct (minPredecessor nv) as [[n k]|]; [|done].
      destruct (idx_unchecked (bush s1) n) as [_ Hn].
      destruct (idx (bush s1) n) as [es| | |]; simpl; try done.
      by destruct (idx_unchecked es k). }
    destruct (deref (bush s1) (minPredecessor nv)) as [be| | |] eqn:Hbe; simpl; try done.
    destruct (Hstep j node nv be Hj Hnode Hnv Hbe) as (j' & u & a & Hlt & Hj' & _ & Ha & _).
    unfold length_. rewrite (proj2 (idx_Ret _ _ _) Ha). simpl.
    apply (IH j'); [done|lia].
Qed.

(** X21.  On a bush that satisfies the invariant of the data model and whose
    destinations are nodes of the ordering, no walk of [allOrNothingCost]
    back to the root takes as many edges as the ordering has nodes: the loop
    [while (node != root)] ends. *)
Theorem allOrNothingCost_ends fuel s :
  topologicallyOrdered s -> destsOrdered s ->
  length (topologicalOrdering s) <= S fuel ->
  allOrNothingCost fuel s <> OutOfFuel.
Proof.
  intros Hordered Hdests Hfuel. unfold allOrNothingCost.
  destruct (buildTrees_unchecked s) as [_ Hbuild'].
  destruct (buildTrees s) as [s1| | |] eqn:Hbuild; simpl; try done.
  pose proof (sameButTrees_fields _ _ (buildTrees_frame _ _ Hbuild)) as (Horigin & _).
  rewrite Horigin.
  pose proof (at_unchecked_fuel (sharedNodes s1) (getOrigin (origin s))) as Hroot.
  destruct (at_ (sharedNodes s1) (getOrigin (origin s))) as [root| | |]; simpl; try done.
  assert (foldM (costOfDest fuel s1 (getOrigin (origin s))) d0 (dests (origin s))
          <> OutOfFuel) as Hfold.
  { apply foldM_not_in; [done|]. intros cost i Hi. unfold costOfDest, at_Z.
    destruct (i.1 <? 0)%Z; [done|].
    pose proof (at_unchecked_fuel (sharedNodes s1) (Z.to_nat i.1)) as Hnode.
    destruct (at_ (sharedNodes s1) (Z.to_nat i.1)); simpl; try done.
    unfold destsOrdered in Hdests. rewrite Forall_forall in Hdests.
    destruct (list_elem_of_lookup_1 _ _ (Hdests i Hi)) as [j Hj].
    apply (walkCost_ends s s1 _ Hordered Hbuild _ j); [done|].
    apply lookup_lt_Some in Hj. lia. }
  by destruct (foldM _ _ _).
Qed.

Lemma walkFlow_ends s s1 demand :
  topologicallyOrdered s -> buildTrees s = Ret s1 ->
  forall fuel j node s',
    sameButFlows s1 s' ->
    topologicalOrdering s !! j = Some node -> j <= fuel ->
    walkFlow fuel s' (getOrigin (origin s)) demand node <> OutOfFuel.
Proof.
  intros Hordered Hbuild.
  destruct (buildTrees_tree _ _ Hordered Hbuild) as [_ Hstep].
  destruct Hordered as (Hnodup & Hhead & _).
  induction fuel as [|fuel IH]; intros j node s' Hflows Hj Hfuel; simpl;
    destruct (decide (node = getOrigin (origin s))) as [->|Hnode]; try done.
  - destruct j; [|lia]. rewrite <- head_lookup in Hj. congruence.
  - pose proof (sameButFlows_fields _ _ Hflows) as (_ & Hnodes & _).
    pose proof Hflows as (Hs' & Hshape & Hrest).
    destruct (idx_unchecked (sharedNodes s') node) as [_ Hnode'].
    destruct (idx (sharedNodes s') node) as [nv| | |] eqn:Hnv; simpl; try done.
    apply idx_Ret in Hnv. rewrite Hnodes in Hnv.
    destruct (minPredecessor nv) as [[n k]|] eqn:Hpred; [|done].
    destruct (idx_unchecked (bush s') n) as [_ Hn'].
    destruct (idx (bush s') n) as [inEdges| | |] eqn:Hn; simpl; try done.
    apply idx_Ret in Hn.
    destruct (idx_unchecked inEdges k) as [_ Hk'].
    destruct (idx inEdges k) as [be| | |] eqn:Hk; simpl; try done.
    apply idx_Ret in Hk.
    destruct (idx_unchecked (arcs (graph s')) (underlyingEdge be)) as [_ Harc'].
    destruct (idx (arcs (graph s')) (underlyingEdge be)) as [fge| | |] eqn:Harc;
      simpl; try done.
    apply idx_Ret in Harc.
    destruct (shape_lookup _ _ _ _ _ _ Hshape Hn Hk) as (es0 & be0 & Hn0 & Hk0 & Hends).
    destruct (Hstep j node nv be0 Hj Hnode Hnv) as (j' & _ & _ & Hlt & Hj' & _).
    { rewrite Hpred. simpl. rewrite (proj2 (idx_Ret _ _ _) Hn0). simpl.
      by apply idx_Ret. }
    injection Hends as Hfrom _ _. rewrite Hfrom in Hj'.
    apply (IH j'); [|done|lia].
    eapply sameButFlows_trans; [exact Hflows|]. by apply loadEdge_sameButFlows.
Qed.

(** The walks of [sendInitialFlows] over the destinations [l], from a state
    that differs from the tree build's in flows only. *)
Lemma sendToDests_ends fuel s s1 l :
  topologicallyOrdered s -> buildTrees s = Ret s1 ->
  Forall (fun i : Z * D => Z.to_nat i.1 ∈ topologicalOrdering s) l ->
  length (topologicalOrdering s) <= S fuel ->
  forall s', sameButFlows s1 s' ->
    foldM (sendToDest fuel (getOrigin (origin s))) s' l <> OutOfFuel.
Proof.
  intros Hordered Hbuild Hdests Hfuel.
  induction Hdests as [|i l Hi _ IH]; intros s' Hflows; simpl; [done|].
  assert (sendToDest fuel (getOrigin (origin s)) s' i <> OutOfFuel) as Hi'.
  { unfold sendToDest, at_Z. destruct (i.1 <? 0)%Z; [done|].
    pose proof (at_unchecked_fuel (sharedNodes s') (Z.to_nat i.1)) as Hnode.
    destruct (at_ (sharedNodes s') (Z.to_nat i.1)); simpl; try done.
    destruct (list_elem_of_lookup_1 _ _ Hi) as [j Hj].
    apply (walkFlow_ends s s1 _ Hordered Hbuild _ j); [done..|].
    apply lookup_lt_Some in Hj. lia. }
  destruct (sendToDest fuel (getOrigin (origin s)) s' i) as [s''| | |] eqn:Hstep;
    simpl; try done.
  apply IH. eapply sameButFlows_trans; [exact Hflows|].
  unfold sendToDest in Hstep. apply bind_Ret in Hstep as (x & _ & Hwalk).
  by eapply walkFlow_sameButFlows.
Qed.

(** X22.  After a tree build on a bush that satisfies the invariant of the
    data model and whose destinations are nodes of the ordering, no walk of
    [sendInitialFlows] back to the root takes as many edges as the ordering
    has nodes. *)
Theorem sendInitialFlows_ends fuel s s1 :
  topologicallyOrdered s -> buildTrees s = Ret s1 -> destsOrdered s ->
  length (topologicalOrdering s) <= S fuel ->
  sendInitialFlows fuel s1 <> OutOfFuel.
Proof.
  intros Hordered Hbuild Hdests Hfuel. unfold sendInitialFlows.
  pose proof (sameButTrees_fields _ _ (buildTrees_frame _ _ Hbuild)) as (Horigin & _).
  rewrite Horigin.
  pose proof (at_unchecked_fuel (sharedNodes s1) (getOrigin (origin s))) as Hroot.
  destruct (at_ (sharedNodes s1) (getOrigin (origin s))) as [root| | |]; simpl; try done.
  apply (sendToDests_ends fuel s s1); [done..|apply sameButFlows_refl].
Qed.

(** X23.  The walks of the constructor end: when the answer of the
    shortest-path search is coherent and its ordering names every
    destination, no walk takes as many edges as the ordering has nodes. *)
Theorem newBush_ends fuel (o : Origin D) g nodes store :
  positionsOf (dijkstra g (getOrigin o) (replicate (numVertices g) NOPOS) []).1
              (dijkstra g (getOrigin o) (replicate (numVertices g) NOPOS) []).2 ->
  NoDup (dijkstra g (getOrigin o) (replicate (numVertices g) NOPOS) []).2 ->
  head (dijkstra g (getOrigin o) (replicate (numVertices g) NOPOS) []).2
  = Some (getOrigin o) ->
  Forall (fun i : Z * D =>
            Z.to_nat i.1 ∈ (dijkstra g (getOrigin o) (replicate (numVertices g) NOPOS) []).2)
         (dests o) ->
  length (dijkstra g (getOrigin o) (replicate (numVertices g) NOPOS) []).2 <= S fuel ->
  newBush fuel o g nodes store <> OutOfFuel.
Proof.
  intros Hpos Hnodup Hhead Hdests Hfuel. unfold newBush.
  pose proof (setUpGraph_fuel (initialBush o g nodes store)) as Hsetup'.
  destruct (setUpGraph (initialBush o g nodes store)) as [[s1 out]| | |] eqn:Hsetup;
    simpl; try done.
  pose proof (setUpGraph_Ret _ _ _ Hsetup) as (Horder & Horigin & _).
  simpl in Horder, Horigin. rewrite <- Horder in Hnodup, Hhead, Hdests, Hfuel.
  assert (topologicallyOrdered s1) as Hordered.
  { split_and!; [done|by rewrite Horigin|].
    intros v inEdges e _. by eapply setUpGraph_ordered. }
  destruct (buildTrees_unchecked s1) as [_ Hbuild'].
  destruct (buildTrees s1) as [s2| | |] eqn:Hbuild; simpl; try done.
  assert (sendInitialFlows fuel s2 <> OutOfFuel) as Hsend.
  { unfold sendInitialFlows.
    pose proof (sameButTrees_fields _ _ (buildTrees_frame _ _ Hbuild)) as (-> & _).
    pose proof (at_unchecked_fuel (sharedNodes s2) (getOrigin (origin s1))) as Hroot.
    destruct (at_ (sharedNodes s2) (getOrigin (origin s1))); simpl; try done.
    apply (sendToDests_ends fuel s1 s2); [done|done| |done|apply sameButFlows_refl].
    by rewrite Horigin. }
  by destruct (sendInitialFlows fuel s2).
Qed.

End Walks.

(** ** What the walks add up *)

Section PathCost.
Context {D : Type} {ops : DoubleOps D} {ext : Collaborators D}.
Implicit Types (s : Bush D).

(** A walk that returns has followed a min path, and has added the demand
    times the length of each of its edges to the cost, in the order of the
    walk. *)
Lemma walkCost_path s s1 demand :
  topologicallyOrdered s -> buildTrees s = Ret s1 ->
  forall fuel j node cost c,
    topologicalOrdering s !! j = Some node ->
    walkCost fuel s1 (getOrigin (origin s)) demand node cost = Ret c ->
    exists path,
      minPath s1 (getOrigin (origin s)) node path /\ length path <= j /\
      c = foldl dadd cost ((fun e => dmul demand (lengthOf s1 e)) <$> path).
Proof.
  intros Hordered Hbuild.
  destruct (buildTrees_tree _ _ Hordered Hbuild) as [_ Hstep].
  induction fuel as [|fuel IH]; intros j node cost c Hj; simpl;
    destruct (decide (node = getOrigin (origin s))) as [->|Hnode]; try done.
  - intros [= <-]. exists []. split_and!; [done|simpl; lia|done].
  - intros [= <-]. exists []. split_and!; [done|simpl; lia|done].
  - intros (nv & Hnv%idx_Ret & (be & Hbe & Hrun)%bind_Ret)%bind_Ret.
    apply bind_Ret in Hrun as (len & Hlen & Hrun).
    destruct (Hstep j node nv be Hj Hnode Hnv Hbe)
      as (j' & u & a & Hlt & Hj' & Hu & Ha & Hmin).
    unfold length_ in Hlen. rewrite (proj2 (idx_Ret _ _ _) Ha) in Hlen.
    injection Hlen as <-.
    destruct (IH _ _ _ _ Hj' Hrun) as (path & Hpath & Hlen & ->).
    assert (lengthOf s1 be = distance a) as Hlength
      by (unfold lengthOf; by rewrite Ha).
    exists (be :: path). split_and!.
    + simpl. split_and!; [done|by exists nv| |done].
      unfold minDistOf. by rewrite Hnv, Hu, Hlength.
    + simpl. lia.
    + simpl. by rewrite Hlength.
Qed.

(** X24.  On a bush that satisfies the invariant of the data model and whose
    destinations are nodes of the ordering, the cost [allOrNothingCost]
    returns is made up along the min paths of the destinations: the walk
    from a destination follows the min predecessors back to the origin, over
    fewer edges than the ordering has nodes, every edge with a length that,
    added to the min distance of its source, gives the min distance of its
    target; and the cost is the demand times the length of every edge of
    every walk, added up from [0.0] in the order of the walks.  No law of
    arithmetic is assumed: the sum is the one the code forms. *)
Theorem allOrNothingCost_sums_min_paths fuel s cost s1 :
  topologicallyOrdered s -> destsOrdered s ->
  allOrNothingCost fuel s = Ret (cost, s1) ->
  exists paths,
    Forall2 (fun (i : Z * D) path =>
               minPath s1 (getOrigin (origin s1)) (Z.to_nat i.1) path /\
               length path < length (topologicalOrdering s1))
            (dests (origin s1)) paths /\
    cost = costOfPaths s1 (dests (origin s1)) paths.
Proof.
  intros Hordered Hdests. unfold allOrNothingCost.
  intros (s1' & Hbuild & (root & _ & (c & Hrun & [= <- <-])%bind_Ret)%bind_Ret)%bind_Ret.
  pose proof (sameButTrees_fields _ _ (buildTrees_frame _ _ Hbuild))
    as (Horigin & _ & _ & _ & Horder).
  unfold costOfPaths. rewrite Horigin, Horder in *.
  unfold destsOrdered in Hdests. revert Hrun Hdests. generalize (@d0 D ops).
  induction (dests (origin s)) as [|i l IH]; intros cost; simpl.
  - intros [= <-] _. by exists [].
  - intros (cost1 & (x & _ & Hwalk)%bind_Ret & Hrun)%bind_Ret [Hi Hl]%Forall_cons.
    destruct (list_elem_of_lookup_1 _ _ Hi) as [j Hj].
    destruct (walkCost_path s s1' _ Hordered Hbuild _ _ _ _ _ Hj Hwalk)
      as (path & Hpath & Hlen & ->).
    destruct (IH _ Hrun Hl) as (paths & Hpaths & ->).
    exists (path :: paths). split.
    + constructor; [|done]. split; [done|]. apply lookup_lt_Some in Hj. lia.
    + simpl. by rewrite foldl_app.
Qed.

End PathCost.

(** Writing [f x] over the entry [x] is altering it with [f]. *)
Lemma insert_alter {A} (f : A -> A) (l : list A) i x :
  l !! i = Some x -> <[i := f x]> l = alter f i l.
Proof.
  intros Hi. apply list_eq. intros j. destruct (decide (j = i)) as [->|Hj].
  - rewrite list_lookup_insert_eq by (by eapply lookup_lt_Some).
    by rewrite list_lookup_alter_eq, Hi.
  - rewrite list_lookup_insert_ne by done. by rewrite list_lookup_alter_ne.
Qed.

Section Loads.
Context {D : Type} {ops : DoubleOps D} {ext : Collaborators D}.
Implicit Types (s : Bush D).

(** The flow of an arc after a walk: the demand has been added once for
    every edge of the path that lies over it. *)
Lemma loadArcs_flow demand (path : list (BushEdge D)) : forall l a arc,
  l !! a = Some arc ->
  exists arc',
    loadArcs demand path l !! a = Some arc' /\
    arcFlow arc'
    = foldl dadd (arcFlow arc)
            ((fun _ => demand) <$> filter (fun e => underlyingEdge e = a) path).
Proof.
  induction path as [|e path IH]; intros l a arc Ha.
  - by exists arc.
  - unfold loadArcs. cbn [foldl].
    fold (loadArcs demand path (alter (loadArc demand) (underlyingEdge e) l)).
    rewrite filter_cons. destruct (decide (underlyingEdge e = a)) as [Heq|Hne].
    + subst a. destruct (IH (alter (loadArc demand) (underlyingEdge e) l) (underlyingEdge e)
                   (loadArc demand arc)) as (arc' & Harc' & Hflow).
      { by rewrite list_lookup_alter_eq, Ha. }
      exists arc'. split; [done|]. by rewrite Hflow.
    + apply IH. rewrite list_lookup_alter_ne by done. exact Ha.
Qed.

(** A walk of [sendInitialFlows] that returns has followed a min path of the
    tree build and has loaded the arcs under its edges. *)
Lemma walkFlow_path s s1 demand :
  topologicallyOrdered s -> buildTrees s = Ret s1 ->
  forall fuel j node cur cur',
    sameButFlows s1 cur ->
    topologicalOrdering s !! j = Some node ->
    walkFlow fuel cur (getOrigin (origin s)) demand node = Ret cur' ->
    exists path,
      minPath s1 (getOrigin (origin s)) node path /\
      arcs (graph cur') = loadArcs demand path (arcs (graph cur)).
Proof.
  intros Hordered Hbuild.
  destruct (buildTrees_tree _ _ Hordered Hbuild) as [_ Hstep].
  induction fuel as [|fuel IH]; intros j node cur cur' Hflows Hj; simpl;
    destruct (decide (node = getOrigin (origin s))) as [->|Hnode]; try done.
  - intros [= <-]. by exists [].
  - intros [= <-]. by exists [].
  - pose proof (sameButFlows_fields _ _ Hflows) as (_ & Hnodes & _).
    pose proof Hflows as (_ & Hshape & _).
    intros (nv & Hnv%idx_Ret & Hrun)%bind_Ret. rewrite Hnodes in Hnv.
    destruct (minPredecessor nv) as [[n k]|] eqn:Hpred; [|done].
    apply bind_Ret in Hrun as (inEdges & Hn%idx_Ret & Hrun).
    apply bind_Ret in Hrun as (be & Hk%idx_Ret & Hrun).
    apply bind_Ret in Hrun as (fge & Harc%idx_Ret & Hrun).
    destruct (shape_lookup _ _ _ _ _ _ Hshape Hn Hk) as (es0 & be0 & Hn0 & Hk0 & Hends).
    assert (deref (bush s1) (minPredecessor nv) = Ret be0) as Hderef.
    { rewrite Hpred. simpl. rewrite (proj2 (idx_Ret _ _ _) Hn0). simpl.
      by apply idx_Ret. }
    destruct (Hstep j node nv be0 Hj Hnode Hnv Hderef)
      as (j' & u & a & Hlt & Hj' & Hu & Ha & Hmin).
    injection Hends as Hfrom _ Harc0.
    rewrite <- Hfrom in Hrun.
    destruct (IH _ _ _ _
                 (sameButFlows_trans _ _ _ Hflows
                    (loadEdge_sameButFlows cur n k inEdges be fge demand Hn Hk Harc))
                 Hj' Hrun) as (path & Hpath & Harcs).
    exists (be0 :: path). split.
    + simpl. split_and!; [done|by exists nv| |done].
      unfold minDistOf, lengthOf. by rewrite Hnv, Hu, Ha.
    + rewrite Harcs. simpl. rewrite Harc0. by rewrite (insert_alter _ _ _ _ Harc).
Qed.

(** The walks of [sendInitialFlows] over the destinations [l]. *)
Lemma sendToDests_paths fuel s s1 :
  topologicallyOrdered s -> buildTrees s = Ret s1 ->
  forall l cur cur',
    Forall (fun i : Z * D => Z.to_nat i.1 ∈ topologicalOrdering s) l ->
    sameButFlows s1 cur ->
    foldM (sendToDest fuel (getOrigin (origin s))) cur l = Ret cur' ->
    exists paths,
      Forall2 (fun (i : Z * D) path =>
                 minPath s1 (getOrigin (origin s)) (Z.to_nat i.1) path) l paths /\
      forall a arc, arcs (graph cur) !! a = Some arc ->
        exists arc', arcs (graph cur') !! a = Some arc' /\
          arcFlow arc' = foldl dadd (arcFlow arc) (demandsOver a l paths).
Proof.
  intros Hordered Hbuild.
  induction l as [|i l IH]; intros cur cur' Hdests Hflows; simpl.
  - intros [= <-]. exists []. split; [done|]. intros a arc Ha. by exists arc.
  - apply Forall_cons in Hdests as [Hi Hdests].
    intros (cur1 & (x & _ & Hwalk)%bind_Ret & Hrun)%bind_Ret.
    destruct (list_elem_of_lookup_1 _ _ Hi) as [j Hj].
    destruct (walkFlow_path s s1 _ Hordered Hbuild _ _ _ _ _ Hflows Hj Hwalk)
      as (path & Hpath & Harcs).
    destruct (IH cur1 cur' Hdests) as (paths & Hpaths & Hloaded); [|done|].
    { eapply sameButFlows_trans; [exact Hflows|]. by eapply walkFlow_sameButFlows. }
    exists (path :: paths). split; [by constructor|].
    intros a arc Ha.
    destruct (loadArcs_flow i.2 path _ _ _ Ha) as (arc1 & Harc1 & Hflow1).
    rewrite <- Harcs in Harc1.
    destruct (Hloaded a arc1 Harc1) as (arc' & Harc' & Hflow').
    exists arc'. split; [done|].
    unfold demandsOver. simpl. rewrite foldl_app. by rewrite <- Hflow1.
Qed.

(** X26.  "Adding to both BushEdges and GraphEdges": after a tree build on
    a bush that satisfies the invariant of the data model and whose
    destinations are nodes of the ordering, [sendInitialFlows] walks from
    every destination back to the origin along the min path of the
    destination and adds its demand to the flow of the arc under every edge
    of the path, destination by destination; no other flow of an arc
    changes.  When no two edges of the bush lie over the same arc and every
    bush edge carries the flow of its arc before the call, so it is after
    it: the demand has been added to the bush edges as well. *)
Theorem sendInitialFlows_loads_min_paths fuel s s1 s2 :
  topologicallyOrdered s -> buildTrees s = Ret s1 -> destsOrdered s ->
  sendInitialFlows fuel s1 = Ret s2 ->
  exists paths,
    Forall2 (fun (i : Z * D) path =>
               minPath s1 (getOrigin (origin s1)) (Z.to_nat i.1) path)
            (dests (origin s1)) paths /\
    (forall a arc, arcs (graph s1) !! a = Some arc ->
       exists arc', arcs (graph s2) !! a = Some arc' /\
         arcFlow arc'
         = foldl dadd (arcFlow arc) (demandsOver a (dests (origin s1)) paths)) /\
    (arcsOnce (bush s1) -> inSync s1 -> arcsOnce (bush s2) /\ inSync s2).
Proof.
  intros Hordered Hbuild Hdests. unfold sendInitialFlows.
  intros (root & _ & Hrun)%bind_Ret.
  pose proof (sameButTrees_fields _ _ (buildTrees_frame _ _ Hbuild)) as (Horigin & _).
  rewrite Horigin in *.
  destruct (sendToDests_paths fuel s s1 Hordered Hbuild _ _ _ Hdests
              (sameButFlows_refl s1) Hrun) as (paths & Hpaths & Hloaded).
  exists paths. split_and!; [done|done|].
  intros Honce Hsync. by eapply sendToDests_inSync.
Qed.

End Loads.

Lemma starState_dests : destsOrdered starState.
Proof. repeat constructor. Qed.

Lemma allOrNothingCost_ends_star :
  topologicallyOrdered starState /\
  allOrNothingCost (ext := starExt) 3 starState <> OutOfFuel.
Proof.
  split; [exact starState_ordered|].
  apply (allOrNothingCost_ends (ext := starExt) 3 starState starState_ordered
           starState_dests).
  simpl. lia.
Defined.

Lemma sendInitialFlows_ends_star :
  exists s1,
    buildTrees (ext := starExt) starState = Ret s1 /\
    sendInitialFlows 3 s1 <> OutOfFuel.
Proof.
  eassert (buildTrees (ext := starExt) starState = Ret _) as Hbuild
    by (vm_compute; reflexivity).
  eexists. split; [exact Hbuild|].
  apply (sendInitialFlows_ends (ext := starExt) 3 starState _ starState_ordered Hbuild
           starState_dests).
  simpl. lia.
Defined.

Lemma newBush_ends_star :
  NoDup (dijkstra (Collaborators := starExt) starGraph (getOrigin starOrigin)
                  (replicate (numVertices starGraph) NOPOS) []).2 /\
  newBush (ext := starExt) 3 starOrigin starGraph (replicate 4 freshNode)
          (replicate 4 (0%Z, 0)) <> OutOfFuel.
Proof.
  assert (NoDup (dijkstra (Collaborators := starExt) starGraph (getOrigin starOrigin)
                          (replicate (numVertices starGraph) NOPOS) []).2) as Hnodup
    by (apply (bool_decide_unpack _); by vm_compute).
  split; [exact Hnodup|].
  apply (newBush_ends (ext := starExt) 3 starOrigin starGraph _ _ starExt_positions Hnodup).
  - reflexivity.
  - repeat constructor.
  - simpl. lia.
Defined.

Lemma diamondState_ordered : topologicallyOrdered diamondState.
Proof.
  split_and!.
  - apply (bool_decide_unpack _). by vm_compute.
  - done.
  - intros v inEdges e Hv Hin He.
    destruct v as [|[|[|[|v]]]]; simpl in Hin; [| | | |done]; injection Hin as <-.
    + by apply elem_of_nil in He.
    + apply list_elem_of_singleton in He as ->. exists 0, 1. split_and!; [lia|done|done].
    + apply list_elem_of_singleton in He as ->. exists 0, 2. split_and!; [lia|done|done].
    + apply elem_of_cons in He as [->|He];
        [|apply list_elem_of_singleton in He as ->].
      * exists 1, 3. split_and!; [lia|done|done].
      * exists 2, 3. split_and!; [lia|done|done].
Qed.

Lemma diamondState_dests : destsOrdered diamondState.
Proof. repeat constructor. Qed.

Lemma allOrNothingCost_sums_min_paths_diamond :
  exists cost s1 paths,
    allOrNothingCost (ext := diamondExt) 4 diamondState = Ret (cost, s1) /\
    Forall2 (fun (i : Z * Z) path =>
               minPath s1 (getOrigin (origin s1)) (Z.to_nat i.1) path /\
               length path < length (topologicalOrdering s1))
            (dests (origin s1)) paths /\
    cost = costOfPaths s1 (dests (origin s1)) paths.
Proof.
  eassert (allOrNothingCost (ext := diamondExt) 4 diamondState = Ret (_, _)) as Hrun
    by (vm_compute; reflexivity).
  destruct (allOrNothingCost_sums_min_paths (ext := diamondExt) _ _ _ _
              diamondState_ordered diamondState_dests Hrun) as (paths & Hpaths & Hcost).
  by eexists _, _, paths.
Defined.

Lemma diamondState_inSync : arcsOnce (bush diamondState) /\ inSync diamondState.
Proof.
  split; [apply (bool_decide_unpack _); by vm_compute|].
  intros v inEdges e Hv He.
  destruct v as [|[|[|[|v]]]]; simpl in Hv; [| | | |done]; injection Hv as <-.
  - by apply elem_of_nil in He.
  - apply list_elem_of_singleton in He as ->. by eexists.
  - apply list_elem_of_singleton in He as ->. by eexists.
  - apply elem_of_cons in He as [->|He];
      [|apply list_elem_of_singleton in He as ->]; by eexists.
Qed.

Lemma sendInitialFlows_loads_min_paths_diamond :
  exists s1 s2 paths,
    buildTrees (ext := diamondExt) diamondState = Ret s1 /\
    sendInitialFlows 4 s1 = Ret s2 /\
    Forall2 (fun (i : Z * Z) path =>
               minPath s1 (getOrigin (origin s1)) (Z.to_nat i.1) path)
            (dests (origin s1)) paths /\
    (forall a arc, arcs (graph s1) !! a = Some arc ->
       exists arc', arcs (graph s2) !! a = Some arc' /\
         arcFlow arc'
         = foldl dadd (arcFlow arc) (demandsOver a (dests (origin s1)) paths)) /\
    arcsOnce (bush s2) /\ inSync s2.
Proof.
  eassert (buildTrees (ext := diamondExt) diamondState = Ret _) as Hbuild
    by (vm_compute; reflexivity).
  match type of Hbuild with
  | _ = Ret ?s1 =>
      eassert (sendInitialFlows 4 s1 = Ret _) as Hsend by (vm_compute; reflexivity)
  end.
  destruct (sendInitialFlows_loads_min_paths (ext := diamondExt) _ _ _ _
              diamondState_ordered Hbuild diamondState_dests Hsend)
    as (paths & Hpaths & Hloaded & Hsync).
  eexists _, _, paths. split_and!; [exact Hbuild|exact Hsend|done|done|..];
    apply Hsync; solve [exact (proj1 diamondState_inSync)
                       |exact (proj2 diamondState_inSync)].
Defined.

(** ** The checked lookups of [giveCount] *)

Section CountChecked.
Context {D : Type} {ops : DoubleOps D} {ext : Collaborators D}.
Implicit Types (s : Bush D) (N : list (BushNode D)).

(** Within the node array the inner loop of [giveCount] returns, having
    added at most one per node. *)
Lemma countRun_defined N order : forall dist1 count,
  Forall (fun j => j < length N) order ->
  exists c, countRun N dist1 count order = Ret c /\
            ((0 <= count)%Z -> (count + Z.of_nat (length order) < 2 ^ 32)%Z ->
             (count <= c <= count + Z.of_nat (length order))%Z).
Proof.
  induction order as [|j order IH]; intros dist1 count Hall.
  - exists count. split; [done|]. simpl. lia.
  - apply Forall_cons in Hall as [[v Hv]%lookup_lt_is_Some_2 Hall]. simpl.
    rewrite (proj2 (at_Ret _ _ _) Hv). simpl. destruct (deq dist1 (maxDist v)).
    + destruct (IH dist1 (unsigned_ (count + 1)) Hall) as (c & -> & Hc).
      exists c. split; [done|]. intros H0 Hlen.
      rewrite unsigned_small in Hc by lia. lia.
    + destruct (IH (maxDist v) count Hall) as (c & -> & Hc).
      exists c. split; [done|]. intros H0 Hlen. lia.
Qed.

(** X25.  [giveCount] looks the nodes up with [at], after a tree build that
    has looked up all of them but the first of the ordering with
    [operator[]]: it throws [std::out_of_range] exactly when the tree build
    returns and the first entry of the ordering is no node; when the tree
    build returns and that entry is a node it returns, in the state the tree
    build leaves, a count that for at most [2^31] nodes is not negative and
    below the number of nodes. *)
Theorem giveCount_checked s :
  (giveCount s = OutOfRange <->
   exists s1 i, buildTrees s = Ret s1 /\ head (topologicalOrdering s) = Some i /\
                length (sharedNodes s) <= i) /\
  (forall s1,
     buildTrees s = Ret s1 ->
     (forall i, head (topologicalOrdering s) = Some i -> i < length (sharedNodes s)) ->
     exists count,
       giveCount s = Ret (count, s1) /\
       ((Z.of_nat (length (topologicalOrdering s)) <= 2 ^ 31)%Z ->
        (0 <= count <= Z.of_nat (length (topologicalOrdering s) - 1))%Z)).
Proof.
  assert (forall s1, buildTrees s = Ret s1 ->
            topologicalOrdering s1 = topologicalOrdering s /\
            length (sharedNodes s1) = length (sharedNodes s) /\
            Forall (fun id => id < length (sharedNodes s1)) (tail (topologicalOrdering s)))
    as Hbuilt.
  { intros s1 Hbuild.
    pose proof (sameButTrees_fields _ _ (buildTrees_frame _ _ Hbuild)) as (_ & _ & _ & _ & ?).
    split_and!; [done|by apply buildTrees_length|by apply buildTrees_visited]. }
  unfold giveCount. destruct (buildTrees_unchecked s) as [Hrange _].
  destruct (buildTrees s) as [s1| | |] eqn:Hbuild; simpl; try done.
  - destruct (Hbuilt s1 eq_refl) as (-> & Hlen & Hvisited).
    destruct (topologicalOrdering s) as [|i order]; simpl in *.
    + split; [split; [done|by intros (? & ? & _ & ? & _)]|].
      intros ? [= <-] _. eexists. split; [done|]. by vm_compute.
    + destruct (at_cases (sharedNodes s1) i) as [[Hi [v Hv]]|[Hi Hv]]; rewrite Hv; simpl.
      * destruct (countRun_defined (sharedNodes s1) order (maxDist v) 0%Z Hvisited)
          as (c & -> & Hc). simpl. split.
        -- split; [done|]. intros (? & ? & [= <-] & [= <-] & ?). lia.
        -- intros ? [= <-] _. eexists. split; [done|]. intros Hn.
           rewrite toInt_small by lia. lia.
      * split.
        -- split; [|done]. intros _. exists s1, i. split_and!; [done..|lia].
        -- intros ? [= <-] Hhead. specialize (Hhead i eq_refl). lia.
  - split; [split; [done|by intros (? & ? & ? & _)]|done].
  - split; [split; [done|by intros (? & ? & ? & _)]|done].
Qed.

End CountChecked.

Lemma giveCount_checked_star :
  exists count s1,
    giveCount (ext := starExt) starState = Ret (count, s1) /\
    (0 <= count <= 3)%Z.
Proof.
  eassert (buildTrees (ext := starExt) starState = Ret _) as Hbuild
    by (vm_compute; reflexivity).
  destruct (proj2 (giveCount_checked (ext := starExt) starState) _ Hbuild)
    as (count & Hrun & Hcount).
  - intros i [= <-]. simpl. lia.
  - exists count. eexists. split; [exact Hrun|]. apply Hcount. simpl. lia.
Defined.
